(** * pygmmis: EM for Gaussian mixtures with imputation (iemgmm.py)

    A shallow embedding of [iemgmm.py] and the properties of its functions
    [draw], [logsumLogL], [E], [M], [I], [initialize], [run_EM] and
    [run_test].

    Conventions of the embedding.
    - A numpy array of doubles is a list of reals: a vector is [list R], a
      matrix is a list of rows, the stack [covar] is a list of matrices.
      Arithmetic is the exact arithmetic of [R]; rounding is not modelled.
    - [np.log] is [ln] and [np.exp] is [exp]. They agree with the program
      on positive arguments and as long as nothing overflows or underflows:
      a theorem that goes through a logarithm of [E] assumes the weight and
      the determinant positive, and what is said of the store [M] leaves is
      its shape, not the sign of a weight.
    - A Python exception is a value of [exn]; a function that can raise
      returns a [result].
    - The arrays [amp], [mean] and [covar] are mutated in place by the
      program; the record [params] is that store, threaded explicitly.
    - [np.random] is a random source [rng] with one oracle per numpy call.
    - Array arguments are expected to be well shaped (numpy raises on a
      shape mismatch); the theorems state the shapes they rely on. *)

From Stdlib Require Import Reals List Arith Bool Lia Lra.
Import ListNotations.

Local Open Scope R_scope.

(** ** Python values *)

Abbreviation vec := (list R) (only parsing).
Abbreviation mat := (list (list R)) (only parsing).

Inductive exn : Set :=
| LinAlgError
| ValueError
| ZeroDivisionError.

Inductive result (A : Type) : Type :=
| Ok (a : A)
| Raise (e : exn).

Arguments Ok {A} a.
Arguments Raise {A} e.

Definition bind {A B : Type} (r : result A) (k : A -> result B) : result B :=
  match r with
  | Ok a => k a
  | Raise e => Raise e
  end.

Notation "x <- r ;; k" := (bind r (fun x => k))
  (at level 61, r at next level, right associativity).

(** ** The part of numpy the program uses *)

Module np.

(** [np.finfo('d').tiny] and [np.finfo('d').max]. *)
Definition finfo_tiny : R := / 2 ^ 1022.
Definition finfo_max : R := (2 - / 2 ^ 52) * 2 ^ 1023.

Definition map2 {A B C : Type} (f : A -> B -> C) (a : list A) (b : list B)
  : list C :=
  map (fun p => f (fst p) (snd p)) (combine a b).

(** [v.sum()] *)
Definition sum (v : vec) : R := fold_right Rplus 0 v.

(** [m.shape[1]] *)
Definition shape1 (m : mat) : nat := length (hd [] m).

(** [m[:,j]] *)
Definition col (j : nat) (m : mat) : vec := map (fun row => nth j row 0) m.

(** [m.T] for a matrix [m] with [k] columns. *)
Definition transpose (k : nat) (m : mat) : mat := map (fun j => col j m) (seq 0 k).

Definition columns (m : mat) : list vec := transpose (shape1 m) m.

(** The minimum and the maximum of a non-empty vector. *)
Definition vmin (v : vec) : R := fold_right Rmin (hd 0 v) v.
Definition vmax (v : vec) : R := fold_right Rmax (hd 0 v) v.

(** [m.min(axis=0)], [m.max(axis=0)]: numpy refuses to reduce along an
    axis of length zero. *)
Definition min_axis0 (m : mat) : result vec :=
  match m with
  | [] => Raise ValueError
  | _ => Ok (map vmin (columns m))
  end.

Definition max_axis0 (m : mat) : result vec :=
  match m with
  | [] => Raise ValueError
  | _ => Ok (map vmax (columns m))
  end.

(** [m.sum(axis=0)] *)
Definition sum_axis0 (m : mat) : vec := map sum (columns m).

Definition Rltb (x y : R) : bool := if Rlt_dec x y then true else false.

(** [np.where(a < b, a, b)] *)
Definition where_lt (a b : vec) : vec :=
  map2 (fun x y => if Rltb x y then x else y) a b.

(** [m + c], the vector [c] broadcast over the rows of [m]. *)
Definition add_rows (m : mat) (c : vec) : mat := map (fun row => map2 Rplus row c) m.

Definition vsub (a b : vec) : vec := map2 Rminus a b.

(** [np.empty((n, k))]: the contents are unspecified; every entry is written
    before it is read. *)
Definition empty (n k : nat) : mat := repeat (repeat 0 k) n.

Fixpoint set_nth {A : Type} (n : nat) (x : A) (l : list A) : list A :=
  match l, n with
  | [], _ => []
  | _ :: t, O => x :: t
  | h :: t, S n' => h :: set_nth n' x t
  end.

(** [m[:,j] = v] *)
Definition set_col (j : nat) (v : vec) (m : mat) : mat :=
  map2 (fun row x => set_nth j x row) m v.

(** [data - m], the vector [m] broadcast over the rows of [data]. *)
Definition sub_rows (data : mat) (m : vec) : mat := map (fun row => vsub row m) data.

(** [np.dot(a, b)] for two matrices, [b] with [n] columns. *)
Definition dot (n : nat) (a b : mat) : mat :=
  map (fun row => map (fun c => sum (map2 Rmult row c)) (transpose n b)) a.

(** [np.einsum('...j,j...', dx, b)]: entry [n] is [sum_j dx[n,j] * b[j,n]]. *)
Definition einsum_rows_cols (dx b : mat) : vec :=
  map (fun n => sum (map2 Rmult (nth n dx []) (col n b))) (seq 0 (length dx)).

(** [np.outer(u, v)] *)
Definition outer (u v : vec) : mat := map (fun x => map (fun y => x * y) v) u.

Definition madd (a b : mat) : mat := map2 (map2 Rplus) a b.
Definition mscale (c : R) (a : mat) : mat := map (map (fun x => c * x)) a.
Definition mdiv (a : mat) (c : R) : mat := map (map (fun x => x / c)) a.

(** [np.eye(D)] *)
Definition eye (D : nat) : mat :=
  map (fun i => map (fun j => if Nat.eqb i j then 1 else 0) (seq 0 D)) (seq 0 D).

(** [m[j,d] = x] *)
Definition set_entry (j d : nat) (x : R) (m : mat) : mat :=
  set_nth j (set_nth d x (nth j m [])) m.

(** [m[start:start+len(rows)] = rows] *)
Fixpoint set_rows (start : nat) (rows : mat) (m : mat) : mat :=
  match rows with
  | [] => m
  | r :: rows' => set_rows (S start) rows' (set_nth start r m)
  end.

(** [a[mask]] for a boolean mask. In the numpy the program was written for
    (before 1.13) a mask shorter than [a] selects nothing beyond its end;
    [draw] relies on it in [np.arange(ind.size)[bc > 0]]. *)
Definition boolean_index {A : Type} (a : list A) (mask : list bool) : list A :=
  map fst (filter snd (combine a mask)).

(** [mask.sum()] *)
Definition count_true (mask : list bool) : nat := length (filter (fun b => b) mask).

(** [np.bincount(ind)] *)
Definition bincount (ind : list nat) : list nat :=
  match ind with
  | [] => []
  | _ => map (count_occ Nat.eq_dec ind) (seq 0 (S (list_max ind)))
  end.

Definition Rleb (x y : R) : bool := if Rle_dec x y then true else false.
Definition Reqb (x y : R) : bool := if Req_dec_T x y then true else false.

(** [np.linalg]: the determinant by expansion along the first row, the
    inverse by cofactors. [inv] raises [LinAlgError] on a matrix that is not
    square or is singular. *)
Module linalg.

Fixpoint remove_nth {A : Type} (n : nat) (l : list A) : list A :=
  match l, n with
  | [], _ => []
  | _ :: t, O => t
  | h :: t, S n' => h :: remove_nth n' t
  end.

Definition minor (i j : nat) (m : mat) : mat := map (remove_nth j) (remove_nth i m).

Fixpoint det_n (n : nat) (m : mat) : R :=
  match n with
  | O => 1
  | S n' =>
      sum (map (fun j => (-1) ^ j * nth j (hd [] m) 0 * det_n n' (minor 0 j m))
               (seq 0 n))
  end.

Definition det (m : mat) : R := det_n (length m) m.

Definition square (m : mat) : bool :=
  forallb (fun row => Nat.eqb (length row) (length m)) m.

Definition inv (m : mat) : result mat :=
  if square m then
    if Req_dec_T (det m) 0 then Raise LinAlgError
    else
      let n := length m in
      Ok (map (fun i =>
                 map (fun j => (-1) ^ (i + j) * det_n (pred n) (minor j i m) / det m)
                     (seq 0 n))
              (seq 0 n))
  else Raise LinAlgError.

End linalg.

End np.

(** ** logsumLogL *)

(** The shift [c] of [logsumLogL], lines 53 to 57. *)
Definition logsum_shift (ll : mat) : result vec :=
  let K := length ll in
  mn <- np.min_axis0 ll ;;
  mx <- np.max_axis0 ll ;;
  let underflow := map (fun m => ln np.finfo_tiny - m) mn in
  let overflow := map (fun m => ln np.finfo_max - m - ln (INR K)) mx in
  Ok (np.where_lt underflow overflow).

Definition logsumLogL (ll : mat) : result vec :=
  c <- logsum_shift ll ;;
  Ok (np.vsub (map ln (np.sum_axis0 (map (map exp) (np.add_rows ll c)))) c).

(** ** The store of mixture parameters *)

Record params : Type := mkParams {
  amp : vec;
  mean : mat;
  covar : list mat
}.

(** ** E *)

(** The log-density column of component [j], lines 65 to 67. The two
    [np.log] are [ln]: the column is the program's for a weight [amp[j] > 0]
    and a determinant [det(covar[j]) > 0]; for other values the program
    yields [-inf] or [nan], which [R] does not have. *)
Definition E_column (data : mat) (amp : vec) (mean : mat) (covar : list mat)
    (j : nat) : result vec :=
  let D := np.shape1 mean in
  let dx := np.sub_rows data (nth j mean []) in
  icov <- np.linalg.inv (nth j covar []) ;;
  let chi2 := np.einsum_rows_cols dx (np.dot (length dx) icov (np.transpose D dx)) in
  let norm := ln (nth j amp 0)
              - ln ((2 * PI) ^ D * np.linalg.det (nth j covar [])) / 2 in
  Ok (map (fun c => norm - c / 2) chi2).

(** The first loop of [E]. *)
Fixpoint E_fill (data : mat) (amp : vec) (mean : mat) (covar : list mat)
    (js : list nat) (qij : mat) : result mat :=
  match js with
  | [] => Ok qij
  | j :: js' =>
      column <- E_column data amp mean covar j ;;
      E_fill data amp mean covar js' (np.set_col j column qij)
  end.

(** The second loop of [E]: [qij[:,j] -= logsumLogL(qij.T)], with the
    log-sum taken from the matrix as it is when column [j] is reached. *)
Fixpoint E_normalize (K : nat) (js : list nat) (qij : mat) : result mat :=
  match js with
  | [] => Ok qij
  | j :: js' =>
      total <- logsumLogL (np.transpose K qij) ;;
      E_normalize K js' (np.set_col j (np.vsub (np.col j qij) total) qij)
  end.

Definition E (data : mat) (amp : vec) (mean : mat) (covar : list mat)
  : result mat :=
  let K := length amp in
  let qij := np.empty (length data) K in
  qij <- E_fill data amp mean covar (seq 0 K) qij ;;
  E_normalize K (seq 0 K) qij.

(** ** M *)

(** [qij[:-impute]] and [qij[-impute:]] for [impute > 0]. *)
Definition rows_in (impute : nat) (qij : mat) : mat :=
  firstn (length qij - impute) qij.
Definition rows_out (impute : nat) (qij : mat) : mat :=
  skipn (length qij - impute) qij.

(** Lines 89 to 91: the weighted outer products of the first [N] rows,
    centred on the mean [mu] the store holds when the loop runs. *)
Definition M_scatter (data : mat) (Q_i : vec) (mu : vec) (N : nat) (zero : mat)
  : mat :=
  fold_left
    (fun acc i =>
       let dx := np.vsub (nth i data []) mu in
       np.madd acc (np.mscale (nth i Q_i 0) (np.outer dx dx)))
    (seq 0 N) zero.

(** Lines 99 and 100. *)
Definition M_mean (data : mat) (Q_i : vec) (qj_j : R) (D j : nat) (mean : mat)
  : mat :=
  fold_left
    (fun mean d =>
       np.set_entry j d (np.sum (np.map2 Rmult (np.col d data) Q_i) / qj_j) mean)
    (seq 0 D) mean.

(** Lines 87 to 96: the covariance of a component, from the mean [mu] and
    the covariance [cov] the store holds for it when the component is
    reached. *)
Definition M_covar (data : mat) (Q_i : vec) (qj_j qj_in_j qj_out_j : R)
    (impute N : nat) (mu : vec) (cov : mat) : mat :=
  let covar_ := cov in
  let zero := map (map (fun _ => 0)) cov in
  let scatter := M_scatter data Q_i mu N zero in
  if Nat.eqb impute 0 then np.mdiv scatter qj_j
  else np.madd (np.mdiv scatter qj_in_j) (np.mscale (qj_out_j / qj_j) covar_).

(** The body of the loop over the components, lines 83 to 100. *)
Definition M_component (data qij : mat) (qj qj_in qj_out : vec) (impute : nat)
    (N : Z) (D : nat) (p : params) (j : nat) : params :=
  let Q_i := map exp (np.col j qij) in
  let amp1 := np.set_nth j (nth j qj 0 / IZR (N + Z.of_nat impute)) (amp p) in
  let covar_j :=
    M_covar data Q_i (nth j qj 0) (nth j qj_in 0) (nth j qj_out 0) impute
            (Z.to_nat N) (nth j (mean p) []) (nth j (covar p) []) in
  let covar1 := np.set_nth j covar_j (covar p) in
  let mean1 := M_mean data Q_i (nth j qj 0) D j (mean p) in
  mkParams amp1 mean1 covar1.

Definition M (data qij : mat) (p : params) (impute : nat) : result params :=
  let K := length (amp p) in
  let D := np.shape1 (mean p) in
  let N := (Z.of_nat (length data) - Z.of_nat impute)%Z in
  lqj <- logsumLogL qij ;;
  let qj := map exp lqj in
  if Nat.eqb impute 0 then
    Ok (fold_left (M_component data qij qj [] [] impute N D) (seq 0 K) p)
  else
    lqj_in <- logsumLogL (rows_in impute qij) ;;
    lqj_out <- logsumLogL (rows_out impute qij) ;;
    Ok (fold_left (M_component data qij qj (map exp lqj_in) (map exp lqj_out)
                               impute N D)
                  (seq 0 K) p).

(** ** The random source *)

(** [np.random]: the state of the generator and one oracle for each call
    the program makes. [random_sample K D] is [np.random.random(size=(K, D))],
    [choice K size p] is [np.random.choice(K, size=size, p=p)] on valid
    arguments and [multivariate_normal mu cov s] is
    [np.random.multivariate_normal(mu, cov, size=s)]. *)
Class RandomSource : Type := {
  rng : Type;
  random_sample : nat -> nat -> rng -> mat * rng;
  choice : nat -> nat -> vec -> rng -> list nat * rng;
  multivariate_normal : vec -> mat -> nat -> rng -> mat * rng
}.

(** [np.random.choice] checks its probabilities before it draws. *)
Definition valid_probabilities (K : nat) (p : vec) : bool :=
  Nat.ltb 0 K && Nat.eqb (length p) K
  && forallb (fun x => np.Rleb 0 x) p && np.Reqb (np.sum p) 1.

Definition np_random_choice `{RandomSource} (K size : nat) (p : vec) (g : rng)
  : result (list nat) * rng :=
  if valid_probabilities K p then
    let (ind, g') := choice K size p g in (Ok ind, g')
  else (Raise ValueError, g).

(** ** draw *)

(** A selection callback maps a batch of samples to a boolean mask. *)
Definition callback := mat -> list bool.

(** Lines 13 to 20: one batch per component that occurs in [ind]. *)
Definition draw_by_component `{RandomSource} (mean : mat) (covar : list mat)
    (ind : list nat) (samples : mat) (g : rng) : mat * nat * rng :=
  let bc := np.bincount ind in
  let components :=
    np.boolean_index (seq 0 (length ind)) (map (fun n => Nat.ltb 0 n) bc) in
  fold_left
    (fun st c =>
       let '(samples, counter, g) := st in
       let s := count_occ Nat.eq_dec ind c in
       let (batch, g') := multivariate_normal (nth c mean []) (nth c covar []) s g in
       (np.set_rows counter batch samples, (counter + s)%nat, g'))
    components (samples, O, g).

(** Lines 22 to 24: one sample for each index. *)
Definition draw_one_by_one `{RandomSource} (mean : mat) (covar : list mat)
    (ind : list nat) (samples : mat) (g : rng) : mat * nat * rng :=
  fold_left
    (fun st i =>
       let '(samples, counter, g) := st in
       let (batch, g') := multivariate_normal (nth i mean []) (nth i covar []) 1 g in
       (np.set_nth counter (hd [] batch) samples, (counter + 1)%nat, g'))
    ind (samples, O, g).

(** Lines 6 to 24: normalise [amp] in place, choose the components and
    sample. The store is returned as the call leaves it. *)
Definition draw_batch `{RandomSource} (p : params) (size : nat) (g : rng)
  : result mat * params * rng :=
  let total := np.sum (amp p) in
  let p1 := mkParams (map (fun a => a / total) (amp p)) (mean p) (covar p) in
  let K := length (amp p1) in
  let D := np.shape1 (mean p1) in
  match np_random_choice K size (amp p1) g with
  | (Raise e, g1) => (Raise e, p1, g1)
  | (Ok ind, g1) =>
      let samples := np.empty size D in
      let '(samples, _, g2) :=
        if Nat.ltb K size then draw_by_component (mean p1) (covar p1) ind samples g1
        else draw_one_by_one (mean p1) (covar p1) ind samples g1 in
      (Ok samples, p1, g2)
  end.

(** Lines 27 to 34, up to the recursive call. *)
Inductive selection : Type :=
| Done (samples : mat)
| Recurse (kept : mat) (deficit : nat).

Definition draw_select (sel_callback : option callback) (invert_callback : bool)
    (size : nat) (samples : mat) : selection :=
  match sel_callback with
  | None => Done samples
  | Some f =>
      let sel_ := f samples in
      let sel_ := if invert_callback then map negb sel_ else sel_ in
      let size_in := np.count_true sel_ in
      if Nat.eqb size_in size then Done samples
      else Recurse (np.boolean_index samples sel_) (size - size_in)
  end.

(** [draw]; [fuel] bounds the depth of the recursion, [None] is a call that
    has not returned within it. *)
Fixpoint draw `{RandomSource} (fuel : nat) (p : params) (size : nat)
    (sel_callback : option callback) (invert_callback : bool) (g : rng)
  : option (result mat * params * rng) :=
  match fuel with
  | O => None
  | S fuel' =>
      match draw_batch p size g with
      | (Raise e, p1, g1) => Some (Raise e, p1, g1)
      | (Ok samples, p1, g1) =>
          match draw_select sel_callback invert_callback size samples with
          | Done samples => Some (Ok samples, p1, g1)
          | Recurse kept deficit =>
              match draw fuel' p1 deficit sel_callback invert_callback g1 with
              | Some (Ok ssamples, p2, g2) => Some (Ok (kept ++ ssamples), p2, g2)
              | other => other
              end
          end
      end
  end.

(** ** I and initialize *)

Definition I `{RandomSource} (fuel : nat) (p : params) (impute : nat)
    (sel_callback : option callback) (g : rng)
  : option (result mat * params * rng) :=
  draw fuel p impute sel_callback true g.

Definition target_size : R := 1 / 10.

Definition initialize `{RandomSource} (p : params) (g : rng)
  : result params * rng :=
  let K := length (amp p) in
  let D := np.shape1 (mean p) in
  if Nat.eqb K 0 then (Raise ZeroDivisionError, g)
  else
    let amp1 := map (fun _ => 1 / INR K) (amp p) in
    let (mean1, g1) := random_sample K D g in
    let covar1 := repeat (np.mscale (target_size ^ 2) (np.eye D)) K in
    (Ok (mkParams amp1 mean1 covar1), g1).

(** ** run_EM *)

(** The test of line 121. *)
Definition plain_step (impute iter : nat) : bool :=
  Nat.eqb impute 0 || Nat.ltb iter 25 || Nat.eqb (iter mod 2) 0.

(** [qij = E(data, ...); M(data, qij, ..., impute)], with the store as the
    two calls leave it, normally or by an exception. *)
Definition EM_step `{RandomSource} (data : mat) (impute : nat) (p : params)
    (g : rng) : result unit * params * rng :=
  match E data (amp p) (mean p) (covar p) with
  | Raise e => (Raise e, p, g)
  | Ok qij =>
      match M data qij p impute with
      | Raise e => (Raise e, p, g)
      | Ok p' => (Ok tt, p', g)
      end
  end.

(** The body of the [try], lines 121 to 129, with the store and the random
    source as the block leaves them, normally or by an exception. *)
Definition EM_try `{RandomSource} (fuel : nat) (data : mat) (impute : nat)
    (sel_callback : option callback) (iter : nat) (p : params) (g : rng)
  : option (result unit * params * rng) :=
  if plain_step impute iter then Some (EM_step data O p g)
  else
    match I fuel p impute sel_callback g with
    | None => None
    | Some (Raise e, p1, g1) => Some (Raise e, p1, g1)
    | Some (Ok data_out, p1, g1) => Some (EM_step (data ++ data_out) impute p1 g1)
    end.

(** The state of the loop of [run_EM]. *)
Record EM_state `{RandomSource} : Type := mkState {
  iter : nat;
  store : params;
  source : rng
}.

Arguments mkState {_} iter store source.

(** One turn of the [while] loop, lines 120 to 133. *)
Definition run_EM_body `{RandomSource} (fuel : nat) (data : mat) (impute : nat)
    (sel_callback : option callback) (st : EM_state)
  : option (result EM_state) :=
  match EM_try fuel data impute sel_callback (iter st) (store st) (source st) with
  | None => None
  | Some (Ok _, p, g) => Some (Ok (mkState (iter st + 1)%nat p g))
  | Some (Raise LinAlgError, p, g) =>
      match initialize p g with
      | (Ok p0, g0) => Some (Ok (mkState (0 + 1)%nat p0 g0))
      | (Raise e, _) => Some (Raise e)
      end
  | Some (Raise e, _, _) => Some (Raise e)
  end.

Fixpoint run_EM_loop `{RandomSource} (fuel : nat) (data : mat) (impute : nat)
    (sel_callback : option callback) (st : EM_state)
  : option (result EM_state) :=
  match fuel with
  | O => None
  | S fuel' =>
      if Nat.ltb (iter st) 50 then
        match run_EM_body fuel data impute sel_callback st with
        | Some (Ok st') => run_EM_loop fuel' data impute sel_callback st'
        | other => other
        end
      else Some (Ok st)
  end.

(** [run_EM]; [fuel] bounds the turns of the loop and the depth of each
    [draw]. *)
Definition run_EM `{RandomSource} (fuel : nat) (data : mat) (p : params)
    (impute : nat) (sel_callback : option callback) (g : rng)
  : option (result EM_state) :=
  match initialize p g with
  | (Raise e, _) => Some (Raise e)
  | (Ok p0, g0) => run_EM_loop fuel data impute sel_callback (mkState 0 p0 g0)
  end.

(** ** Vocabulary of the statements *)

(** A matrix of [r] rows and [c] columns. *)
Definition has_shape (r c : nat) (m : mat) : Prop :=
  length m = r /\ Forall (fun row => length row = c) m.

(** The log of the sum of the exponentials of a vector. *)
Definition logsumexp (v : vec) : R := ln (np.sum (map exp v)).

(** The shift [logsumLogL] applies to a column of a matrix of [K] rows. *)
Definition shift_of (K : nat) (column : vec) : R :=
  Rmin (ln np.finfo_tiny - np.vmin column)
       (ln np.finfo_max - np.vmax column - ln (INR K)).

(** The row of means of a component after lines 99 and 100. *)
Definition M_mean_row (data : mat) (Q_i : vec) (qj_j : R) (D : nat) (row : vec)
  : vec :=
  fold_left
    (fun row d =>
       np.set_nth d (np.sum (np.map2 Rmult (np.col d data) Q_i) / qj_j) row)
    (seq 0 D) row.

(** The responsibility mass of component [j] over the rows of [qij]:
    [sum_i exp(qij[i,j])]. *)
Definition mass (j : nat) (qij : mat) : R := np.sum (map exp (np.col j qij)).

(** Every row of [qij] is normalised: its exponentials sum to 1. *)
Definition row_normalized (qij : mat) : Prop :=
  Forall (fun row => np.sum (map exp row) = 1) qij.

(** [m[a,b]] *)
Definition entry (m : mat) (a b : nat) : R := nth b (nth a m []) 0.

Definition symmetric (m : mat) : Prop := forall a b, entry m a b = entry m b a.

(** Valid mixture weights: none negative, not all zero. *)
Definition valid_amp (a : vec) : Prop := Forall (fun x => 0 <= x) a /\ 0 < np.sum a.

(** [amp / amp.sum()] *)
Definition normalized (a : vec) : vec := map (fun x => x / np.sum a) a.

(** A callback that tests each sample on its own with the predicate [pred]. *)
Definition rowwise (pred : list R -> bool) : callback := map pred.

(** The test a sample has passed when [draw] keeps it. *)
Definition accepted (pred : list R -> bool) (invert_callback : bool) (x : list R)
  : bool :=
  if invert_callback then negb (pred x) else pred x.

(** A random source for examples: the state counts the calls; every index
    drawn is 0, every sample of call number [g] is the mean shifted by
    [g - 2], and the uniform numbers are all 1/2. *)
Definition scripted : RandomSource := {|
  rng := nat;
  random_sample := fun K D g => (repeat (repeat (1 / 2) D) K, S g);
  choice := fun K size p g => (repeat O size, S g);
  multivariate_normal := fun mu cov s g =>
    (repeat (map (fun m => m + (INR g - 2)) mu) s, S g)
|}.

(** The half-line of positive first coordinates. *)
Definition positive_first (x : list R) : bool := np.Rltb 0 (nth 0 x 0).

(** The mask [draw] counts, line 28 to 30. *)
Definition mask_of (f : callback) (invert_callback : bool) (samples : mat)
  : list bool :=
  if invert_callback then map negb (f samples) else f samples.

(** Every non-empty batch the random source yields holds a sample the
    predicate accepts. *)
Definition productive `{RandomSource} (pred : list R -> bool)
    (invert_callback : bool) : Prop :=
  forall p size g samples p1 g1,
    (0 < size)%nat -> draw_batch p size g = (Ok samples, p1, g1) ->
    existsb (accepted pred invert_callback) samples = true.



(** The average of the first column of [data], and the mean of the squared
    distances of that column to [m]. *)
Definition column_mean (data : mat) : R :=
  np.sum (np.col 0 data) / INR (length data).

Definition mean_square_about (m : R) (data : mat) : R :=
  np.sum (map (fun x => (x - m) * (x - m)) (np.col 0 data)) / INR (length data).

(** What the program relies on from [np.random]: the shapes of what is
    drawn, and component indices below the number of components. *)
Definition numpy_random_contract `{RandomSource} : Prop :=
  (forall K D g, has_shape K D (fst (random_sample K D g))) /\
  (forall K size p g,
     (0 < K)%nat -> Forall (fun i => (i < K)%nat) (fst (choice K size p g))) /\
  (forall mu cov s g,
     has_shape s (length mu) (fst (multivariate_normal mu cov s g))).

(** A store for [K] components in dimension [D]. *)
Definition well_formed (K D : nat) (p : params) : Prop :=
  length (amp p) = K /\
  has_shape K D (mean p) /\
  length (covar p) = K /\ Forall (has_shape D D) (covar p).

(** ** run_test *)

(** What a call of [run_test] ends in: the three arrays it returns, an
    exception of [run_EM], or the [AttributeError] of [amp.sum()] on [None]. *)
Inductive test_outcome : Type :=
| Returns (p : params)
| Raises (e : exn)
| RaisesAttributeError.

(** Lines 140 to 156: [R] runs of [run_EM] on fresh arrays, their results
    concatenated; [acc] is [None] until the first run has returned. The
    [print] of line 141 is left out. *)
Fixpoint run_test_runs `{RandomSource} (fuel : nat) (data : mat) (K D : nat)
    (impute : nat) (sel_callback : option callback) (R : nat)
    (acc : option params) (g : rng) : option (result (option params)) :=
  match R with
  | O => Some (Ok acc)
  | S R' =>
      let p_ := mkParams (repeat 0 K) (np.empty K D) (repeat (np.empty D D) K) in
      match run_EM fuel data p_ impute sel_callback g with
      | None => None
      | Some (Raise e) => Some (Raise e)
      | Some (Ok st) =>
          let acc' :=
            match acc with
            | None => store st
            | Some a =>
                mkParams (amp a ++ amp (store st)) (mean a ++ mean (store st))
                         (covar a ++ covar (store st))
            end in
          run_test_runs fuel data K D impute sel_callback R' (Some acc') (source st)
      end
  end.

Definition run_test `{RandomSource} (fuel : nat) (data : mat) (K R : nat)
    (sel : option (list bool)) (sel_callback : option callback) (g : rng)
  : option test_outcome :=
  let D := np.shape1 data in
  let runs :=
    match sel with
    | None => run_test_runs fuel data K D 0 None R None g
    | Some mask =>
        run_test_runs fuel data K D (np.count_true (map negb mask)) sel_callback
                      R None g
    end in
  match runs with
  | None => None
  | Some (Raise e) => Some (Raises e)
  | Some (Ok None) => Some RaisesAttributeError
  | Some (Ok (Some a)) =>
      Some (Returns (mkParams (normalized (amp a)) (mean a) (covar a)))
  end.

(** * Properties *)

(** ** Lists and arrays *)

Lemma map2_length {A B C : Type} (f : A -> B -> C) (a : list A) (b : list B) :
  length (np.map2 f a b) = Nat.min (length a) (length b).
Proof.
  unfold np.map2. now rewrite length_map, length_combine.
Qed.

Lemma nth_map2 {A B C : Type} (f : A -> B -> C) (a : list A) (b : list B)
    (j : nat) (da : A) (db : B) (d : C) :
  (j < length a)%nat -> (j < length b)%nat ->
  nth j (np.map2 f a b) d = f (nth j a da) (nth j b db).
Proof.
  revert b j. induction a as [|x a IH]; intros [|y b] [|j] Ha Hb;
    simpl in *; try lia; auto.
  apply IH; lia.
Qed.

Lemma nth_map_seq {A : Type} (f : nat -> A) (n j : nat) (d : A) :
  (j < n)%nat -> nth j (map f (seq 0 n)) d = f j.
Proof.
  intros Hj. rewrite (nth_indep _ d (f O)) by now rewrite length_map, length_seq.
  rewrite map_nth. now rewrite seq_nth.
Qed.

Lemma nth_map_in {A B : Type} (f : A -> B) (l : list A) (j : nat) (d : B) (da : A) :
  (j < length l)%nat -> nth j (map f l) d = f (nth j l da).
Proof.
  intros Hj. rewrite (nth_indep _ d (f da)) by now rewrite length_map.
  apply map_nth.
Qed.

Lemma set_nth_length {A : Type} (n : nat) (x : A) (l : list A) :
  length (np.set_nth n x l) = length l.
Proof.
  revert n. induction l as [|h t IH]; intros [|n]; simpl; auto.
Qed.

Lemma nth_set_nth_eq {A : Type} (n : nat) (x d : A) (l : list A) :
  (n < length l)%nat -> nth n (np.set_nth n x l) d = x.
Proof.
  revert n. induction l as [|h t IH]; intros [|n] Hn; simpl in *; try lia; auto.
  apply IH; lia.
Qed.

Lemma nth_set_nth_neq {A : Type} (n m : nat) (x d : A) (l : list A) :
  n <> m -> nth m (np.set_nth n x l) d = nth m l d.
Proof.
  revert n m. induction l as [|h t IH]; intros [|n] [|m] Hneq; simpl; auto;
    try congruence.
Qed.

Lemma sum_app (a b : vec) : np.sum (a ++ b) = np.sum a + np.sum b.
Proof.
  induction a as [|x a IH]; simpl; [lra | rewrite IH; lra].
Qed.

Lemma sum_map_scale {A : Type} (c : R) (f : A -> R) (l : list A) :
  np.sum (map (fun x => c * f x) l) = c * np.sum (map f l).
Proof.
  induction l as [|x l IH]; simpl; [lra | rewrite IH; lra].
Qed.

Lemma sum_map_exp_pos {A : Type} (f : A -> R) (l : list A) :
  l <> [] -> 0 < np.sum (map (fun x => exp (f x)) l).
Proof.
  destruct l as [|x l]; [congruence | intros _].
  simpl. assert (0 <= np.sum (map (fun x => exp (f x)) l)).
  { induction l as [|y l IH]; simpl; [lra |].
    pose proof (exp_pos (f y)). lra. }
  pose proof (exp_pos (f x)). lra.
Qed.

Lemma has_shape_columns (r c : nat) (m : mat) :
  has_shape r c m -> (0 < r)%nat -> np.columns m = np.transpose c m.
Proof.
  intros [Hr Hc] Hpos. unfold np.columns, np.shape1.
  destruct m as [|row m]; simpl in *; [lia |].
  now inversion Hc; subst.
Qed.

Lemma col_length (j : nat) (m : mat) : length (np.col j m) = length m.
Proof. apply length_map. Qed.

Lemma transpose_length (k : nat) (m : mat) : length (np.transpose k m) = k.
Proof. unfold np.transpose. now rewrite length_map, length_seq. Qed.

Lemma nth_transpose (k j : nat) (m : mat) (d : vec) :
  (j < k)%nat -> nth j (np.transpose k m) d = np.col j m.
Proof. intros Hj. exact (nth_map_seq (fun i => np.col i m) k j d Hj). Qed.

(** ** logsumLogL *)

Lemma vmin_le (v : vec) (x : R) : In x v -> np.vmin v <= x.
Proof.
  unfold np.vmin. generalize (hd 0 v) as d. induction v as [|y v IH]; intros d Hin.
  - destruct Hin.
  - simpl. destruct Hin as [->|Hin].
    + apply Rmin_l.
    + eapply Rle_trans; [apply Rmin_r | now apply IH].
Qed.

Lemma vmin_In (v : vec) : v <> [] -> In (np.vmin v) v.
Proof.
  destruct v as [|x v]; [congruence | intros _].
  unfold np.vmin. simpl hd.
  assert (H : forall l d, In (fold_right Rmin d l) (d :: l)).
  { induction l as [|y l IH]; intros d; simpl; [auto |].
    destruct (Rle_dec y (fold_right Rmin d l)) as [Hle | Hnle].
    + rewrite (Rmin_left _ _ Hle). right; left; reflexivity.
    + rewrite Rmin_right by lra.
      destruct (IH d) as [H | H]; [left; exact H | right; right; exact H]. }
  specialize (H (x :: v) x). simpl in H. simpl.
  destruct H as [H | H]; [left; exact H | exact H].
Qed.

Lemma vmax_ge (v : vec) (x : R) : In x v -> x <= np.vmax v.
Proof.
  unfold np.vmax. generalize (hd 0 v) as d. induction v as [|y v IH]; intros d Hin.
  - destruct Hin.
  - simpl. destruct Hin as [->|Hin].
    + apply Rmax_l.
    + eapply Rle_trans; [now apply IH | apply Rmax_r].
Qed.

Lemma vmax_In (v : vec) : v <> [] -> In (np.vmax v) v.
Proof.
  destruct v as [|x v]; [congruence | intros _].
  unfold np.vmax. simpl hd.
  assert (H : forall l d, In (fold_right Rmax d l) (d :: l)).
  { induction l as [|y l IH]; intros d; simpl; [auto |].
    destruct (Rle_dec y (fold_right Rmax d l)) as [Hle | Hnle].
    + rewrite (Rmax_right _ _ Hle).
      destruct (IH d) as [H | H]; [left; exact H | right; right; exact H].
    + rewrite Rmax_left by lra. right; left; reflexivity. }
  specialize (H (x :: v) x). simpl in H. simpl.
  destruct H as [H | H]; [left; exact H | exact H].
Qed.

Lemma where_lt_Rmin (x y : R) : (if np.Rltb x y then x else y) = Rmin x y.
Proof.
  unfold np.Rltb, Rmin. destruct (Rlt_dec x y), (Rle_dec x y); lra.
Qed.

Lemma map2_map_map {A B C D : Type} (f : B -> C -> D) (g : A -> B) (h : A -> C)
    (l : list A) :
  np.map2 f (map g l) (map h l) = map (fun x => f (g x) (h x)) l.
Proof.
  unfold np.map2. induction l as [|x l IH]; simpl; [reflexivity | now rewrite IH].
Qed.

Lemma has_shape_nonempty (r c : nat) (m : mat) :
  has_shape r c m -> (0 < r)%nat -> m <> [].
Proof. intros [Hr _] Hpos ->. simpl in Hr. lia. Qed.

Lemma logsum_shift_eq (K N : nat) (ll : mat) :
  has_shape K N ll -> (0 < K)%nat ->
  logsum_shift ll = Ok (map (fun n => shift_of K (np.col n ll)) (seq 0 N)).
Proof.
  intros Hshape Hpos. unfold logsum_shift.
  pose proof (has_shape_columns _ _ _ Hshape Hpos) as Hcols.
  destruct Hshape as [Hr Hc].
  unfold np.min_axis0, np.max_axis0.
  destruct ll as [|row ll]; [simpl in Hr; lia |].
  cbn [bind]. rewrite Hcols. unfold np.transpose, np.where_lt.
  rewrite !map_map, map2_map_map. f_equal.
  apply map_ext. intros n. rewrite where_lt_Rmin, Hr. reflexivity.
Qed.

Lemma col_exp_shifted (N n : nat) (ll : mat) (c : vec) :
  Forall (fun row => length row = N) ll -> length c = N -> (n < N)%nat ->
  np.col n (map (map exp) (np.add_rows ll c))
  = map (fun x => exp (x + nth n c 0)) (np.col n ll).
Proof.
  intros Hrows Hc Hn. unfold np.col, np.add_rows. rewrite !map_map.
  apply map_ext_in. intros row Hin.
  rewrite Forall_forall in Hrows. specialize (Hrows row Hin).
  rewrite (nth_map_in exp _ n 0 0) by (rewrite map2_length; lia).
  now rewrite (nth_map2 Rplus row c n 0 0) by lia.
Qed.

Lemma shifted_rows_shape (K N : nat) (ll : mat) (c : vec) :
  has_shape K N ll -> length c = N ->
  has_shape K N (map (map exp) (np.add_rows ll c)).
Proof.
  intros [Hr Hrows] Hc. split.
  - unfold np.add_rows. now rewrite !length_map.
  - unfold np.add_rows. rewrite map_map. apply Forall_map.
    eapply Forall_impl; [| exact Hrows]. intros row Hrow. cbn beta in *.
    rewrite length_map, map2_length, Hrow, Hc. apply Nat.min_id.
Qed.

(** [logsumLogL] column by column: shift, exponentiate, sum, take the
    log, undo the shift. *)
Lemma logsumLogL_steps (K N : nat) (ll : mat) :
  has_shape K N ll -> (0 < K)%nat ->
  logsumLogL ll
  = Ok (map (fun n =>
               let c := shift_of K (np.col n ll) in
               ln (np.sum (map (fun x => exp (x + c)) (np.col n ll))) - c)
            (seq 0 N)).
Proof.
  intros Hshape Hpos. unfold logsumLogL.
  rewrite (logsum_shift_eq K N ll Hshape Hpos). cbn [bind]. f_equal.
  set (c := map (fun n => shift_of K (np.col n ll)) (seq 0 N)).
  assert (Hc : length c = N) by (unfold c; now rewrite length_map, length_seq).
  unfold np.sum_axis0.
  rewrite (has_shape_columns K N _ (shifted_rows_shape K N ll c Hshape Hc) Hpos).
  unfold np.transpose, np.vsub. rewrite !map_map.
  unfold c at 2. rewrite map2_map_map.
  apply map_ext_in. intros n Hn. apply in_seq in Hn.
  rewrite (col_exp_shifted N n ll c) by (try apply Hshape; auto; lia).
  replace (nth n c 0) with (shift_of K (np.col n ll)); [reflexivity |].
  unfold c. symmetry.
  exact (nth_map_seq (fun i => shift_of K (np.col i ll)) N n 0 ltac:(lia)).
Qed.

Lemma shifted_logsumexp (c : R) (v : vec) :
  v <> [] -> ln (np.sum (map (fun x => exp (x + c)) v)) - c = logsumexp v.
Proof.
  intros Hv. unfold logsumexp.
  assert (Hsum : 0 < np.sum (map exp v)).
  { rewrite <- (map_id v), map_map. now apply sum_map_exp_pos. }
  replace (map (fun x => exp (x + c)) v) with (map (fun x => exp c * exp x) v).
  - rewrite sum_map_scale, ln_mult by (auto using exp_pos). rewrite ln_exp. lra.
  - apply map_ext. intros x. rewrite exp_plus. ring.
Qed.

(** In exact arithmetic the shift cancels: [logsumLogL] is the log of the
    sum of the exponentials of each column. *)
Lemma logsumLogL_eq (K N : nat) (ll : mat) :
  has_shape K N ll -> (0 < K)%nat ->
  logsumLogL ll = Ok (map (fun n => logsumexp (np.col n ll)) (seq 0 N)).
Proof.
  intros Hshape Hpos. rewrite (logsumLogL_steps K N ll Hshape Hpos). f_equal.
  apply map_ext. intros n. cbv zeta. apply shifted_logsumexp.
  pose proof (has_shape_nonempty _ _ _ Hshape Hpos) as Hne.
  unfold np.col. destruct ll; [congruence | discriminate].
Qed.

Lemma exp_logsumexp (v : vec) : v <> [] -> exp (logsumexp v) = np.sum (map exp v).
Proof.
  intros Hv. unfold logsumexp. apply exp_ln.
  rewrite <- (map_id v) at 1. rewrite map_map. now apply sum_map_exp_pos.
Qed.

Lemma ln_2_bounds : 0 < ln 2 < 1.
Proof.
  split.
  - rewrite <- ln_1. apply ln_increasing; lra.
  - pose proof (exp_ineq1 1 ltac:(lra)) as H.
    apply Rlt_le_trans with (ln (exp 1)); [apply ln_increasing; lra |].
    rewrite ln_exp. lra.
Qed.

Lemma ln_finfo_tiny_neg : ln np.finfo_tiny < 0.
Proof.
  unfold np.finfo_tiny.
  assert (Hpow : 0 < 2 ^ 1022) by (apply pow_lt; lra).
  rewrite ln_Rinv by exact Hpow. rewrite ln_pow by lra.
  pose proof ln_2_bounds as [Hln _].
  assert (0 < INR 1022) by (apply lt_0_INR; lia).
  nra.
Qed.

Lemma ln_finfo_max_bounds : 0 < ln np.finfo_max < 1024.
Proof.
  unfold np.finfo_max.
  assert (Hpow : 1 <= 2 ^ 1023) by (apply pow_R1_Rle; lra).
  assert (Hinv : 0 < / 2 ^ 52 < 1).
  { assert (H52 : 1 < 2 ^ 52) by (apply Rlt_pow_R1; [lra | lia]).
    split; [apply Rinv_0_lt_compat; lra |].
    rewrite <- Rinv_1. apply Rinv_lt_contravar; lra. }
  rewrite ln_mult by lra. rewrite ln_pow by lra.
  assert (Hn : INR 1023 = 1023).
  { rewrite INR_IZR_INZ. reflexivity. }
  rewrite Hn. pose proof ln_2_bounds as [Hln0 Hln1].
  assert (Hm : 0 < ln (2 - / 2 ^ 52) < ln 2).
  { split; [rewrite <- ln_1 |]; apply ln_increasing; lra. }
  lra.
Qed.

(** C7, as the code has it: for every column of a matrix of [K >= 1] rows
    [logsumLogL] takes as the shift [c] the smaller of the two candidates as
    signed numbers, [min (log tiny - min column, log max - max column - log K)],
    where [min column] and [max column] are the least and the greatest entry,
    then shifts the column by [c], exponentiates, sums, takes the log and
    subtracts [c]. *)
Theorem logsumLogL_shift_is_signed_min (K N : nat) (ll : mat) :
  has_shape K N ll -> (0 < K)%nat ->
  exists c r,
    logsum_shift ll = Ok c /\ logsumLogL ll = Ok r /\
    length c = N /\ length r = N /\
    forall n, (n < N)%nat ->
      let column := np.col n ll in
      (In (np.vmin column) column /\ In (np.vmax column) column /\
       forall x, In x column -> np.vmin column <= x <= np.vmax column) /\
      nth n c 0 = Rmin (ln np.finfo_tiny - np.vmin column)
                       (ln np.finfo_max - np.vmax column - ln (INR K)) /\
      nth n r 0
      = ln (np.sum (map (fun x => exp (x + nth n c 0)) column)) - nth n c 0.
Proof.
  intros Hshape Hpos.
  exists (map (fun n => shift_of K (np.col n ll)) (seq 0 N)).
  exists (map (fun n =>
                 let c := shift_of K (np.col n ll) in
                 ln (np.sum (map (fun x => exp (x + c)) (np.col n ll))) - c)
              (seq 0 N)).
  split; [now apply logsum_shift_eq |].
  split; [now apply logsumLogL_steps |].
  split; [now rewrite length_map, length_seq |].
  split; [now rewrite length_map, length_seq |].
  intros n Hn column.
  assert (Hne : column <> []).
  { pose proof (has_shape_nonempty _ _ _ Hshape Hpos) as Hll.
    unfold column, np.col. destruct ll; [congruence | discriminate]. }
  split.
  { split; [now apply vmin_In |]. split; [now apply vmax_In |].
    intros x Hx. split; [now apply vmin_le | now apply vmax_ge]. }
  rewrite (nth_map_seq (fun i => shift_of K (np.col i ll)) N n 0 Hn).
  split; [reflexivity |].
  exact (nth_map_seq
           (fun i =>
              let c := shift_of K (np.col i ll) in
              ln (np.sum (map (fun x => exp (x + c)) (np.col i ll))) - c)
           N n 0 Hn).
Qed.

Lemma logsumLogL_shift_is_signed_min_witness :
  exists c r,
    logsum_shift [[0; 1]; [2; 3]] = Ok c /\ logsumLogL [[0; 1]; [2; 3]] = Ok r /\
    length c = 2%nat /\ length r = 2%nat /\
    forall n, (n < 2)%nat ->
      let column := np.col n [[0; 1]; [2; 3]] in
      (In (np.vmin column) column /\ In (np.vmax column) column /\
       forall x, In x column -> np.vmin column <= x <= np.vmax column) /\
      nth n c 0 = Rmin (ln np.finfo_tiny - np.vmin column)
                       (ln np.finfo_max - np.vmax column - ln (INR 2)) /\
      nth n r 0
      = ln (np.sum (map (fun x => exp (x + nth n c 0)) column)) - nth n c 0.
Proof.
  apply (logsumLogL_shift_is_signed_min 2 2 [[0; 1]; [2; 3]]).
  - split; [reflexivity | repeat constructor].
  - lia.
Defined.

(** C7, as the claim words it, fails: on the one-entry matrix [[1000]] the
    shift taken is the underflow-avoiding one, although the overflow-avoiding
    one is strictly smaller in magnitude. *)
Lemma logsumLogL_shift_not_smaller_magnitude :
  let underflow := ln np.finfo_tiny - 1000 in
  let overflow := ln np.finfo_max - 1000 - ln (INR 1) in
  logsum_shift [[1000]] = Ok [underflow] /\
  underflow <> overflow /\
  Rabs overflow < Rabs underflow.
Proof.
  intros underflow overflow.
  pose proof ln_finfo_tiny_neg as Ht. pose proof ln_finfo_max_bounds as [Hm0 Hm1].
  assert (Ho : overflow = ln np.finfo_max - 1000).
  { unfold overflow. simpl INR. rewrite ln_1. lra. }
  split; [| split].
  - rewrite (logsum_shift_eq 1 1 [[1000]]);
      [| split; [reflexivity | repeat constructor] | lia].
    cbn [seq map]. unfold shift_of, np.col. cbn [map nth].
    unfold np.vmin, np.vmax. cbn [hd fold_right].
    rewrite (Rmin_left 1000 1000) by lra. rewrite (Rmax_left 1000 1000) by lra.
    rewrite Rmin_left; [reflexivity |]. simpl INR. rewrite ln_1. lra.
  - rewrite Ho. unfold underflow. lra.
  - rewrite Ho. unfold underflow.
    rewrite (Rabs_left (ln np.finfo_tiny - 1000)) by lra.
    apply Rabs_def1; lra.
Qed.

(** ** M *)

Lemma nth_set_nth {A : Type} (n m : nat) (x d : A) (l : list A) :
  nth m (np.set_nth n x l) d
  = if Nat.eqb n m && Nat.ltb n (length l) then x else nth m l d.
Proof.
  destruct (Nat.eqb_spec n m) as [-> | Hneq]; cbn [andb].
  - destruct (Nat.ltb_spec m (length l)) as [Hlt | Hge].
    + now apply nth_set_nth_eq.
    + rewrite !nth_overflow; auto. now rewrite set_nth_length.
  - now apply nth_set_nth_neq.
Qed.

Lemma set_nth_overflow {A : Type} (n : nat) (x : A) (l : list A) :
  (length l <= n)%nat -> np.set_nth n x l = l.
Proof.
  revert n. induction l as [|h t IH]; intros [|n] Hn; simpl in *; auto; try lia.
  f_equal. apply IH. lia.
Qed.

Lemma set_nth_set_nth {A : Type} (n : nat) (x y : A) (l : list A) :
  np.set_nth n y (np.set_nth n x l) = np.set_nth n y l.
Proof.
  revert n. induction l as [|h t IH]; intros [|n]; simpl; auto. now rewrite IH.
Qed.

Lemma M_mean_rows (data : mat) (Q_i : vec) (qj_j : R) (j : nat) (ds : list nat)
    (mean : mat) :
  fold_left
    (fun mean d =>
       np.set_entry j d (np.sum (np.map2 Rmult (np.col d data) Q_i) / qj_j) mean)
    ds mean
  = np.set_nth j
      (fold_left
         (fun row d =>
            np.set_nth d (np.sum (np.map2 Rmult (np.col d data) Q_i) / qj_j) row)
         ds (nth j mean []))
      mean
    \/ (length mean <= j)%nat.
Proof.
  destruct (Nat.ltb_spec j (length mean)) as [Hlt | Hge]; [left | now right].
  revert mean Hlt. induction ds as [|d ds IH]; intros mean Hlt; cbn [fold_left].
  - revert j Hlt. induction mean as [|r mean IHm]; intros [|j] Hlt;
      simpl in *; try lia; auto.
    f_equal. apply IHm. lia.
  - rewrite IH by (unfold np.set_entry; now rewrite set_nth_length).
    unfold np.set_entry. rewrite nth_set_nth_eq by exact Hlt.
    now rewrite set_nth_set_nth.
Qed.

Lemma M_mean_eq (data : mat) (Q_i : vec) (qj_j : R) (D j : nat) (mean : mat) :
  (j < length mean)%nat ->
  M_mean data Q_i qj_j D j mean
  = np.set_nth j (M_mean_row data Q_i qj_j D (nth j mean [])) mean.
Proof.
  intros Hlt. unfold M_mean, M_mean_row.
  destruct (M_mean_rows data Q_i qj_j j (seq 0 D) mean) as [H | H]; [exact H | lia].
Qed.

Lemma fold_set_nth_length (f : nat -> R) (ds : list nat) (row : vec) :
  length (fold_left (fun row d => np.set_nth d (f d) row) ds row) = length row.
Proof.
  revert row. induction ds as [|d ds IH]; intros row; cbn [fold_left]; auto.
  now rewrite IH, set_nth_length.
Qed.

Lemma fold_set_nth_nth (f : nat -> R) (ds : list nat) (row : vec) (d : nat) :
  nth d (fold_left (fun row d => np.set_nth d (f d) row) ds row) 0
  = if existsb (Nat.eqb d) ds && Nat.ltb d (length row) then f d else nth d row 0.
Proof.
  revert row. induction ds as [|e ds IH]; intros row; cbn [fold_left existsb].
  - reflexivity.
  - rewrite IH, set_nth_length, nth_set_nth.
    destruct (Nat.eqb_spec d e) as [-> | Hneq].
    + rewrite Nat.eqb_refl. cbn [orb andb].
      destruct (existsb (Nat.eqb e) ds), (Nat.ltb e (length row)); reflexivity.
    + destruct (Nat.eqb_spec e d) as [Heq | _]; [congruence |].
      reflexivity.
Qed.

Lemma existsb_seq (d n : nat) : existsb (Nat.eqb d) (seq 0 n) = Nat.ltb d n.
Proof.
  destruct (Nat.ltb_spec d n) as [Hlt | Hge].
  - apply existsb_exists. exists d. split; [apply in_seq; lia | apply Nat.eqb_refl].
  - destruct (existsb (Nat.eqb d) (seq 0 n)) eqn:E; [| reflexivity].
    apply existsb_exists in E. destruct E as [x [Hin Heq]].
    apply in_seq in Hin. apply Nat.eqb_eq in Heq. lia.
Qed.

Lemma M_mean_row_length (data : mat) (Q_i : vec) (qj_j : R) (D : nat) (row : vec) :
  length (M_mean_row data Q_i qj_j D row) = length row.
Proof. unfold M_mean_row. apply fold_set_nth_length. Qed.

Lemma M_mean_row_nth (data : mat) (Q_i : vec) (qj_j : R) (D d : nat) (row : vec) :
  (d < D)%nat -> (d < length row)%nat ->
  nth d (M_mean_row data Q_i qj_j D row) 0
  = np.sum (np.map2 Rmult (np.col d data) Q_i) / qj_j.
Proof.
  intros HD Hrow. unfold M_mean_row.
  rewrite (fold_set_nth_nth
             (fun d => np.sum (np.map2 Rmult (np.col d data) Q_i) / qj_j)).
  rewrite existsb_seq.
  destruct (Nat.ltb_spec d D), (Nat.ltb_spec d (length row)); try lia. reflexivity.
Qed.

Lemma M_mean_overflow (data : mat) (Q_i : vec) (qj_j : R) (D j : nat) (mean : mat) :
  (length mean <= j)%nat -> M_mean data Q_i qj_j D j mean = mean.
Proof.
  intros Hge. unfold M_mean. generalize (seq 0 D) as ds.
  induction ds as [|d ds IH]; cbn [fold_left]; auto.
  unfold np.set_entry at 2. now rewrite set_nth_overflow by exact Hge.
Qed.

Section MLoop.

Variables (data qij : mat) (qj qj_in qj_out : vec) (impute : nat) (N : Z) (D : nat).

Let step := M_component data qij qj qj_in qj_out impute N D.

(** What the body of the loop writes for component [j], from the mean and
    the covariance it finds there. *)
Let amp_of (j : nat) : R := nth j qj 0 / IZR (N + Z.of_nat impute).
Let covar_of (j : nat) (mu : vec) (cov : mat) : mat :=
  M_covar data (map exp (np.col j qij)) (nth j qj 0) (nth j qj_in 0)
          (nth j qj_out 0) impute (Z.to_nat N) mu cov.
Let mean_of (j : nat) (mu : vec) : vec :=
  M_mean_row data (map exp (np.col j qij)) (nth j qj 0) D mu.

Lemma M_component_lengths (p : params) (j : nat) :
  length (amp (step p j)) = length (amp p) /\
  length (mean (step p j)) = length (mean p) /\
  length (covar (step p j)) = length (covar p).
Proof.
  unfold step, M_component. cbn [amp mean covar].
  rewrite !set_nth_length. repeat split.
  destruct (Nat.ltb_spec j (length (mean p))) as [Hlt | Hge].
  - rewrite M_mean_eq by exact Hlt. apply set_nth_length.
  - now rewrite M_mean_overflow by exact Hge.
Qed.

Lemma M_component_other (p : params) (j i : nat) :
  j <> i ->
  nth i (amp (step p j)) 0 = nth i (amp p) 0 /\
  nth i (mean (step p j)) [] = nth i (mean p) [] /\
  nth i (covar (step p j)) [] = nth i (covar p) [].
Proof.
  intros Hneq. unfold step, M_component. cbn [amp mean covar].
  rewrite !nth_set_nth_neq by exact Hneq. repeat split.
  destruct (Nat.ltb_spec j (length (mean p))) as [Hlt | Hge].
  - rewrite M_mean_eq by exact Hlt. now apply nth_set_nth_neq.
  - now rewrite M_mean_overflow by exact Hge.
Qed.

Lemma M_component_at (p : params) (j : nat) :
  (j < length (amp p))%nat -> (j < length (mean p))%nat ->
  (j < length (covar p))%nat ->
  nth j (amp (step p j)) 0 = amp_of j /\
  nth j (mean (step p j)) [] = mean_of j (nth j (mean p) []) /\
  nth j (covar (step p j)) [] = covar_of j (nth j (mean p) []) (nth j (covar p) []).
Proof.
  intros Ha Hm Hc. unfold step, M_component. cbn [amp mean covar].
  rewrite M_mean_eq by exact Hm.
  rewrite !nth_set_nth_eq by assumption. repeat split.
Qed.

(** The loop over the components: each component is written once, from
    the entries the store held for it on entry. *)
Lemma M_loop_spec (js : list nat) :
  NoDup js ->
  forall p : params,
    let p' := fold_left step js p in
    (length (amp p') = length (amp p) /\
     length (mean p') = length (mean p) /\
     length (covar p') = length (covar p)) /\
    (forall j, ~ In j js ->
       nth j (amp p') 0 = nth j (amp p) 0 /\
       nth j (mean p') [] = nth j (mean p) [] /\
       nth j (covar p') [] = nth j (covar p) []) /\
    (forall j, In j js ->
       (j < length (amp p))%nat -> (j < length (mean p))%nat ->
       (j < length (covar p))%nat ->
       nth j (amp p') 0 = amp_of j /\
       nth j (mean p') [] = mean_of j (nth j (mean p) []) /\
       nth j (covar p') [] = covar_of j (nth j (mean p) []) (nth j (covar p) [])).
Proof.
  induction 1 as [|a js Hnotin Hnodup IH]; intros p; cbn [fold_left].
  - split; [repeat split | split; [intros j _; repeat split | intros j []]].
  - specialize (IH (step p a)). cbv zeta in IH.
    destruct IH as [[La [Lm Lc]] [Hout Hin]].
    destruct (M_component_lengths p a) as [La1 [Lm1 Lc1]].
    split; [| split].
    + repeat split; congruence.
    + intros j Hj.
      assert (a <> j) by (intros ->; apply Hj; now left).
      assert (~ In j js) by (intros Hjs; apply Hj; now right).
      destruct (Hout j) as [Ea [Em Ec]]; [assumption |].
      destruct (M_component_other p a j) as [Ea1 [Em1 Ec1]]; [assumption |].
      repeat split; congruence.
    + intros j [-> | Hj] Ha Hm Hc.
      * destruct (Hout j Hnotin) as [Ea [Em Ec]].
        destruct (M_component_at p j Ha Hm Hc) as [Ea1 [Em1 Ec1]].
        repeat split; congruence.
      * assert (a <> j) by (intros ->; contradiction).
        destruct (M_component_other p a j) as [Ea1 [Em1 Ec1]]; [assumption |].
        destruct (Hin j Hj) as [Ea [Em Ec]]; try lia.
        rewrite Em1, Ec1 in *. repeat split; assumption.
Qed.

End MLoop.

Lemma has_shape_firstn (r c n : nat) (m : mat) :
  has_shape r c m -> has_shape (Nat.min n r) c (firstn n m).
Proof.
  intros [Hr Hc]. split.
  - now rewrite length_firstn, Hr.
  - rewrite Forall_forall in *. intros row Hin. apply Hc.
    rewrite <- (firstn_skipn n m). apply in_or_app. now left.
Qed.

Lemma has_shape_skipn (r c n : nat) (m : mat) :
  has_shape r c m -> has_shape (r - n) c (skipn n m).
Proof.
  intros [Hr Hc]. split.
  - now rewrite length_skipn, Hr.
  - rewrite Forall_forall in *. intros row Hin. apply Hc.
    rewrite <- (firstn_skipn n m). apply in_or_app. now right.
Qed.

Lemma nth_exp_logsumLogL (K N j : nat) (ll : mat) :
  has_shape K N ll -> (0 < K)%nat -> (j < N)%nat ->
  nth j (map exp (map (fun n => logsumexp (np.col n ll)) (seq 0 N))) 0 = mass j ll.
Proof.
  intros Hshape Hpos Hj. rewrite map_map.
  rewrite (nth_map_seq (fun n => exp (logsumexp (np.col n ll))) N j 0 Hj).
  apply exp_logsumexp.
  pose proof (has_shape_nonempty _ _ _ Hshape Hpos) as Hne.
  unfold np.col. destruct ll; [congruence | discriminate].
Qed.

Lemma M_covar_no_impute (data : mat) (Q_i : vec) (a b c d e : R) (N : nat)
    (mu : vec) (cov : mat) :
  M_covar data Q_i a b c 0 N mu cov = M_covar data Q_i a d e 0 N mu cov.
Proof. reflexivity. Qed.

(** [M] on well-shaped arguments returns, and component [j] of the store it
    leaves is computed from the masses of the rows, the data and the mean
    and covariance of component [j] on entry. *)
Lemma M_spec (Nrows K : nat) (data qij : mat) (p : params) (impute : nat) :
  length data = Nrows -> has_shape Nrows K qij -> (impute < Nrows)%nat ->
  length (amp p) = K -> length (mean p) = K -> length (covar p) = K ->
  exists p',
    M data qij p impute = Ok p' /\
    length (amp p') = K /\ length (mean p') = K /\ length (covar p') = K /\
    forall j, (j < K)%nat ->
      let Q_i := map exp (np.col j qij) in
      nth j (amp p') 0 = mass j qij / INR Nrows /\
      nth j (mean p') []
      = M_mean_row data Q_i (mass j qij) (np.shape1 (mean p)) (nth j (mean p) []) /\
      nth j (covar p') []
      = M_covar data Q_i (mass j qij) (mass j (rows_in impute qij))
                (mass j (rows_out impute qij)) impute (Nrows - impute)
                (nth j (mean p) []) (nth j (covar p) []).
Proof.
  intros Hdata Hq Himp Ha Hm Hc.
  assert (Hpos : (0 < Nrows)%nat) by lia.
  unfold M. rewrite (logsumLogL_eq Nrows K qij Hq Hpos). cbn [bind].
  rewrite Hdata, Ha.
  assert (HN : IZR (Z.of_nat Nrows - Z.of_nat impute + Z.of_nat impute)
               = INR Nrows).
  { rewrite INR_IZR_INZ. f_equal. lia. }
  assert (HNn : Z.to_nat (Z.of_nat Nrows - Z.of_nat impute) = (Nrows - impute)%nat)
    by lia.
  destruct (Nat.eqb_spec impute 0) as [-> | Hnz].
  - eexists. split; [reflexivity |].
    match goal with
    | |- context [fold_left (M_component _ _ ?qj ?qin ?qout _ _ _) _ p] =>
        pose proof (M_loop_spec data qij qj qin qout 0
                      (Z.of_nat Nrows - Z.of_nat 0) (np.shape1 (mean p))
                      (seq 0 K) (seq_NoDup K 0) p) as Hloop
    end.
    cbv zeta in Hloop. destruct Hloop as [[La [Lm Lc]] [_ Hin]].
    repeat split; try congruence.
    all: destruct (Hin j) as [Ea [Em Ec]]; try (apply in_seq; lia); try lia.
    all: rewrite (nth_exp_logsumLogL Nrows K j qij Hq Hpos H) in *.
    + rewrite Ea. now rewrite HN.
    + exact Em.
    + rewrite Ec, HNn. apply M_covar_no_impute.
  - assert (Hin_shape : has_shape (Nrows - impute) K (rows_in impute qij)).
    { unfold rows_in. destruct Hq as [Hr Hrows]. rewrite Hr.
      replace (Nrows - impute)%nat with (Nat.min (Nrows - impute) Nrows) at 1 by lia.
      apply has_shape_firstn. now split. }
    assert (Hout_shape : has_shape impute K (rows_out impute qij)).
    { unfold rows_out. destruct Hq as [Hr Hrows]. rewrite Hr.
      replace impute with (Nrows - (Nrows - impute))%nat at 1 by lia.
      apply has_shape_skipn. now split. }
    rewrite (logsumLogL_eq _ K _ Hin_shape) by lia.
    rewrite (logsumLogL_eq _ K _ Hout_shape) by lia.
    cbn [bind].
    eexists. split; [reflexivity |].
    match goal with
    | |- context [fold_left (M_component _ _ ?qj ?qin ?qout _ _ _) _ p] =>
        pose proof (M_loop_spec data qij qj qin qout impute
                      (Z.of_nat Nrows - Z.of_nat impute) (np.shape1 (mean p))
                      (seq 0 K) (seq_NoDup K 0) p) as Hloop
    end.
    cbv zeta in Hloop. destruct Hloop as [[La [Lm Lc]] [_ Hin]].
    repeat split; try congruence.
    all: destruct (Hin j) as [Ea [Em Ec]]; try (apply in_seq; lia); try lia.
    all: rewrite (nth_exp_logsumLogL Nrows K j qij Hq Hpos H) in *.
    + rewrite Ea. now rewrite HN.
    + exact Em.
    + rewrite Ec, HNn.
      rewrite (nth_exp_logsumLogL _ K j _ Hin_shape) by lia.
      rewrite (nth_exp_logsumLogL _ K j _ Hout_shape) by lia.
      reflexivity.
Qed.

Lemma sum_map_plus {A : Type} (f g : A -> R) (l : list A) :
  np.sum (map (fun x => f x + g x) l) = np.sum (map f l) + np.sum (map g l).
Proof.
  induction l as [|x l IH]; simpl; [lra | rewrite IH; lra].
Qed.

Lemma sum_map_div {A : Type} (c : R) (f : A -> R) (l : list A) :
  np.sum (map (fun x => f x / c) l) = np.sum (map f l) / c.
Proof.
  induction l as [|x l IH]; simpl; [lra | rewrite IH; lra].
Qed.

Lemma map_nth_seq_all (row : vec) :
  map (fun j => nth j row 0) (seq 0 (length row)) = row.
Proof.
  apply (nth_ext _ _ 0 0).
  - now rewrite length_map, length_seq.
  - intros n Hn. rewrite length_map, length_seq in Hn.
    exact (nth_map_seq (fun j => nth j row 0) (length row) n 0 Hn).
Qed.

(** Summed over the components, the masses count the rows of a normalised
    matrix. *)
Lemma sum_mass (Nrows K : nat) (qij : mat) :
  has_shape Nrows K qij -> row_normalized qij ->
  np.sum (map (fun j => mass j qij) (seq 0 K)) = INR Nrows.
Proof.
  intros [Hr Hrows] Hnorm. subst Nrows. unfold row_normalized in Hnorm.
  induction qij as [|row qij IH].
  - simpl length. simpl INR. unfold mass, np.col. cbn [map np.sum fold_right].
    induction (seq 0 K) as [|j js IHj]; simpl; [reflexivity | rewrite IHj; lra].
  - inversion Hrows as [|? ? Hrow Hrows']; subst.
    inversion Hnorm as [|? ? Hone Hnorm']; subst.
    replace (map (fun j => mass j (row :: qij)) (seq 0 (length row)))
      with (map (fun j => exp (nth j row 0) + mass j qij) (seq 0 (length row)))
      by reflexivity.
    rewrite sum_map_plus, (IH Hrows' Hnorm').
    rewrite <- (map_map (fun j => nth j row 0) exp), map_nth_seq_all, Hone.
    cbn [length]. rewrite S_INR. lra.
Qed.

(** C3: a call of [M] on well-shaped arguments, with or without imputed
    rows, whose matrix [qij] has normalised rows returns, and the weights it
    leaves in the store sum to 1. *)
Theorem M_amp_sums_to_one (Nrows K : nat) (data qij : mat) (p : params)
    (impute : nat) :
  length data = Nrows -> has_shape Nrows K qij -> (impute < Nrows)%nat ->
  length (amp p) = K -> length (mean p) = K -> length (covar p) = K ->
  row_normalized qij ->
  exists p', M data qij p impute = Ok p' /\ np.sum (amp p') = 1.
Proof.
  intros Hdata Hq Himp Ha Hm Hc Hnorm.
  destruct (M_spec Nrows K data qij p impute Hdata Hq Himp Ha Hm Hc)
    as [p' [HM [La [_ [_ Hcomp]]]]].
  exists p'. split; [exact HM |].
  assert (Hamp : amp p' = map (fun j => mass j qij / INR Nrows) (seq 0 K)).
  { apply (nth_ext _ _ 0 0).
    - now rewrite length_map, length_seq.
    - intros j Hj. rewrite La in Hj.
      rewrite (nth_map_seq (fun j => mass j qij / INR Nrows) K j 0 Hj).
      now destruct (Hcomp j Hj) as [Ea _]. }
  rewrite Hamp, sum_map_div, (sum_mass Nrows K qij Hq Hnorm).
  apply Rinv_r. apply not_0_INR. lia.
Qed.

Lemma M_amp_sums_to_one_witness :
  (exists p', M [[1]] [[0]] (mkParams [1] [[0]] [[[1]]]) 0 = Ok p'
              /\ np.sum (amp p') = 1) /\
  (exists p', M [[1]; [3]] [[0]; [0]] (mkParams [1] [[0]] [[[1]]]) 1 = Ok p'
              /\ np.sum (amp p') = 1).
Proof.
  split.
  - apply (M_amp_sums_to_one 1 1 [[1]] [[0]] (mkParams [1] [[0]] [[[1]]]) 0);
      try reflexivity; try lia.
    + split; [reflexivity | repeat constructor].
    + repeat constructor. simpl. rewrite exp_0. lra.
  - apply (M_amp_sums_to_one 2 1 [[1]; [3]] [[0]; [0]] (mkParams [1] [[0]] [[[1]]]) 1);
      try reflexivity; try lia.
    + split; [reflexivity | repeat constructor].
    + repeat constructor; simpl; rewrite exp_0; lra.
Defined.

(** *** Symmetry of the covariances *)

Lemma entry_outside (D : nat) (m : mat) (a b : nat) :
  has_shape D D m -> (D <= a)%nat \/ (D <= b)%nat -> entry m a b = 0.
Proof.
  intros [Hr Hrows] Hout. unfold entry.
  destruct (Nat.ltb_spec a D) as [Ha | Ha].
  - rewrite Forall_forall in Hrows.
    assert (Hlen : length (nth a m []) = D) by (apply Hrows, nth_In; lia).
    apply nth_overflow. lia.
  - rewrite (nth_overflow m) by lia. now destruct b.
Qed.

Lemma entry_madd (D : nat) (x y : mat) (a b : nat) :
  has_shape D D x -> has_shape D D y ->
  entry (np.madd x y) a b = entry x a b + entry y a b.
Proof.
  intros Hx Hy.
  destruct (Nat.ltb_spec a D) as [Ha | Ha]; [destruct (Nat.ltb_spec b D) as [Hb | Hb] |].
  - destruct Hx as [Hxr Hxc], Hy as [Hyr Hyc]. rewrite Forall_forall in Hxc, Hyc.
    unfold entry, np.madd.
    rewrite (nth_map2 (np.map2 Rplus) x y a [] [] []) by lia.
    apply nth_map2.
    + rewrite (Hxc (nth a x [])); [lia | apply nth_In; lia].
    + rewrite (Hyc (nth a y [])); [lia | apply nth_In; lia].
  - rewrite (entry_outside D x), (entry_outside D y) by auto.
    destruct Hx as [Hxr Hxc], Hy as [Hyr Hyc]. rewrite Forall_forall in Hxc, Hyc.
    unfold entry, np.madd.
    rewrite (nth_map2 (np.map2 Rplus) x y a [] [] []) by lia.
    rewrite nth_overflow; [lra |]. rewrite map2_length.
    rewrite (Hxc (nth a x [])); [lia | apply nth_In; lia].
  - rewrite (entry_outside D x), (entry_outside D y) by auto.
    unfold entry, np.madd. rewrite (nth_overflow (np.map2 _ x y)).
    + destruct b; simpl; lra.
    + rewrite map2_length. destruct Hx as [Hxr _]. lia.
Qed.

Lemma has_shape_madd (D : nat) (x y : mat) :
  has_shape D D x -> has_shape D D y -> has_shape D D (np.madd x y).
Proof.
  intros [Hxr Hxc] [Hyr Hyc]. unfold np.madd. split.
  - rewrite map2_length. lia.
  - unfold np.map2 at 1. apply Forall_map. apply Forall_forall.
    intros [r1 r2] Hin. cbn [fst snd]. rewrite map2_length.
    rewrite Forall_forall in Hxc, Hyc.
    rewrite (Hxc r1), (Hyc r2);
      [apply Nat.min_id | eapply in_combine_r; eauto | eapply in_combine_l; eauto].
Qed.

Lemma entry_map (f : R -> R) (m : mat) (a b : nat) :
  f 0 = 0 -> entry (map (map f) m) a b = f (entry m a b).
Proof.
  intros Hf. unfold entry.
  change (@nil R) with (map f []) at 1. rewrite map_nth.
  rewrite <- Hf at 1. apply map_nth.
Qed.

Lemma has_shape_map (f : R -> R) (r c : nat) (m : mat) :
  has_shape r c m -> has_shape r c (map (map f) m).
Proof.
  intros [Hr Hc]. split; [now rewrite length_map |].
  apply Forall_map. eapply Forall_impl; [| exact Hc].
  intros row Hrow. cbn beta in *. now rewrite length_map.
Qed.

Lemma entry_outer (u v : vec) (a b : nat) :
  entry (np.outer u v) a b = nth a u 0 * nth b v 0.
Proof.
  unfold entry, np.outer.
  destruct (Nat.ltb_spec a (length u)) as [Ha | Ha].
  - rewrite (nth_map_in _ u a [] 0) by exact Ha.
    destruct (Nat.ltb_spec b (length v)) as [Hb | Hb].
    + now rewrite (nth_map_in _ v b 0 0) by exact Hb.
    + rewrite nth_overflow by (now rewrite length_map).
      rewrite (nth_overflow v) by exact Hb. lra.
  - rewrite (nth_overflow (map _ u)) by (now rewrite length_map).
    rewrite (nth_overflow u) by exact Ha. destruct b; simpl; lra.
Qed.

Lemma has_shape_outer (u v : vec) :
  has_shape (length u) (length v) (np.outer u v).
Proof.
  unfold np.outer. split; [now rewrite length_map |].
  apply Forall_map. apply Forall_forall. intros x _. now rewrite length_map.
Qed.

Lemma symmetric_madd (D : nat) (x y : mat) :
  has_shape D D x -> has_shape D D y -> symmetric x -> symmetric y ->
  symmetric (np.madd x y).
Proof.
  intros Hx Hy Sx Sy a b. rewrite !(entry_madd D) by assumption.
  now rewrite (Sx a b), (Sy a b).
Qed.

Lemma symmetric_map (f : R -> R) (m : mat) :
  f 0 = 0 -> symmetric m -> symmetric (map (map f) m).
Proof.
  intros Hf Sm a b. rewrite !entry_map by exact Hf. now rewrite (Sm a b).
Qed.

Lemma symmetric_outer (u : vec) : symmetric (np.outer u u).
Proof. intros a b. rewrite !entry_outer. ring. Qed.

(** The scatter matrix of lines 89 to 91 is square and symmetric. *)
Lemma M_scatter_symmetric (D : nat) (data : mat) (Q_i mu : vec) (N : nat)
    (zero : mat) :
  Forall (fun row => length row = D) data -> (N <= length data)%nat ->
  length mu = D -> has_shape D D zero -> symmetric zero ->
  has_shape D D (M_scatter data Q_i mu N zero) /\
  symmetric (M_scatter data Q_i mu N zero).
Proof.
  intros Hdata HN Hmu. unfold M_scatter.
  assert (Hseq : Forall (fun i => (i < length data)%nat) (seq 0 N)).
  { apply Forall_forall. intros i Hi. apply in_seq in Hi. lia. }
  revert zero. induction (seq 0 N) as [|i rest IH]; intros zero Hz Sz;
    cbn [fold_left]; [now split |].
  inversion Hseq as [|? ? Hi Hseq']; subst.
  set (dx := np.vsub (nth i data []) mu).
  assert (Hdx : length dx = length mu).
  { unfold dx, np.vsub. rewrite map2_length.
    rewrite Forall_forall in Hdata.
    rewrite (Hdata (nth i data [])) by (apply nth_In; exact Hi). apply Nat.min_id. }
  assert (Houter : has_shape (length mu) (length mu) (np.outer dx dx)).
  { rewrite <- Hdx. apply has_shape_outer. }
  apply IH; [exact Hseq' | |].
  - apply has_shape_madd; [exact Hz |]. now apply has_shape_map.
  - apply (symmetric_madd (length mu)); [exact Hz | now apply has_shape_map | exact Sz |].
    apply symmetric_map; [lra | apply symmetric_outer].
Qed.

Lemma M_covar_symmetric (D : nat) (data : mat) (Q_i : vec) (a b c : R)
    (impute N : nat) (mu : vec) (cov : mat) :
  Forall (fun row => length row = D) data -> (N <= length data)%nat ->
  length mu = D -> has_shape D D cov -> symmetric cov ->
  symmetric (M_covar data Q_i a b c impute N mu cov).
Proof.
  intros Hdata HN Hmu Hcov Scov. unfold M_covar.
  destruct (M_scatter_symmetric D data Q_i mu N (map (map (fun _ => 0)) cov)
              Hdata HN Hmu) as [Hs Ss].
  { now apply has_shape_map. }
  { intros i j. now rewrite !entry_map. }
  destruct (Nat.eqb impute 0).
  - unfold np.mdiv. apply symmetric_map; [lra | exact Ss].
  - apply (symmetric_madd D).
    + unfold np.mdiv. now apply has_shape_map.
    + unfold np.mscale. now apply has_shape_map.
    + unfold np.mdiv. apply symmetric_map; [lra | exact Ss].
    + unfold np.mscale. apply symmetric_map; [lra | exact Scov].
Qed.

(** C8: a call of [M] on well-shaped arguments whose covariances are all
    symmetric returns, and every covariance it leaves in the store is
    symmetric, without imputation ([impute = 0]) and with it ([impute > 0],
    where the previous covariance is blended in). *)
Theorem M_covar_stays_symmetric (Nrows K D : nat) (data qij : mat) (p : params)
    (impute : nat) :
  has_shape Nrows D data -> has_shape Nrows K qij -> (impute < Nrows)%nat ->
  length (amp p) = K -> has_shape K D (mean p) -> length (covar p) = K ->
  Forall (has_shape D D) (covar p) -> Forall symmetric (covar p) ->
  exists p', M data qij p impute = Ok p' /\ Forall symmetric (covar p').
Proof.
  intros [Hdr Hdc] Hq Himp Ha [Hmr Hmc] Hc Hshapes Hsym.
  destruct (M_spec Nrows K data qij p impute Hdr Hq Himp Ha Hmr Hc)
    as [p' [HM [_ [_ [Lc Hcomp]]]]].
  exists p'. split; [exact HM |].
  apply Forall_forall. intros cov Hin.
  destruct (In_nth _ _ [] Hin) as [j [Hj Hnth]]. rewrite Lc in Hj.
  destruct (Hcomp j Hj) as [_ [_ Ecov]]. rewrite <- Hnth, Ecov.
  rewrite Forall_forall in Hmc, Hshapes, Hsym.
  apply (M_covar_symmetric D).
  - exact Hdc.
  - lia.
  - apply Hmc, nth_In. lia.
  - apply Hshapes, nth_In. lia.
  - apply Hsym, nth_In. lia.
Qed.

Lemma symmetric_2x2 (a b c : R) : symmetric [[a; b]; [b; c]].
Proof. intros [|[|[|i]]] [|[|[|j]]]; reflexivity. Qed.

Lemma M_covar_stays_symmetric_witness :
  (exists p',
     M [[1; 2]; [3; 4]] [[0]; [0]] (mkParams [1] [[0; 0]] [[[2; 1]; [1; 2]]]) 0
     = Ok p' /\ Forall symmetric (covar p')) /\
  (exists p',
     M [[1; 2]; [3; 4]] [[0]; [0]] (mkParams [1] [[0; 0]] [[[2; 1]; [1; 2]]]) 1
     = Ok p' /\ Forall symmetric (covar p')).
Proof.
  split.
  - apply (M_covar_stays_symmetric 2 1 2 [[1; 2]; [3; 4]] [[0]; [0]]
             (mkParams [1] [[0; 0]] [[[2; 1]; [1; 2]]]) 0).
    + split; [reflexivity | repeat constructor].
    + split; [reflexivity | repeat constructor].
    + lia.
    + reflexivity.
    + split; [reflexivity | repeat constructor].
    + reflexivity.
    + constructor; [split; [reflexivity | repeat constructor] | constructor].
    + constructor; [apply symmetric_2x2 | constructor].
  - apply (M_covar_stays_symmetric 2 1 2 [[1; 2]; [3; 4]] [[0]; [0]]
             (mkParams [1] [[0; 0]] [[[2; 1]; [1; 2]]]) 1).
    + split; [reflexivity | repeat constructor].
    + split; [reflexivity | repeat constructor].
    + lia.
    + reflexivity.
    + split; [reflexivity | repeat constructor].
    + reflexivity.
    + constructor; [split; [reflexivity | repeat constructor] | constructor].
    + constructor; [apply symmetric_2x2 | constructor].
Defined.

(** *** The order of the updates *)

(** C2, as the code has it: a call of [M] on well-shaped arguments returns;
    the mean it leaves for component [j] is
    [sum_i data[i,d] * exp(qij[i,j]) / qj_j] over all the rows, and it is
    written after the covariance: the covariance it leaves for [j] is computed
    from the mean the store held for [j] on entry. *)
Theorem M_mean_after_covar (Nrows K D : nat) (data qij : mat) (p : params)
    (impute : nat) :
  length data = Nrows -> has_shape Nrows K qij -> (impute < Nrows)%nat ->
  length (amp p) = K -> has_shape K D (mean p) -> length (covar p) = K ->
  exists p',
    M data qij p impute = Ok p' /\
    forall j, (j < K)%nat ->
      let Q_i := map exp (np.col j qij) in
      (forall d, (d < D)%nat ->
         nth d (nth j (mean p') []) 0
         = np.sum (np.map2 Rmult (np.col d data) Q_i) / mass j qij) /\
      nth j (covar p') []
      = M_covar data Q_i (mass j qij) (mass j (rows_in impute qij))
                (mass j (rows_out impute qij)) impute (Nrows - impute)
                (nth j (mean p) []) (nth j (covar p) []).
Proof.
  intros Hdata Hq Himp Ha [Hmr Hmc] Hc.
  destruct (M_spec Nrows K data qij p impute Hdata Hq Himp Ha Hmr Hc)
    as [p' [HM [_ [_ [_ Hcomp]]]]].
  exists p'. split; [exact HM |].
  intros j Hj Q_i. destruct (Hcomp j Hj) as [_ [Emean Ecov]].
  split; [| exact Ecov].
  intros d Hd. rewrite Emean.
  rewrite Forall_forall in Hmc.
  assert (Hrow : length (nth j (mean p) []) = D) by (apply Hmc, nth_In; lia).
  assert (HD : np.shape1 (mean p) = D).
  { unfold np.shape1. destruct (mean p) as [|row rest]; [simpl in Hmr; lia |].
    apply Hmc. now left. }
  rewrite HD. apply M_mean_row_nth; lia.
Qed.

Lemma M_mean_after_covar_witness :
  exists p',
    M [[1; 2]; [3; 4]] [[0]; [0]] (mkParams [1] [[0; 0]] [[[2; 1]; [1; 2]]]) 1
    = Ok p' /\
    forall j, (j < 1)%nat ->
      let Q_i := map exp (np.col j [[0]; [0]]) in
      (forall d, (d < 2)%nat ->
         nth d (nth j (mean p') []) 0
         = np.sum (np.map2 Rmult (np.col d [[1; 2]; [3; 4]]) Q_i)
           / mass j [[0]; [0]]) /\
      nth j (covar p') []
      = M_covar [[1; 2]; [3; 4]] Q_i (mass j [[0]; [0]])
                (mass j (rows_in 1 [[0]; [0]])) (mass j (rows_out 1 [[0]; [0]]))
                1 (2 - 1) (nth j [[0; 0]] []) (nth j [[[2; 1]; [1; 2]]] []).
Proof.
  apply (M_mean_after_covar 2 1 2 [[1; 2]; [3; 4]] [[0]; [0]]
           (mkParams [1] [[0; 0]] [[[2; 1]; [1; 2]]]) 1);
    try reflexivity; try lia;
    split; try reflexivity; repeat constructor.
Defined.

(** C2, as the claim words it, fails: on one data point [1], with the mean 0
    in the store, [M] leaves the mean 1 and the covariance 1, the squared
    distance of the point to the mean on entry; centred on the updated mean
    the covariance would be 0. *)
Lemma M_covar_not_on_updated_mean :
  let p := mkParams [1] [[0]] [[[1]]] in
  exists p',
    M [[1]] [[0]] p 0 = Ok p' /\
    mean p' = [[1]] /\ covar p' = [[[1]]] /\
    nth 0 (covar p') []
    <> M_covar [[1]] (map exp (np.col 0 [[0]])) (mass 0 [[0]])
               (mass 0 (rows_in 0 [[0]])) (mass 0 (rows_out 0 [[0]])) 0 1
               (nth 0 (mean p') []) (nth 0 (covar p) []).
Proof.
  intros p. eexists. split.
  - unfold M. rewrite (logsumLogL_eq 1 1 [[0]]);
      [| split; [reflexivity | repeat constructor] | lia].
    cbn [bind Nat.eqb amp length seq map fold_left p]. reflexivity.
  - unfold M_component, M_covar, M_scatter, M_mean, np.set_entry, np.mdiv, np.madd,
      np.mscale, np.outer, np.vsub, np.map2, np.col, np.shape1, logsumexp, mass.
    simpl. rewrite !exp_0, !Rplus_0_r, ln_1, exp_0.
    split; [| split].
    + repeat f_equal. lra.
    + repeat f_equal. lra.
    + intros H. injection H as H. lra.
Qed.

(** ** E *)

Lemma inv_1x1 (a : R) : a <> 0 -> np.linalg.inv [[a]] = Ok [[1 / a]].
Proof.
  intros Ha. unfold np.linalg.inv. cbn [np.linalg.square forallb length Nat.eqb andb].
  assert (Hdet : np.linalg.det [[a]] = a).
  { unfold np.linalg.det. simpl. lra. }
  rewrite Hdet. destruct (Req_dec_T a 0) as [H0 | _]; [contradiction |].
  simpl. repeat f_equal. unfold Rdiv. lra.
Qed.

Lemma inv_singular_1x1 : np.linalg.inv [[0]] = Raise LinAlgError.
Proof.
  unfold np.linalg.inv. cbn [np.linalg.square forallb length Nat.eqb andb].
  assert (Hdet : np.linalg.det [[0]] = 0).
  { unfold np.linalg.det. simpl. lra. }
  rewrite Hdet. destruct (Req_dec_T 0 0) as [_ | H0]; [reflexivity | contradiction].
Qed.

Lemma col_transpose (N K n : nat) (qij : mat) :
  has_shape N K qij -> (n < N)%nat ->
  np.col n (np.transpose K qij) = nth n qij [].
Proof.
  intros [Hr Hc] Hn. unfold np.transpose, np.col at 1. rewrite map_map.
  rewrite Forall_forall in Hc.
  assert (Hrow : length (nth n qij []) = K) by (apply Hc, nth_In; lia).
  etransitivity; [| apply (map_nth_seq_all (nth n qij []))]. rewrite Hrow.
  apply map_ext. intros j. unfold np.col.
  apply (nth_map_in (fun row : list R => nth j row 0) qij n 0 []). lia.
Qed.

Lemma has_shape_transpose (N K : nat) (qij : mat) :
  has_shape N K qij -> has_shape K N (np.transpose K qij).
Proof.
  intros [Hr Hc]. split; [apply transpose_length |].
  unfold np.transpose. apply Forall_map. apply Forall_forall. intros j _.
  now rewrite col_length.
Qed.

(** The log-sum that [E] subtracts is the log-sum of each row of [qij] as
    the matrix stands when it is taken. *)
Lemma logsumLogL_transpose (N K : nat) (qij : mat) :
  has_shape N K qij -> (0 < K)%nat ->
  logsumLogL (np.transpose K qij) = Ok (map logsumexp qij).
Proof.
  intros Hq HK.
  rewrite (logsumLogL_eq K N _ (has_shape_transpose N K qij Hq) HK). f_equal.
  destruct Hq as [Hr Hc].
  apply (nth_ext _ _ 0 0).
  - now rewrite !length_map, length_seq.
  - intros n Hn. rewrite length_map, length_seq in Hn.
    rewrite (nth_map_seq (fun n => logsumexp (np.col n (np.transpose K qij))) N n 0 Hn).
    rewrite (nth_map_in logsumexp qij n 0 []) by lia.
    now rewrite (col_transpose N K n qij (conj Hr Hc) Hn).
Qed.

Lemma E_normalize_one_row_two (a b : R) :
  E_normalize 2 [0; 1]%nat [[a; b]]
  = Ok [[a - logsumexp [a; b]; b - logsumexp [a - logsumexp [a; b]; b]]].
Proof.
  cbn [E_normalize].
  rewrite (logsumLogL_transpose 1 2 [[a; b]]);
    [| split; [reflexivity | repeat constructor] | lia].
  cbn [bind map]. unfold np.set_col, np.vsub, np.col, np.map2.
  cbn [map nth combine fst snd np.set_nth].
  rewrite (logsumLogL_transpose 1 2);
    [| split; [reflexivity | repeat constructor] | lia].
  reflexivity.
Qed.

Lemma E_fill_example :
  E_fill [[0]] [1 / 2; 1 / 2] [[0]; [0]] [[[1]]; [[1]]] [0; 1]%nat (np.empty 1 2)
  = Ok [[ln (1 / 2) - ln (2 * PI) / 2; ln (1 / 2) - ln (2 * PI) / 2]].
Proof.
  cbn [E_fill]. unfold E_column. cbn [nth]. rewrite (inv_1x1 1) by lra.
  cbn [bind].
  unfold np.einsum_rows_cols, np.dot, np.transpose, np.sub_rows, np.vsub, np.map2,
    np.col, np.shape1, np.set_col, np.empty, np.linalg.det.
  simpl. unfold np.map2. simpl.
  replace (2 * PI * 1 * (1 * 1 * 1 + 0)) with (2 * PI) by lra.
  replace (((0 - 0) * (1 / 1 * (0 - 0) + 0) + 0) / 2) with 0 by lra.
  rewrite Rminus_0_r. reflexivity.
Qed.

Lemma exp_minus (a b : R) : exp (a - b) = exp a / exp b.
Proof. unfold Rminus, Rdiv. now rewrite exp_plus, exp_Ropp. Qed.

(** C1 fails on the code: with two equal components, weights 1/2, unit
    covariances and the single point 0, [E] returns a row whose exponentials
    do not sum to 1. The second loop of [E] takes the log-sum afresh for each
    column, after the columns before it have already been normalised. *)
Theorem E_rows_not_normalized :
  exists qij,
    E [[0]] [1 / 2; 1 / 2] [[0]; [0]] [[[1]]; [[1]]] = Ok qij /\
    ~ row_normalized qij.
Proof.
  eexists. split.
  - unfold E. cbn [length seq]. rewrite E_fill_example. cbn [bind].
    apply E_normalize_one_row_two.
  - intros Hnorm. inversion Hnorm as [|row rest Hsum _]; subst. clear Hnorm.
    cbn [map np.sum fold_right] in Hsum.
    set (v := ln (1 / 2) - ln (2 * PI) / 2) in *.
    rewrite !exp_minus in Hsum.
    rewrite !exp_logsumexp in Hsum by discriminate.
    cbn [map np.sum fold_right] in Hsum. rewrite exp_minus in Hsum.
    rewrite exp_logsumexp in Hsum by discriminate.
    cbn [map np.sum fold_right] in Hsum.
    pose proof (exp_pos v) as Hs. set (s := exp v) in *.
    assert (Hhalf : s / (s + (s + 0)) = 1 / 2) by (field; lra).
    rewrite Hhalf in Hsum.
    assert (Hs_half : s = 1 / 2).
    { assert (Hd : s = s / (1 / 2 + (s + 0)) * (1 / 2 + (s + 0))) by (field; lra).
      nra. }
    assert (Hv : v = ln (1 / 2)).
    { rewrite <- Hs_half. unfold s. now rewrite ln_exp. }
    assert (Hln : ln (2 * PI) = ln 1) by (rewrite ln_1; unfold v in Hv; lra).
    pose proof PI2_3_2 as Hpi.
    apply ln_inv in Hln; lra.
Qed.

(** ** draw *)

Lemma set_rows_length (start : nat) (rows m : mat) :
  length (np.set_rows start rows m) = length m.
Proof.
  revert start m. induction rows as [|r rows IH]; intros start m; cbn [np.set_rows].
  - reflexivity.
  - now rewrite IH, set_nth_length.
Qed.

Section Draw.

Context `{RandomSource}.

Lemma draw_by_component_length (mean : mat) (covar : list mat) (ind : list nat)
    (samples : mat) (g : rng) :
  length (fst (fst (draw_by_component mean covar ind samples g))) = length samples.
Proof.
  unfold draw_by_component.
  generalize (np.boolean_index (seq 0 (length ind))
                (map (fun n => Nat.ltb 0 n) (np.bincount ind))) as components.
  generalize O as counter. revert samples g.
  intros samples g counter components. revert samples g counter.
  induction components as [|c cs IH]; intros samples g counter; cbn [fold_left].
  - reflexivity.
  - destruct (multivariate_normal (nth c mean []) (nth c covar [])
                (count_occ Nat.eq_dec ind c) g) as [batch g'].
    rewrite IH. apply set_rows_length.
Qed.

Lemma draw_one_by_one_length (mean : mat) (covar : list mat) (ind : list nat)
    (samples : mat) (g : rng) :
  length (fst (fst (draw_one_by_one mean covar ind samples g))) = length samples.
Proof.
  unfold draw_one_by_one.
  change (length samples) with (length (fst (fst (samples, O, g)))).
  generalize (samples, O, g) as st.
  induction ind as [|i ind IH]; intros [[s counter] g0]; cbn [fold_left].
  - reflexivity.
  - destruct (multivariate_normal (nth i mean []) (nth i covar []) 1 g0)
      as [batch g'].
    rewrite IH. cbn [fst]. apply set_nth_length.
Qed.

Lemma empty_length (n k : nat) : length (np.empty n k) = n.
Proof. unfold np.empty. apply repeat_length. Qed.

(** The store a call of [draw_batch] leaves: [amp] divided by its sum,
    [mean] and [covar] as they were. *)
Lemma draw_batch_store (p : params) (size : nat) (g : rng) :
  snd (fst (draw_batch p size g))
  = mkParams (normalized (amp p)) (mean p) (covar p).
Proof.
  unfold draw_batch. cbn [amp mean covar].
  destruct (np_random_choice _ size _ g) as [[ind | e] g1]; [| reflexivity].
  destruct (Nat.ltb _ size).
  - destruct (draw_by_component _ _ ind _ g1) as [[samples counter] g2].
    reflexivity.
  - destruct (draw_one_by_one _ _ ind _ g1) as [[samples counter] g2].
    reflexivity.
Qed.

Lemma draw_batch_length (p : params) (size : nat) (g : rng) (samples : mat)
    (p1 : params) (g1 : rng) :
  draw_batch p size g = (Ok samples, p1, g1) -> length samples = size.
Proof.
  unfold draw_batch. cbn [amp mean covar].
  destruct (np_random_choice _ size _ g) as [[ind | e] g2]; [| discriminate].
  destruct (Nat.ltb _ size).
  - pose proof (draw_by_component_length (mean p) (covar p) ind
                  (np.empty size (np.shape1 (mean p))) g2) as Hlen.
    destruct (draw_by_component _ _ ind _ g2) as [[s counter] g3].
    intros Heq. injection Heq as <- _ _. cbn [fst] in Hlen.
    now rewrite Hlen, empty_length.
  - pose proof (draw_one_by_one_length (mean p) (covar p) ind
                  (np.empty size (np.shape1 (mean p))) g2) as Hlen.
    destruct (draw_one_by_one _ _ ind _ g2) as [[s counter] g3].
    intros Heq. injection Heq as <- _ _. cbn [fst] in Hlen.
    now rewrite Hlen, empty_length.
Qed.

End Draw.

Lemma sum_normalized (a : vec) : np.sum a <> 0 -> np.sum (normalized a) = 1.
Proof.
  intros Hsum. unfold normalized.
  rewrite (sum_map_div (np.sum a) (fun x => x)), map_id. now apply Rinv_r.
Qed.

Lemma valid_probabilities_true (K : nat) (p : vec) :
  valid_probabilities K p = true <->
  (0 < K)%nat /\ length p = K /\ Forall (fun x => 0 <= x) p /\ np.sum p = 1.
Proof.
  unfold valid_probabilities. rewrite !andb_true_iff.
  rewrite Nat.ltb_lt, Nat.eqb_eq, forallb_forall, Forall_forall.
  unfold np.Rleb, np.Reqb.
  destruct (Req_dec_T (np.sum p) 1) as [Heq | Hneq].
  - split.
    + intros [[[HK Hlen] Hall] _]. repeat split; auto.
      intros x Hx. specialize (Hall x Hx).
      destruct (Rle_dec 0 x); [assumption | discriminate].
    + intros [HK [Hlen [Hall _]]]. repeat split; auto.
      intros x Hx. specialize (Hall x Hx).
      destruct (Rle_dec 0 x); [reflexivity | contradiction].
  - split; [intros [_ Hf]; discriminate | intros [_ [_ [_ Hs]]]; contradiction].
Qed.

Lemma valid_amp_nonempty (a : vec) : valid_amp a -> (0 < length a)%nat.
Proof.
  intros [_ Hsum]. destruct a; [simpl in Hsum; lra | simpl; lia].
Qed.

Lemma valid_amp_normalized (a : vec) :
  valid_amp a -> valid_probabilities (length (normalized a)) (normalized a) = true.
Proof.
  intros Hvalid. pose proof (valid_amp_nonempty a Hvalid) as Hlen.
  destruct Hvalid as [Hall Hsum].
  apply valid_probabilities_true.
  split; [unfold normalized; now rewrite length_map |].
  split; [reflexivity |]. split.
  - unfold normalized. apply Forall_map. eapply Forall_impl; [| exact Hall].
    intros x Hx. cbn beta in *. apply Rmult_le_pos; [exact Hx |].
    left. now apply Rinv_0_lt_compat.
  - apply sum_normalized. lra.
Qed.

Lemma normalized_valid (a : vec) : valid_amp a -> valid_amp (normalized a).
Proof.
  intros Hvalid. pose proof (valid_amp_normalized a Hvalid) as Hp.
  apply valid_probabilities_true in Hp. destruct Hp as [_ [_ [Hall Hsum]]].
  split; [exact Hall | lra].
Qed.

Lemma normalized_fixed (a : vec) : np.sum a = 1 -> normalized a = a.
Proof.
  intros Hsum. unfold normalized. rewrite Hsum.
  rewrite <- (map_id a) at 2. apply map_ext. intros x. lra.
Qed.

Lemma mask_of_rowwise (pred : list R -> bool) (invert : bool) (samples : mat) :
  mask_of (rowwise pred) invert samples = map (accepted pred invert) samples.
Proof.
  unfold mask_of, rowwise, accepted. destruct invert; [| reflexivity].
  now rewrite map_map.
Qed.

Lemma count_true_map {A : Type} (f : A -> bool) (l : list A) :
  np.count_true (map f l) = length (filter f l).
Proof.
  unfold np.count_true. induction l as [|x l IH]; cbn [map filter]; auto.
  destruct (f x); cbn [length]; auto.
Qed.

Lemma boolean_index_map {A : Type} (f : A -> bool) (l : list A) :
  np.boolean_index l (map f l) = filter f l.
Proof.
  unfold np.boolean_index. induction l as [|x l IH]; cbn [map combine filter snd]; auto.
  destruct (f x); cbn [map fst]; now rewrite IH.
Qed.

Lemma count_true_le (mask : list bool) : (np.count_true mask <= length mask)%nat.
Proof. unfold np.count_true. apply filter_length_le. Qed.

Lemma boolean_index_length {A : Type} (l : list A) (mask : list bool) :
  length mask = length l -> length (np.boolean_index l mask) = np.count_true mask.
Proof.
  unfold np.boolean_index, np.count_true. rewrite length_map.
  revert mask. induction l as [|x l IH]; intros [|b mask] Hlen;
    simpl in *; try lia; auto.
  destruct b; simpl; rewrite IH by lia; reflexivity.
Qed.

Lemma filter_all {A : Type} (f : A -> bool) (l : list A) :
  length (filter f l) = length l -> Forall (fun x => f x = true) l.
Proof.
  induction l as [|x l IH]; cbn [filter length]; intros Hlen; [constructor |].
  pose proof (filter_length_le f l) as Hle.
  destruct (f x) eqn:Hfx; cbn [length] in Hlen; [| lia].
  constructor; [exact Hfx | apply IH; lia].
Qed.

Lemma filter_accepts {A : Type} (f : A -> bool) (l : list A) :
  Forall (fun x => f x = true) (filter f l).
Proof.
  apply Forall_forall. intros x Hx. now apply filter_In in Hx.
Qed.

Lemma filter_nonempty {A : Type} (f : A -> bool) (l : list A) :
  existsb f l = true -> (0 < length (filter f l))%nat.
Proof.
  induction l as [|x l IH]; cbn [existsb filter]; [discriminate |].
  destruct (f x); cbn [orb length]; [lia | exact IH].
Qed.

(** A predicate that accepts no sample leaves no flag set. *)
Lemma rejecting_mask (pred : list R -> bool) (invert : bool) (samples : mat) :
  (forall x, accepted pred invert x = false) ->
  np.count_true (mask_of (rowwise pred) invert samples) = O.
Proof.
  intros Hreject. rewrite mask_of_rowwise, count_true_map.
  induction samples as [|x samples IH]; [reflexivity |].
  cbn [filter]. now rewrite Hreject.
Qed.

Section DrawProperties.

Context `{RandomSource}.

Lemma draw_batch_valid (p : params) (size : nat) (g : rng) :
  valid_amp (amp p) ->
  exists samples g1,
    draw_batch p size g
    = (Ok samples, mkParams (normalized (amp p)) (mean p) (covar p), g1).
Proof.
  intros Hvalid. pose proof (draw_batch_store p size g) as Hstore.
  unfold draw_batch in *. cbn [amp mean covar] in *.
  unfold np_random_choice in *.
  change (map (fun a => a / np.sum (amp p)) (amp p)) with (normalized (amp p)) in *.
  rewrite (valid_amp_normalized (amp p) Hvalid) in *.
  destruct (choice _ size _ g) as [ind g1].
  destruct (Nat.ltb _ size).
  - destruct (draw_by_component _ _ ind _ g1) as [[samples counter] g2]. eauto.
  - destruct (draw_one_by_one _ _ ind _ g1) as [[samples counter] g2]. eauto.
Qed.

Lemma draw_select_rowwise (pred : list R -> bool) (invert : bool) (size : nat)
    (samples : mat) :
  length samples = size ->
  let kept := filter (accepted pred invert) samples in
  draw_select (Some (rowwise pred)) invert size samples
  = if Nat.eqb (length kept) size then Done samples
    else Recurse kept (size - length kept).
Proof.
  intros Hlen kept. unfold draw_select.
  change (if invert then map negb (rowwise pred samples) else rowwise pred samples)
    with (mask_of (rowwise pred) invert samples).
  rewrite mask_of_rowwise, count_true_map, boolean_index_map. reflexivity.
Qed.

(** Whatever [draw] returns is a batch of [size] samples, all accepted. *)
Lemma draw_sound (pred : list R -> bool) (invert : bool) (fuel : nat) :
  forall (p : params) (size : nat) (g : rng) r p' g',
    valid_amp (amp p) ->
    draw fuel p size (Some (rowwise pred)) invert g = Some (r, p', g') ->
    exists samples,
      r = Ok samples /\ length samples = size /\
      Forall (fun x => accepted pred invert x = true) samples.
Proof.
  induction fuel as [|fuel IH]; intros p size g r p' g' Hvalid Hdraw;
    cbn [draw] in Hdraw; [discriminate |].
  destruct (draw_batch_valid p size g Hvalid) as [samples [g1 Hbatch]].
  rewrite Hbatch in Hdraw.
  pose proof (draw_batch_length p size g samples _ g1 Hbatch) as Hlen.
  rewrite (draw_select_rowwise pred invert size samples Hlen) in Hdraw.
  cbv zeta in Hdraw.
  destruct (Nat.eqb_spec (length (filter (accepted pred invert) samples)) size)
    as [Hall | Hsome].
  - injection Hdraw as <- _ _. exists samples. repeat split; auto.
    apply filter_all. congruence.
  - destruct (draw fuel _ _ _ invert g1) as [[[r2 p2] g2] |] eqn:Hrec;
      [| discriminate].
    apply IH in Hrec; [| now apply normalized_valid].
    destruct Hrec as [ssamples [-> [Hslen Hsacc]]].
    injection Hdraw as <- _ _. eexists. split; [reflexivity |].
    pose proof (filter_length_le (accepted pred invert) samples) as Hle.
    split.
    + rewrite length_app, Hslen. lia.
    + apply Forall_app. split; [apply filter_accepts | exact Hsacc].
Qed.

(** Without a callback the first call returns its batch. *)
Lemma draw_no_callback (fuel : nat) (p : params) (size : nat) (invert : bool)
    (g : rng) :
  draw (S fuel) p size None invert g
  = Some (draw_batch p size g).
Proof.
  cbn [draw]. destruct (draw_batch p size g) as [[[samples | e] p1] g1]; reflexivity.
Qed.

(** When every batch holds an accepted sample, [size] recursive calls are
    enough. *)
Lemma draw_productive_returns (pred : list R -> bool) (invert : bool) :
  productive pred invert ->
  forall (fuel size : nat) (p : params) (g : rng),
    (size < fuel)%nat -> valid_amp (amp p) ->
    exists samples p' g',
      draw fuel p size (Some (rowwise pred)) invert g = Some (Ok samples, p', g').
Proof.
  intros Hprod. induction fuel as [|fuel IH]; intros size p g Hfuel Hvalid; [lia |].
  cbn [draw].
  destruct (draw_batch_valid p size g Hvalid) as [samples [g1 Hbatch]].
  rewrite Hbatch.
  pose proof (draw_batch_length p size g samples _ g1 Hbatch) as Hlen.
  rewrite (draw_select_rowwise pred invert size samples Hlen). cbv zeta.
  destruct (Nat.eqb_spec (length (filter (accepted pred invert) samples)) size)
    as [Hall | Hsome]; [eauto |].
  assert (Hpos : (0 < size)%nat).
  { destruct size; [| lia]. destruct samples; [| discriminate]. now simpl in Hsome. }
  pose proof (filter_nonempty _ _ (Hprod p size g samples _ g1 Hpos Hbatch)) as Hin.
  destruct (IH (size - length (filter (accepted pred invert) samples))%nat
               (mkParams (normalized (amp p)) (mean p) (covar p)) g1)
    as [ssamples [p2 [g2 Hrec]]]; [lia | now apply normalized_valid |].
  rewrite Hrec. eauto.
Qed.

(** A predicate that accepts every sample is productive. *)
Lemma accept_all_productive (invert : bool) :
  productive (fun _ => negb invert) invert.
Proof.
  intros p size g samples p1 g1 Hpos Hbatch.
  apply draw_batch_length in Hbatch.
  destruct samples as [|x samples]; [simpl in Hbatch; lia |].
  cbn [existsb]. unfold accepted. now destruct invert.
Qed.

(** When a batch never holds an accepted sample, [draw] does not return. *)
Lemma draw_rejecting_diverges (f : callback) (invert : bool) :
  (forall samples, np.count_true (mask_of f invert samples) = O) ->
  forall (fuel size : nat) (p : params) (g : rng),
    (0 < size)%nat -> valid_amp (amp p) ->
    draw fuel p size (Some f) invert g = None.
Proof.
  intros Hreject. induction fuel as [|fuel IH]; intros size p g Hpos Hvalid;
    cbn [draw]; [reflexivity |].
  destruct (draw_batch_valid p size g Hvalid) as [samples [g1 Hbatch]].
  rewrite Hbatch. unfold draw_select.
  change (if invert then map negb (f samples) else f samples)
    with (mask_of f invert samples).
  rewrite Hreject.
  destruct (Nat.eqb_spec 0 size) as [Heq | _]; [lia |].
  rewrite Nat.sub_0_r.
  rewrite IH; [reflexivity | exact Hpos | now apply normalized_valid].
Qed.

(** The store [draw] leaves: [mean] and [covar] as they were, [amp] divided
    by its sum. *)
Lemma draw_store (sel_callback : option callback) (invert : bool) (fuel : nat) :
  forall (p : params) (size : nat) (g : rng) r p' g',
    draw fuel p size sel_callback invert g = Some (r, p', g') ->
    p' = mkParams (normalized (amp p)) (mean p) (covar p).
Proof.
  induction fuel as [|fuel IH]; intros p size g r p' g' Hdraw;
    cbn [draw] in Hdraw; [discriminate |].
  pose proof (draw_batch_store p size g) as Hstore.
  destruct (draw_batch p size g) as [[[samples | e] p1] g1] eqn:Hbatch;
    cbn [fst snd] in Hstore; subst p1.
  - destruct (draw_select sel_callback invert size samples) as [s | kept deficit].
    + now injection Hdraw as _ <- _.
    + assert (Hsum : np.sum (normalized (amp p)) = 1).
      { unfold draw_batch, np_random_choice in Hbatch. cbn [amp mean covar] in Hbatch.
        change (map (fun a => a / np.sum (amp p)) (amp p))
          with (normalized (amp p)) in Hbatch.
        destruct (valid_probabilities _ (normalized (amp p))) eqn:Hv.
        - now apply valid_probabilities_true in Hv.
        - discriminate. }
      destruct (draw fuel _ deficit sel_callback invert g1)
        as [[[r2 p2] g2] |] eqn:Hrec; [| discriminate].
      apply IH in Hrec. cbn [amp mean covar] in Hrec.
      rewrite (normalized_fixed _ Hsum) in Hrec.
      destruct r2; injection Hdraw as _ <- _; exact Hrec.
  - now injection Hdraw as _ <- _.
Qed.

End DrawProperties.

(** C5, as the code has it: for valid weights a call of [draw] never raises
    and never returns a batch of another size: whatever it returns is
    exactly [size] samples, every one of which passes the predicate, or its
    inversion when [invert_callback] is set. Not every call returns: without
    a predicate the first call does; with one, the call returns within
    [size] recursive calls when every batch holds an accepted sample, and it
    returns at no depth when the predicate accepts no sample and
    [size > 0]. *)
Theorem draw_returns_size_accepted `{RandomSource} (p : params) (size : nat)
    (pred : option (list R -> bool)) (invert : bool) (g : rng) :
  valid_amp (amp p) ->
  let sel_callback := option_map rowwise pred in
  (forall fuel r p' g',
     draw fuel p size sel_callback invert g = Some (r, p', g') ->
     exists samples,
       r = Ok samples /\ length samples = size /\
       forall f, pred = Some f ->
                 Forall (fun x => accepted f invert x = true) samples) /\
  (pred = None ->
   forall fuel, exists samples p' g',
     draw (S fuel) p size sel_callback invert g = Some (Ok samples, p', g')) /\
  (forall f, pred = Some f -> productive f invert ->
   exists samples p' g',
     draw (S size) p size sel_callback invert g = Some (Ok samples, p', g')) /\
  (forall f, pred = Some f -> (forall x, accepted f invert x = false) ->
   (0 < size)%nat ->
   forall fuel, draw fuel p size sel_callback invert g = None).
Proof.
  intros Hvalid sel_callback. split; [| split; [| split]].
  - intros fuel r p' g' Hdraw. destruct pred as [f |]; cbn in sel_callback.
    + destruct (draw_sound f invert fuel p size g r p' g' Hvalid Hdraw)
        as [samples [Hr [Hlen Hacc]]].
      exists samples. repeat split; auto. intros f' Hf'. now injection Hf' as <-.
    + destruct fuel as [|fuel]; [discriminate |].
      unfold sel_callback in Hdraw. rewrite draw_no_callback in Hdraw.
      destruct (draw_batch_valid p size g Hvalid) as [samples [g1 Hbatch]].
      rewrite Hbatch in Hdraw. injection Hdraw as <- _ _.
      exists samples. repeat split; [| discriminate].
      exact (draw_batch_length p size g samples _ g1 Hbatch).
  - intros -> fuel. unfold sel_callback. cbn [option_map].
    rewrite draw_no_callback.
    destruct (draw_batch_valid p size g Hvalid) as [samples [g1 Hbatch]].
    rewrite Hbatch. eauto.
  - intros f -> Hprod. unfold sel_callback. cbn [option_map].
    apply draw_productive_returns; auto.
  - intros f -> Hreject Hpos fuel. unfold sel_callback. cbn [option_map].
    apply draw_rejecting_diverges; auto.
    intros samples. now apply rejecting_mask.
Qed.

(** C6, as the code has it: whenever [draw] returns, or raises, [mean] and
    [covar] hold what they held before the call and [amp] holds
    [amp / amp.sum()]: the weights are changed unless they summed to 1. *)
Theorem draw_frame `{RandomSource} (fuel : nat) (p : params) (size : nat)
    (sel_callback : option callback) (invert : bool) (g : rng) :
  match draw fuel p size sel_callback invert g with
  | Some (_, p', _) =>
      mean p' = mean p /\ covar p' = covar p /\
      amp p' = normalized (amp p) /\
      (np.sum (amp p) = 1 -> amp p' = amp p)
  | None => True
  end.
Proof.
  destruct (draw fuel p size sel_callback invert g) as [[[r p'] g'] |] eqn:Hdraw;
    [| exact Logic.I].
  apply draw_store in Hdraw. subst p'. cbn [amp mean covar].
  repeat split. apply normalized_fixed.
Qed.

(** C9, as the code has it: with a callback that returns one flag per
    sample, a recursive call of [draw] is made with the deficit
    [size - size_in]; the deficit is at least 1 and at most [size], and it is
    smaller than [size] exactly when the batch held an accepted sample, so a
    batch with none recurses on the same size. When every batch holds an
    accepted sample the depth is at most [size]; when the callback accepts
    nothing and [size > 0] no depth is enough. *)
Theorem draw_deficit `{RandomSource} (p : params) (size : nat) (f : callback)
    (invert : bool) (g : rng) :
  valid_amp (amp p) -> (forall samples, length (f samples) = length samples) ->
  (forall samples kept deficit,
     length samples = size ->
     draw_select (Some f) invert size samples = Recurse kept deficit ->
     let size_in := np.count_true (mask_of f invert samples) in
     deficit = (size - size_in)%nat /\ length kept = size_in /\
     (1 <= deficit <= size)%nat /\
     ((deficit < size)%nat <-> (0 < size_in)%nat)) /\
  (forall pred, f = rowwise pred -> productive pred invert ->
   exists samples p' g',
     draw (S size) p size (Some f) invert g = Some (Ok samples, p', g')) /\
  ((forall samples, np.count_true (mask_of f invert samples) = O) ->
   (0 < size)%nat ->
   forall fuel, draw fuel p size (Some f) invert g = None).
Proof.
  intros Hvalid Hflags. split; [| split].
  - intros samples kept deficit Hlen Hsel size_in. unfold draw_select in Hsel.
    change (if invert then map negb (f samples) else f samples)
      with (mask_of f invert samples) in Hsel. fold size_in in Hsel.
    assert (Hmask : length (mask_of f invert samples) = length samples).
    { unfold mask_of. destruct invert; [rewrite length_map |]; apply Hflags. }
    pose proof (count_true_le (mask_of f invert samples)) as Hle.
    fold size_in in Hle.
    destruct (Nat.eqb_spec size_in size) as [Heq | Hneq]; [discriminate |].
    injection Hsel as <- <-.
    rewrite (boolean_index_length samples _ Hmask). fold size_in.
    repeat split; lia.
  - intros pred -> Hprod. apply draw_productive_returns; auto.
  - intros Hreject Hpos fuel. now apply draw_rejecting_diverges.
Qed.

(** *** Examples on the scripted random source *)

Lemma valid_amp_one : valid_amp [1].
Proof. split; [repeat constructor; lra | simpl; lra]. Qed.

Lemma scripted_draw_batch_one (p : params) (g : nat) :
  valid_amp (amp p) -> length (amp p) = 1%nat ->
  draw_batch (H := scripted) p 1 g
  = (Ok [map (fun m => m + (INR (S g) - 2)) (nth 0 (mean p) [])],
     mkParams (normalized (amp p)) (mean p) (covar p), S (S g)).
Proof.
  intros Hvalid Hlen. unfold draw_batch, np_random_choice. cbn [amp mean covar].
  change (map (fun a => a / np.sum (amp p)) (amp p)) with (normalized (amp p)).
  rewrite (valid_amp_normalized (amp p) Hvalid).
  assert (Hlen' : length (normalized (amp p)) = 1%nat)
    by (unfold normalized; now rewrite length_map).
  rewrite Hlen'.
  cbn [choice scripted repeat Nat.ltb Nat.leb].
  unfold draw_one_by_one. cbn [fold_left multivariate_normal scripted repeat hd].
  unfold np.empty. cbn [repeat np.set_nth]. reflexivity.
Qed.

Lemma positive_first_shifted (g : nat) :
  positive_first [0 + (INR g - 2)] = Nat.ltb 2 g.
Proof.
  unfold positive_first, np.Rltb. cbn [nth].
  destruct (Nat.ltb_spec 2 g) as [Hlt | Hge].
  - apply lt_INR in Hlt. simpl INR in Hlt.
    destruct (Rlt_dec 0 (0 + (INR g - 2))); [reflexivity | lra].
  - apply le_INR in Hge. simpl INR in Hge.
    destruct (Rlt_dec 0 (0 + (INR g - 2))); [lra | reflexivity].
Qed.

(** C9, as the claim words it, fails: the predicate accepts the positive
    half-line, the first sample drawn is negative, and the recursive call is
    made for the same single sample as the call before it; the next sample
    is accepted and the recursion ends. *)
Lemma draw_deficit_not_reduced :
  let p := mkParams [1] [[0]] [[[1]]] in
  let sel_callback := Some (rowwise positive_first) in
  exists samples p1 g1,
    draw_batch (H := scripted) p 1 O = (Ok samples, p1, g1) /\
    draw_select sel_callback false 1 samples = Recurse [] 1 /\
    exists out p' g',
      draw (H := scripted) 2 p 1 sel_callback false O = Some (Ok out, p', g') /\
      length out = 1%nat.
Proof.
  intros p sel_callback.
  pose proof (scripted_draw_batch_one p O valid_amp_one eq_refl) as Hbatch.
  cbn [mean nth p map] in Hbatch.
  assert (Hselect :
            draw_select sel_callback false 1 [[0 + (INR 1 - 2)]] = Recurse [] 1).
  { unfold sel_callback, draw_select, rowwise. cbn [map].
    rewrite positive_first_shifted. reflexivity. }
  do 3 eexists. split; [exact Hbatch |]. split; [exact Hselect |].
  cbn [draw]. rewrite Hbatch, Hselect.
  pose proof (scripted_draw_batch_one
                (mkParams (normalized (amp p)) (mean p) (covar p)) 2
                (normalized_valid _ valid_amp_one) eq_refl) as Hbatch2.
  cbn [amp mean covar nth p map] in Hbatch2. cbn [amp mean covar p].
  rewrite Hbatch2.
  unfold sel_callback, draw_select, rowwise. cbn [map].
  rewrite positive_first_shifted. cbn [Nat.ltb Nat.leb np.count_true filter length Nat.eqb].
  do 3 eexists. split; reflexivity.
Qed.

(** C6, as the claim words it, fails: called on the weights [2; 2], [draw]
    leaves the weights [1/2; 1/2] in the caller's array. *)
Lemma draw_rescales_amp :
  let p := mkParams [2; 2] [[0]; [0]] [[[1]]; [[1]]] in
  exists samples p' g',
    draw (H := scripted) 1 p 1 None false O = Some (Ok samples, p', g') /\
    amp p' = [1 / 2; 1 / 2] /\ amp p' <> amp p.
Proof.
  intros p.
  assert (Hvalid : valid_amp (amp p)).
  { split; [repeat constructor; lra | simpl; lra]. }
  destruct (draw_batch_valid (H := scripted) p 1 O Hvalid) as [samples [g1 Hbatch]].
  exists samples, (mkParams (normalized (amp p)) (mean p) (covar p)), g1.
  split; [rewrite draw_no_callback; now rewrite Hbatch |].
  cbn [amp p]. unfold normalized. cbn [map np.sum fold_right].
  replace (2 + (2 + 0)) with 4 by lra. replace (2 / 4) with (1 / 2) by lra.
  split; [reflexivity |].
  intros Heq. injection Heq as Heq _. lra.
Qed.

(** C5, as the claim words it, fails: the weight [1] is valid, the
    predicate accepts no sample, and [draw] asked for one sample returns at
    no recursion depth. *)
Lemma draw_rejecting_never_returns :
  let p := mkParams [1] [[0]] [[[1]]] in
  valid_amp (amp p) /\
  forall fuel,
    draw (H := scripted) fuel p 1 (Some (rowwise (fun _ => false))) false O = None.
Proof.
  intros p. split; [exact valid_amp_one |].
  intros fuel. apply draw_rejecting_diverges; [| lia | exact valid_amp_one].
  intros samples. now apply rejecting_mask.
Qed.

Lemma draw_returns_size_accepted_witness :
  let p := mkParams [1] [[0]] [[[1]]] in
  (forall fuel r p' g',
     draw (H := scripted) fuel p 1 (Some (rowwise positive_first)) false O
     = Some (r, p', g') ->
     exists samples,
       r = Ok samples /\ length samples = 1%nat /\
       Forall (fun x => positive_first x = true) samples) /\
  (exists samples p' g',
     draw (H := scripted) 1 p 1 None false O = Some (Ok samples, p', g')) /\
  (exists samples p' g',
     draw (H := scripted) 2 p 1 (Some (rowwise (fun _ => negb false))) false O
     = Some (Ok samples, p', g')) /\
  (forall fuel,
     draw (H := scripted) fuel p 1 (Some (rowwise (fun _ => false))) false O
     = None).
Proof.
  intros p.
  assert (Hvalid : valid_amp (amp p))
    by (split; [repeat constructor; lra | simpl; lra]).
  split; [| split; [| split]].
  - pose proof (draw_returns_size_accepted (H := scripted) p 1
                  (Some positive_first) false O Hvalid) as Hall.
    cbv zeta in Hall. destruct Hall as [Hsound _].
    intros fuel r p' g' Hdraw.
    destruct (Hsound fuel r p' g' Hdraw) as [samples [Hr [Hlen Hacc]]].
    exists samples. repeat split; auto. exact (Hacc positive_first eq_refl).
  - pose proof (draw_returns_size_accepted (H := scripted) p 1 None false O
                  Hvalid) as Hall.
    cbv zeta in Hall. destruct Hall as [_ [Hnone _]]. exact (Hnone eq_refl O).
  - pose proof (draw_returns_size_accepted (H := scripted) p 1
                  (Some (fun _ => negb false)) false O Hvalid) as Hall.
    cbv zeta in Hall. destruct Hall as [_ [_ [Hprod _]]].
    exact (Hprod _ eq_refl (accept_all_productive false)).
  - pose proof (draw_returns_size_accepted (H := scripted) p 1
                  (Some (fun _ => false)) false O Hvalid) as Hall.
    cbv zeta in Hall. destruct Hall as [_ [_ [_ Hreject]]].
    exact (Hreject _ eq_refl (fun _ => eq_refl) ltac:(lia)).
Defined.

Lemma draw_deficit_witness :
  let p := mkParams [1] [[0]] [[[1]]] in
  let f := rowwise positive_first in
  (forall samples kept deficit,
     length samples = 1%nat ->
     draw_select (Some f) false 1 samples = Recurse kept deficit ->
     let size_in := np.count_true (mask_of f false samples) in
     deficit = (1 - size_in)%nat /\ length kept = size_in /\
     (1 <= deficit <= 1)%nat /\
     ((deficit < 1)%nat <-> (0 < size_in)%nat)) /\
  (forall pred, f = rowwise pred -> productive (H := scripted) pred false ->
   exists samples p' g',
     draw (H := scripted) 2 p 1 (Some f) false O = Some (Ok samples, p', g')) /\
  ((forall samples, np.count_true (mask_of f false samples) = O) ->
   (0 < 1)%nat ->
   forall fuel, draw (H := scripted) fuel p 1 (Some f) false O = None).
Proof.
  intros p f.
  apply (draw_deficit (H := scripted) p 1 f false O).
  - split; [repeat constructor; lra | simpl; lra].
  - intros samples. unfold f, rowwise. apply length_map.
Defined.

(** ** run_EM *)

(** C10: when [run_EM] is called with [impute > 0] and no callback, a turn
    whose counter is at least 25 and odd takes the imputation branch; the
    rows [I] hands back are the batch of [impute] samples as drawn, without
    the accept/reject step, whatever the [invert_callback] flag; they are
    appended to the data for [E] and [M]. *)
Theorem impute_without_callback `{RandomSource} (fuel : nat) (data : mat)
    (impute iter : nat) (p : params) (g : rng) :
  impute <> O -> (25 <= iter)%nat -> (iter mod 2 = 1)%nat ->
  plain_step impute iter = false /\
  I (S fuel) p impute None g = Some (draw_batch p impute g) /\
  draw (S fuel) p impute None true g = draw (S fuel) p impute None false g /\
  (forall data_out p1 g1,
     draw_batch p impute g = (Ok data_out, p1, g1) -> length data_out = impute) /\
  EM_try (S fuel) data impute None iter p g
  = Some (match draw_batch p impute g with
          | (Ok data_out, p1, g1) => EM_step (data ++ data_out) impute p1 g1
          | (Raise e, p1, g1) => (Raise e, p1, g1)
          end).
Proof.
  intros Himp Hiter Hodd.
  assert (Hplain : plain_step impute iter = false).
  { unfold plain_step. rewrite Hodd.
    destruct (Nat.eqb_spec impute 0) as [| _]; [contradiction |].
    destruct (Nat.ltb_spec iter 25) as [| _]; [lia | reflexivity]. }
  split; [exact Hplain |].
  split; [unfold I; apply draw_no_callback |].
  split; [now rewrite !draw_no_callback |].
  split; [intros data_out p1 g1; apply draw_batch_length |].
  unfold EM_try. rewrite Hplain. unfold I. rewrite draw_no_callback.
  destruct (draw_batch p impute g) as [[[data_out | e] p1] g1]; reflexivity.
Qed.

Lemma impute_without_callback_witness :
  let p := mkParams [1] [[0]] [[[1]]] in
  plain_step 1 25 = false /\
  I (H := scripted) 1 p 1 None O = Some (draw_batch (H := scripted) p 1 O) /\
  draw (H := scripted) 1 p 1 None true O
  = draw (H := scripted) 1 p 1 None false O /\
  (forall data_out p1 g1,
     draw_batch (H := scripted) p 1 O = (Ok data_out, p1, g1) ->
     length data_out = 1%nat) /\
  EM_try (H := scripted) 1 [[2]] 1 None 25 p O
  = Some (match draw_batch (H := scripted) p 1 O with
          | (Ok data_out, p1, g1) => EM_step ([[2]] ++ data_out) 1 p1 g1
          | (Raise e, p1, g1) => (Raise e, p1, g1)
          end).
Proof.
  intros p.
  apply (impute_without_callback (H := scripted) 0 [[2]] 1 25 p O);
    [discriminate | lia | reflexivity].
Defined.

(** With one component, [E] on one point returns the log-responsibility 0. *)
Lemma E_one_component (x a m c : R) :
  c <> 0 -> E [[x]] [a] [[m]] [[[c]]] = Ok [[0]].
Proof.
  intros Hc. unfold E. cbn [length seq E_fill]. unfold E_column. cbn [nth].
  rewrite (inv_1x1 c Hc). cbn [bind].
  unfold np.einsum_rows_cols, np.dot, np.transpose, np.sub_rows, np.vsub,
    np.col, np.shape1, np.set_col, np.empty.
  cbn [length seq map nth hd repeat]. unfold np.map2.
  cbn [combine map fst snd np.set_nth E_normalize].
  match goal with
  | |- context [logsumLogL (np.transpose 1 [[?v]])] =>
      rewrite (logsumLogL_transpose 1 1 [[v]]);
        [| split; [reflexivity | repeat constructor] | lia];
      generalize v
  end.
  intros v. cbn [bind map]. unfold np.set_col, np.vsub, np.col, np.map2.
  cbn [map nth combine fst snd np.set_nth].
  unfold logsumexp. cbn [map np.sum fold_right].
  rewrite Rplus_0_r, ln_exp. repeat f_equal. lra.
Qed.

Lemma E_singular (x a m : R) : E [[x]] [a] [[m]] [[[0]]] = Raise LinAlgError.
Proof.
  unfold E. cbn [length seq E_fill]. unfold E_column. cbn [nth].
  now rewrite inv_singular_1x1.
Qed.

(** [M] on one point with one component: the mean moves to the point, the
    covariance is the squared distance of the point to the mean on entry. *)
Lemma M_one_point (x a m c : R) :
  M [[x]] [[0]] (mkParams [a] [[m]] [[[c]]]) 0
  = Ok (mkParams [1] [[x]] [[[(x - m) * (x - m)]]]).
Proof.
  unfold M. rewrite (logsumLogL_eq 1 1 [[0]]);
    [| split; [reflexivity | repeat constructor] | lia].
  cbn [bind Nat.eqb amp length seq map fold_left]. f_equal.
  unfold M_component, M_covar, M_scatter, M_mean, np.set_entry, np.mdiv, np.madd,
    np.mscale, np.outer, np.vsub, np.map2, np.col, np.shape1, logsumexp.
  simpl. rewrite !exp_0, !Rplus_0_r, ln_1, exp_0.
  replace (1 / 1) with 1 by lra. replace (x * 1 / 1) with x by lra.
  replace ((0 + 1 * ((x - m) * (x - m))) / 1) with ((x - m) * (x - m)) by field.
  reflexivity.
Qed.

(** After a [LinAlgError] the counter is set to 0 and then incremented
    with every other turn: the loop resumes at 1 on fresh parameters. *)
Lemma run_EM_body_restart `{RandomSource} (fuel : nat) (data : mat)
    (impute : nat) (sel_callback : option callback) (st : EM_state)
    (p' : params) (g' : rng) :
  EM_try fuel data impute sel_callback (iter st) (store st) (source st)
  = Some (Raise LinAlgError, p', g') ->
  amp p' <> [] ->
  exists p0 g0,
    initialize p' g' = (Ok p0, g0) /\
    run_EM_body fuel data impute sel_callback st = Some (Ok (mkState 1 p0 g0)).
Proof.
  intros Htry Hamp. unfold run_EM_body. rewrite Htry.
  unfold initialize.
  destruct (Nat.eqb_spec (length (amp p')) 0) as [Hlen | _].
  - destruct (amp p'); [congruence | discriminate].
  - destruct (random_sample _ _ g') as [mean1 g1]. eauto.
Qed.

Lemma EM_step_one_point `{RandomSource} (x a m c : R) (g : rng) :
  c <> 0 ->
  EM_step [[x]] 0 (mkParams [a] [[m]] [[[c]]]) g
  = (Ok tt, mkParams [1] [[x]] [[[(x - m) * (x - m)]]], g).
Proof.
  intros Hc. unfold EM_step. cbn [amp mean covar].
  now rewrite (E_one_component x a m c Hc), M_one_point.
Qed.

(** C4 fails on the code: [run_EM] on the single data point 0 with one
    component. The first two turns succeed and leave the covariance 0; the
    turn with counter 2 raises [LinAlgError] in [E]; the parameters are
    initialised anew, but the turn that follows runs with counter 1, not 0:
    turn 0 is not run again and 49 turns remain, not 50. *)
Theorem run_EM_restart_resumes_at_1 :
  let data := [[0]] in
  exists p0 g0 st1 st2 st3,
    initialize (H := scripted) (mkParams [0] [[0]] [[[0]]]) O = (Ok p0, g0) /\
    run_EM_body (H := scripted) 1 data 0 None (mkState 0 p0 g0) = Some (Ok st1) /\
    run_EM_body (H := scripted) 1 data 0 None st1 = Some (Ok st2) /\
    iter st2 = 2%nat /\
    EM_try (H := scripted) 1 data 0 None (iter st2) (store st2) (source st2)
    = Some (Raise LinAlgError, store st2, source st2) /\
    run_EM_body (H := scripted) 1 data 0 None st2 = Some (Ok st3) /\
    iter st3 = 1%nat /\ iter st3 <> 0%nat /\
    covar (store st3) = [[[target_size ^ 2 * 1]]].
Proof.
  intros data.
  set (p0 := mkParams [1 / INR 1] [[1 / 2]] [[[target_size ^ 2 * 1]]]).
  set (p1 := mkParams [1] [[0]] [[[(0 - 1 / 2) * (0 - 1 / 2)]]]).
  set (p2 := mkParams [1] [[0]] [[[(0 - 0) * (0 - 0)]]]).
  exists p0, 1%nat, (mkState (H := scripted) 1 p1 1%nat),
    (mkState (H := scripted) 2 p2 1%nat), (mkState (H := scripted) 1 p0 2%nat).
  assert (Htry :
            EM_try (H := scripted) 1 data 0 None 2 p2 1%nat
            = Some (Raise LinAlgError, p2, 1%nat)).
  { unfold EM_try, EM_step, p2, data. cbn [plain_step Nat.eqb orb amp mean covar].
    replace ((0 - 0) * (0 - 0)) with 0 by lra. now rewrite E_singular. }
  split; [reflexivity |].
  split.
  { unfold run_EM_body, EM_try, p0, data. cbn [iter store source plain_step Nat.eqb orb].
    rewrite EM_step_one_point; [reflexivity |]. unfold target_size. lra. }
  split.
  { unfold run_EM_body, EM_try, p1, data. cbn [iter store source plain_step Nat.eqb orb].
    rewrite EM_step_one_point; [reflexivity | lra]. }
  split; [reflexivity |].
  split; [exact Htry |].
  split.
  { unfold run_EM_body. cbn [iter store source]. rewrite Htry. reflexivity. }
  split; [reflexivity |]. split; [discriminate |]. reflexivity.
Qed.

(** * Further properties of the code *)

(** ** logsumLogL *)

(** On a matrix of [K >= 1] rows [logsumLogL] is, column by column, the log
    of the sum of the exponentials: the shift cancels, and the exponential of
    entry [n] of the result is the sum of the exponentials of column [n]. *)
Theorem logsumLogL_is_logsumexp (K N : nat) (ll : mat) :
  has_shape K N ll -> (0 < K)%nat ->
  exists r,
    logsumLogL ll = Ok r /\ length r = N /\
    forall n, (n < N)%nat ->
      nth n r 0 = ln (np.sum (map exp (np.col n ll))) /\
      exp (nth n r 0) = np.sum (map exp (np.col n ll)).
Proof.
  intros Hshape Hpos. eexists. split; [now apply (logsumLogL_eq K N) |].
  split; [now rewrite length_map, length_seq |].
  intros n Hn.
  rewrite (nth_map_seq (fun i => logsumexp (np.col i ll)) N n 0 Hn).
  split; [reflexivity |]. apply exp_logsumexp.
  pose proof (has_shape_nonempty _ _ _ Hshape Hpos) as Hne.
  unfold np.col. destruct ll; [congruence | discriminate].
Qed.

Lemma logsumLogL_is_logsumexp_witness :
  exists r,
    logsumLogL [[0; 1]; [2; 3]] = Ok r /\ length r = 2%nat /\
    forall n, (n < 2)%nat ->
      nth n r 0 = ln (np.sum (map exp (np.col n [[0; 1]; [2; 3]]))) /\
      exp (nth n r 0) = np.sum (map exp (np.col n [[0; 1]; [2; 3]])).
Proof.
  apply (logsumLogL_is_logsumexp 2 2 [[0; 1]; [2; 3]]).
  - split; [reflexivity | repeat constructor].
  - lia.
Defined.

Lemma logsumLogL_outcome (ll : mat) :
  match ll with
  | [] => logsumLogL ll = Raise ValueError
  | _ => exists r, logsumLogL ll = Ok r
  end.
Proof.
  destruct ll as [|row ll]; [reflexivity |].
  unfold logsumLogL, logsum_shift, np.min_axis0, np.max_axis0. cbn [bind]. eauto.
Qed.

(** ** M *)

Lemma M_cases (data qij : mat) (p : params) (impute : nat) :
  match M data qij p impute with
  | Ok _ => qij <> [] /\ (impute = O \/ (impute < length qij)%nat)
  | Raise e =>
      e = ValueError /\ (qij = [] \/ (impute <> O /\ (length qij <= impute)%nat))
  end.
Proof.
  unfold M.
  pose proof (logsumLogL_outcome qij) as Hq.
  destruct qij as [|row qij]; [rewrite Hq; cbn [bind]; auto |].
  destruct Hq as [r ->]. cbn [bind].
  destruct (Nat.eqb_spec impute 0) as [-> | Hnz].
  - split; [discriminate | now left].
  - pose proof (logsumLogL_outcome (rows_in impute (row :: qij))) as Hin.
    pose proof (logsumLogL_outcome (rows_out impute (row :: qij))) as Hout.
    destruct (Nat.le_gt_cases (length (row :: qij)) impute) as [Hle | Hgt].
    + assert (Hnil : rows_in impute (row :: qij) = []).
      { unfold rows_in.
        replace (length (row :: qij) - impute)%nat with O by lia. reflexivity. }
      rewrite Hnil. cbn [logsumLogL logsum_shift np.min_axis0 bind]. auto.
    + assert (Hin_ne : rows_in impute (row :: qij) <> []).
      { unfold rows_in. intros Hnil. apply (f_equal (@length _)) in Hnil.
        rewrite length_firstn in Hnil. simpl length in *. lia. }
      assert (Hout_ne : rows_out impute (row :: qij) <> []).
      { unfold rows_out. intros Hnil. apply (f_equal (@length _)) in Hnil.
        rewrite length_skipn in Hnil. simpl length in *. lia. }
      destruct (rows_in impute (row :: qij)); [congruence |].
      destruct (rows_out impute (row :: qij)); [congruence |].
      destruct Hin as [r1 ->], Hout as [r2 ->]. cbn [bind].
      split; [discriminate | right; lia].
Qed.

(** On well-shaped arguments [M] never raises [LinAlgError]: it returns
    when at least one of the [N] rows is not imputed ([impute < N]);
    otherwise, on no rows at all or on imputed rows only, the log-sum over
    an empty slice raises [ValueError]. *)
Theorem M_raises_only_ValueError (N K D : nat) (data qij : mat) (p : params)
    (impute : nat) :
  has_shape N D data -> has_shape N K qij ->
  length (amp p) = K -> has_shape K D (mean p) ->
  length (covar p) = K -> Forall (has_shape D D) (covar p) ->
  match M data qij p impute with
  | Ok _ => (impute < N)%nat
  | Raise e => e = ValueError /\ (N <= impute)%nat
  end.
Proof.
  intros _ [Hlen _] _ _ _ _. pose proof (M_cases data qij p impute) as Hcases.
  destruct (M data qij p impute) as [p' | e].
  - destruct Hcases as [Hne [-> | Hlt]]; [| lia].
    destruct qij; [congruence | simpl in Hlen; lia].
  - destruct Hcases as [-> [-> | [_ Hle]]]; split; auto; simpl in Hlen; lia.
Qed.

Lemma M_raises_only_ValueError_witness :
  match M [[1]; [3]] [[0]; [0]] (mkParams [1] [[0]] [[[1]]]) 2 with
  | Ok _ => (2 < 2)%nat
  | Raise e => e = ValueError /\ (2 <= 2)%nat
  end.
Proof.
  apply (M_raises_only_ValueError 2 1 1 [[1]; [3]] [[0]; [0]]
           (mkParams [1] [[0]] [[[1]]]) 2).
  - split; [reflexivity | repeat constructor].
  - split; [reflexivity | repeat constructor].
  - reflexivity.
  - split; [reflexivity | repeat constructor].
  - reflexivity.
  - constructor; [split; [reflexivity | repeat constructor] | constructor].
Defined.

(** ** E *)

Lemma inv_outcome (m : mat) (e : exn) :
  np.linalg.inv m = Raise e -> e = LinAlgError.
Proof.
  unfold np.linalg.inv. destruct (np.linalg.square m); [| congruence].
  destruct (Req_dec_T (np.linalg.det m) 0); congruence.
Qed.

Lemma E_column_outcome (data : mat) (amp : vec) (mean : mat) (covar : list mat)
    (j : nat) :
  match np.linalg.inv (nth j covar []) with
  | Ok _ =>
      exists column,
        E_column data amp mean covar j = Ok column /\ length column = length data
  | Raise e => E_column data amp mean covar j = Raise e
  end.
Proof.
  unfold E_column. destruct (np.linalg.inv (nth j covar [])) as [ic | e];
    cbn [bind]; [| reflexivity].
  eexists. split; [reflexivity |].
  unfold np.einsum_rows_cols, np.sub_rows. now rewrite !length_map, length_seq.
Qed.

Lemma set_col_shape (N K j : nat) (v : vec) (qij : mat) :
  has_shape N K qij -> length v = N -> has_shape N K (np.set_col j v qij).
Proof.
  intros [Hr Hc] Hv. unfold np.set_col. split.
  - rewrite map2_length. lia.
  - unfold np.map2. apply Forall_map. apply Forall_forall.
    intros [row x] Hin. cbn [fst snd]. rewrite set_nth_length.
    rewrite Forall_forall in Hc. apply Hc. eapply in_combine_l; eauto.
Qed.

Lemma empty_shape (N K : nat) : has_shape N K (np.empty N K).
Proof.
  unfold np.empty. split; [apply repeat_length |].
  apply Forall_forall. intros row Hin. apply repeat_spec in Hin. subst.
  apply repeat_length.
Qed.

Lemma E_fill_outcome (N K : nat) (data : mat) (amp : vec) (mean : mat)
    (covar : list mat) (js : list nat) :
  length data = N ->
  forall qij, has_shape N K qij ->
    match E_fill data amp mean covar js qij with
    | Ok q =>
        has_shape N K q /\
        forall j, In j js -> exists ic, np.linalg.inv (nth j covar []) = Ok ic
    | Raise e =>
        e = LinAlgError /\
        exists j, In j js /\ np.linalg.inv (nth j covar []) = Raise LinAlgError
    end.
Proof.
  intros Hdata. induction js as [|j js IH]; intros qij Hq; cbn [E_fill].
  - split; [exact Hq | intros j []].
  - pose proof (E_column_outcome data amp mean covar j) as Hcol.
    destruct (np.linalg.inv (nth j covar [])) as [ic | e] eqn:Hinv.
    + destruct Hcol as [column [-> Hlen]]. cbn [bind].
      specialize (IH (np.set_col j column qij)
                     (set_col_shape N K j column qij Hq ltac:(lia))).
      destruct (E_fill data amp mean covar js (np.set_col j column qij)) as [q | e].
      * destruct IH as [Hshape Hall]. split; [exact Hshape |].
        intros i [<- | Hi]; [eauto | now apply Hall].
      * destruct IH as [He [i [Hi Hraise]]]. split; [exact He |].
        exists i. split; [now right | exact Hraise].
    + rewrite Hcol. cbn [bind]. pose proof (inv_outcome _ _ Hinv) as ->.
      split; [reflexivity |]. exists j. split; [now left | exact Hinv].
Qed.

Lemma E_normalize_shape (N K : nat) (js : list nat) :
  (js = [] \/ (0 < K)%nat) ->
  forall qij, has_shape N K qij ->
    exists q, E_normalize K js qij = Ok q /\ has_shape N K q.
Proof.
  intros HK. induction js as [|j js IH]; intros qij Hq; cbn [E_normalize].
  - eauto.
  - destruct HK as [Hnil | HK]; [discriminate |].
    rewrite (logsumLogL_transpose N K qij Hq HK). cbn [bind].
    apply IH; [now right |].
    apply set_col_shape; [exact Hq |].
    unfold np.vsub. rewrite map2_length, col_length, length_map.
    destruct Hq as [-> _]. apply Nat.min_id.
Qed.

Lemma E_cases (data : mat) (amp : vec) (mean : mat) (covar : list mat) :
  match E data amp mean covar with
  | Ok qij =>
      has_shape (length data) (length amp) qij /\
      forall j, (j < length amp)%nat ->
                exists ic, np.linalg.inv (nth j covar []) = Ok ic
  | Raise e =>
      e = LinAlgError /\
      exists j, (j < length amp)%nat /\
                np.linalg.inv (nth j covar []) = Raise LinAlgError
  end.
Proof.
  unfold E.
  pose proof (E_fill_outcome (length data) (length amp) data amp mean covar
                (seq 0 (length amp)) eq_refl _
                (empty_shape (length data) (length amp))) as Hfill.
  destruct (E_fill data amp mean covar (seq 0 (length amp))
              (np.empty (length data) (length amp))) as [q | e]; cbn [bind].
  - destruct Hfill as [Hshape Hall].
    destruct (E_normalize_shape (length data) (length amp) (seq 0 (length amp)))
      with (qij := q) as [q' [-> Hq']]; [| exact Hshape |].
    + destruct (length amp); [now left | right; lia].
    + split; [exact Hq' |]. intros j Hj. apply Hall. apply in_seq. lia.
  - destruct Hfill as [He [j [Hj Hraise]]]. split; [exact He |].
    exists j. split; [apply in_seq in Hj; lia | exact Hraise].
Qed.

(** On well-shaped arguments [E] raises nothing but [LinAlgError], and
    raises it exactly when [np.linalg.inv] refuses the covariance of one of
    the [K] components; otherwise it returns a matrix with one row for each
    data point and one column for each component. *)
Theorem E_outcome (N K D : nat) (data : mat) (amp : vec) (mean : mat)
    (covar : list mat) :
  has_shape N D data -> length amp = K -> has_shape K D mean ->
  length covar = K ->
  match E data amp mean covar with
  | Ok qij =>
      has_shape N K qij /\
      forall j, (j < K)%nat -> exists ic, np.linalg.inv (nth j covar []) = Ok ic
  | Raise e =>
      e = LinAlgError /\
      exists j, (j < K)%nat /\ np.linalg.inv (nth j covar []) = Raise LinAlgError
  end.
Proof.
  intros [<- _] <- _ _. apply E_cases.
Qed.

Lemma E_outcome_witness :
  match E [[0]; [1]] [1 / 2; 1 / 2] [[0]; [0]] [[[1]]; [[0]]] with
  | Ok qij =>
      has_shape 2 2 qij /\
      forall j, (j < 2)%nat ->
                exists ic, np.linalg.inv (nth j [[[1]]; [[0]]] []) = Ok ic
  | Raise e =>
      e = LinAlgError /\
      exists j, (j < 2)%nat /\
                np.linalg.inv (nth j [[[1]]; [[0]]] []) = Raise LinAlgError
  end.
Proof.
  apply (E_outcome 2 2 1 [[0]; [1]] [1 / 2; 1 / 2] [[0]; [0]] [[[1]]; [[0]]]).
  - split; [reflexivity | repeat constructor].
  - reflexivity.
  - split; [reflexivity | repeat constructor].
  - reflexivity.
Defined.


Lemma logsumexp_single (v : R) : logsumexp [v] = v.
Proof.
  unfold logsumexp. cbn [map np.sum fold_right]. now rewrite Rplus_0_r, ln_exp.
Qed.

Lemma normalize_single_column (qij : mat) :
  Forall (fun row => length row = 1%nat) qij ->
  np.set_col 0 (np.vsub (np.col 0 qij) (map logsumexp qij)) qij
  = repeat [0] (length qij).
Proof.
  unfold np.set_col, np.vsub, np.col, np.map2.
  induction qij as [|row qij IH]; intros Hrows; [reflexivity |].
  inversion Hrows as [|? ? Hrow Hrest]; subst.
  destruct row as [|v [|w row]]; try discriminate.
  cbn [map combine fst snd nth np.set_nth length repeat].
  f_equal; [| exact (IH Hrest)].
  rewrite logsumexp_single. f_equal. lra.
Qed.

Lemma E_single_component (data : mat) (a : R) (mean : mat) (c ic : mat) :
  np.linalg.inv c = Ok ic -> E data [a] mean [c] = Ok (repeat [0] (length data)).
Proof.
  intros Hinv. unfold E. cbn [length seq].
  pose proof (E_fill_outcome (length data) 1 data [a] mean [c] [0%nat] eq_refl _
                (empty_shape (length data) 1)) as Hfill.
  destruct (E_fill data [a] mean [c] [0%nat] (np.empty (length data) 1))
    as [q | e]; cbn [bind].
  - destruct Hfill as [[Hlen Hrows] _]. cbn [E_normalize].
    rewrite (logsumLogL_transpose (length data) 1 q (conj Hlen Hrows)) by lia.
    cbn [bind]. now rewrite (normalize_single_column q Hrows), Hlen.
  - destruct Hfill as [_ [j [[<- | []] Hraise]]].
    cbn [nth] in Hraise. congruence.
Qed.

(** With a single component of positive weight, whose covariance has a
    positive determinant and can be inverted, [E] returns the
    log-responsibility 0 for every data point, whatever the data and the
    mean: each row is normalised. *)
Theorem E_one_component_is_normalized (data : mat) (a : R) (mean : mat)
    (c ic : mat) :
  0 < a -> 0 < np.linalg.det c -> np.linalg.inv c = Ok ic ->
  E data [a] mean [c] = Ok (repeat [0] (length data)) /\
  row_normalized (repeat [0] (length data)).
Proof.
  intros _ _ Hinv. split; [now apply (E_single_component data a mean c ic) |].
  apply Forall_forall. intros row Hin. apply repeat_spec in Hin. subst.
  cbn [map np.sum fold_right]. rewrite exp_0. lra.
Qed.

Lemma E_one_component_is_normalized_witness :
  E [[1]; [3]] [1] [[0]] [[[1]]] = Ok (repeat [0] 2) /\
  row_normalized (repeat [0] 2).
Proof.
  apply (E_one_component_is_normalized [[1]; [3]] 1 [[0]] [[1]] [[1 / 1]]).
  - lra.
  - unfold np.linalg.det. simpl. lra.
  - apply inv_1x1. lra.
Defined.

Lemma col_set_col_other (j c : nat) (v : vec) (q : mat) :
  length v = length q -> j <> c -> np.col c (np.set_col j v q) = np.col c q.
Proof.
  intros Hlen Hneq. unfold np.set_col, np.col, np.map2. revert v Hlen.
  induction q as [|row q IH]; intros [|x v] Hlen; simpl in Hlen; try lia;
    [reflexivity |].
  cbn [combine map fst snd]. rewrite nth_set_nth_neq by exact Hneq.
  f_equal. apply IH. lia.
Qed.

Lemma col_set_col_same (K j : nat) (v : vec) (q : mat) :
  length v = length q -> Forall (fun row => length row = K) q -> (j < K)%nat ->
  np.col j (np.set_col j v q) = v.
Proof.
  intros Hlen Hrows Hj. unfold np.set_col, np.col, np.map2. revert v Hlen.
  induction Hrows as [|row q Hrow Hrows IH]; intros [|x v] Hlen;
    simpl in Hlen; try lia; [reflexivity |].
  cbn [combine map fst snd]. rewrite nth_set_nth_eq by lia.
  f_equal. apply IH. lia.
Qed.

Lemma E_normalize_keeps_col (N K c : nat) (js : list nat) :
  (0 < K)%nat -> ~ In c js ->
  forall q q', has_shape N K q -> E_normalize K js q = Ok q' ->
               np.col c q' = np.col c q.
Proof.
  intros HK. induction js as [|j js IH]; intros Hc q q' Hq Hnorm;
    cbn [E_normalize] in Hnorm.
  - now injection Hnorm as <-.
  - rewrite (logsumLogL_transpose N K q Hq HK) in Hnorm. cbn [bind] in Hnorm.
    assert (Hlen : length (np.vsub (np.col j q) (map logsumexp q)) = length q).
    { unfold np.vsub. rewrite map2_length, col_length, length_map.
      apply Nat.min_id. }
    apply IH in Hnorm.
    + rewrite Hnorm. apply col_set_col_other; [exact Hlen |].
      intros ->. apply Hc. now left.
    + intros Hin. apply Hc. now right.
    + apply set_col_shape; [exact Hq |]. destruct Hq as [Hr _]. lia.
Qed.

(** What [E] gets right for any number of components: the first column.
    With [dens] the matrix of log-densities the first loop builds, entry
    [i] of column 0 of the result is [dens[i,0]] minus the log-sum of row
    [i] of [dens]; the later turns of the second loop do not touch it. *)
Theorem E_first_column_normalized (data : mat) (amp : vec) (mean : mat)
    (covar : list mat) (dens : mat) :
  amp <> [] ->
  E_fill data amp mean covar (seq 0 (length amp))
         (np.empty (length data) (length amp)) = Ok dens ->
  exists qij,
    E data amp mean covar = Ok qij /\
    np.col 0 qij = np.vsub (np.col 0 dens) (map logsumexp dens).
Proof.
  intros Hamp Hfill.
  assert (HK : (0 < length amp)%nat) by (destruct amp; [congruence | simpl; lia]).
  pose proof (E_fill_outcome (length data) (length amp) data amp mean covar
                (seq 0 (length amp)) eq_refl _
                (empty_shape (length data) (length amp))) as Hout.
  rewrite Hfill in Hout. destruct Hout as [Hshape _].
  unfold E. rewrite Hfill. cbn [bind].
  destruct (E_normalize_shape (length data) (length amp) (seq 0 (length amp))
              (or_intror HK) dens Hshape) as [qij [Hnorm _]].
  exists qij. split; [exact Hnorm |].
  destruct (length amp) as [|K] eqn:HKeq; [lia |].
  cbn [seq E_normalize] in Hnorm.
  rewrite (logsumLogL_transpose (length data) (S K) dens Hshape HK) in Hnorm.
  cbn [bind] in Hnorm.
  assert (Hlen : length (np.vsub (np.col 0 dens) (map logsumexp dens))
                 = length dens).
  { unfold np.vsub. rewrite map2_length, col_length, length_map.
    apply Nat.min_id. }
  rewrite (E_normalize_keeps_col (length data) (S K) 0 (seq 1 K) HK) with
    (q := np.set_col 0 (np.vsub (np.col 0 dens) (map logsumexp dens)) dens)
    (q' := qij).
  - apply (col_set_col_same (S K)); [exact Hlen | apply Hshape | lia].
  - intros Hin. apply in_seq in Hin. lia.
  - apply set_col_shape; [exact Hshape |]. destruct Hshape as [Hr _]. lia.
  - exact Hnorm.
Qed.

Lemma E_first_column_normalized_witness :
  exists qij,
    E [[0]] [1 / 2; 1 / 2] [[0]; [0]] [[[1]]; [[1]]] = Ok qij /\
    np.col 0 qij
    = np.vsub
        (np.col 0 [[ln (1 / 2) - ln (2 * PI) / 2; ln (1 / 2) - ln (2 * PI) / 2]])
        (map logsumexp
             [[ln (1 / 2) - ln (2 * PI) / 2; ln (1 / 2) - ln (2 * PI) / 2]]).
Proof.
  apply (E_first_column_normalized [[0]] [1 / 2; 1 / 2] [[0]; [0]]
           [[[1]]; [[1]]]).
  - discriminate.
  - exact E_fill_example.
Defined.

(** ** M, continued *)

Lemma symmetric_zero (m : mat) : symmetric (map (map (fun _ : R => 0)) m).
Proof. intros a b. now rewrite !entry_map. Qed.

Lemma M_covar_shape (D : nat) (data : mat) (Q_i : vec) (a b c : R)
    (impute N : nat) (mu : vec) (cov : mat) :
  Forall (fun row => length row = D) data -> (N <= length data)%nat ->
  length mu = D -> has_shape D D cov ->
  has_shape D D (M_covar data Q_i a b c impute N mu cov).
Proof.
  intros Hdata HN Hmu Hcov. unfold M_covar.
  destruct (M_scatter_symmetric D data Q_i mu N (map (map (fun _ => 0)) cov)
              Hdata HN Hmu) as [Hs _].
  { now apply has_shape_map. }
  { apply symmetric_zero. }
  destruct (Nat.eqb impute 0).
  - unfold np.mdiv. now apply has_shape_map.
  - apply has_shape_madd.
    + unfold np.mdiv. now apply has_shape_map.
    + unfold np.mscale. now apply has_shape_map.
Qed.

Lemma Forall_nth_lt {A : Type} (P : A -> Prop) (l : list A) (d : A) :
  (forall j, (j < length l)%nat -> P (nth j l d)) -> Forall P l.
Proof.
  intros Hall. apply Forall_forall. intros x Hin.
  destruct (In_nth _ _ d Hin) as [j [Hj <-]]. now apply Hall.
Qed.

Lemma M_shapes (Nrows K D : nat) (data qij : mat) (p : params)
    (impute : nat) :
  has_shape Nrows D data -> has_shape Nrows K qij -> (impute < Nrows)%nat ->
  length (amp p) = K -> has_shape K D (mean p) -> length (covar p) = K ->
  Forall (has_shape D D) (covar p) ->
  exists p',
    M data qij p impute = Ok p' /\
    length (amp p') = K /\
    has_shape K D (mean p') /\
    length (covar p') = K /\ Forall (has_shape D D) (covar p').
Proof.
  intros [Hdr Hdc] Hq Himp Ha [Hmr Hmc] Hc Hshapes.
  destruct (M_spec Nrows K data qij p impute Hdr Hq Himp Ha Hmr Hc)
    as [p' [HM [La [Lm [Lc Hcomp]]]]].
  exists p'. split; [exact HM |]. split; [exact La |].
  rewrite Forall_forall in Hmc, Hshapes.
  split; [| split; [exact Lc |]].
  - split; [exact Lm |]. apply (Forall_nth_lt _ _ []). intros j Hj.
    rewrite Lm in Hj. destruct (Hcomp j Hj) as [_ [-> _]].
    rewrite M_mean_row_length. apply Hmc, nth_In. lia.
  - apply (Forall_nth_lt _ _ []). intros j Hj. rewrite Lc in Hj.
    destruct (Hcomp j Hj) as [_ [_ ->]].
    apply (M_covar_shape D); [exact Hdc | lia | |].
    + apply Hmc, nth_In. lia.
    + apply Hshapes, nth_In. lia.
Qed.

(** [M] keeps the store well shaped: on well-shaped arguments with a row
    that is not imputed it returns, in both branches, a store with [K]
    weights, [K] means of dimension [D] and [K] covariances of [D] rows
    and [D] columns. *)
Theorem M_keeps_shapes (Nrows K D : nat) (data qij : mat) (p : params)
    (impute : nat) :
  has_shape Nrows D data -> has_shape Nrows K qij -> (impute < Nrows)%nat ->
  length (amp p) = K -> has_shape K D (mean p) -> length (covar p) = K ->
  Forall (has_shape D D) (covar p) ->
  exists p',
    M data qij p impute = Ok p' /\
    length (amp p') = K /\
    has_shape K D (mean p') /\
    length (covar p') = K /\ Forall (has_shape D D) (covar p').
Proof. apply M_shapes. Qed.

Lemma M_keeps_shapes_witness :
  exists p',
    M [[1; 2]; [3; 4]] [[0]; [0]] (mkParams [1] [[0; 0]] [[[2; 1]; [1; 2]]]) 1
    = Ok p' /\
    length (amp p') = 1%nat /\
    has_shape 1 2 (mean p') /\
    length (covar p') = 1%nat /\ Forall (has_shape 2 2) (covar p').
Proof.
  apply (M_keeps_shapes 2 1 2 [[1; 2]; [3; 4]] [[0]; [0]]
           (mkParams [1] [[0; 0]] [[[2; 1]; [1; 2]]]) 1).
  - split; [reflexivity | repeat constructor].
  - split; [reflexivity | repeat constructor].
  - lia.
  - reflexivity.
  - split; [reflexivity | repeat constructor].
  - reflexivity.
  - constructor; [split; [reflexivity | repeat constructor] | constructor].
Defined.

(** ** draw and I, continued *)

(** [draw] called with a weight whose sign is opposite to the sign of the
    sum of the weights raises [ValueError] in [np.random.choice] at the
    first call: no random number has been consumed, and [amp] has already
    been divided by its sum in place. *)
Theorem draw_negative_weight_raises `{RandomSource} (fuel : nat) (p : params)
    (size : nat) (sel_callback : option callback) (invert : bool) (g : rng)
    (x : R) :
  In x (amp p) -> x / np.sum (amp p) < 0 ->
  draw (S fuel) p size sel_callback invert g
  = Some (Raise ValueError, mkParams (normalized (amp p)) (mean p) (covar p), g).
Proof.
  intros Hin Hneg. cbn [draw].
  assert (Hbatch : draw_batch p size g
                   = (Raise ValueError,
                      mkParams (normalized (amp p)) (mean p) (covar p), g)).
  { unfold draw_batch, np_random_choice. cbn [amp mean covar].
    change (map (fun a => a / np.sum (amp p)) (amp p)) with (normalized (amp p)).
    destruct (valid_probabilities _ (normalized (amp p))) eqn:Hvalid;
      [| reflexivity].
    apply valid_probabilities_true in Hvalid.
    destruct Hvalid as [_ [_ [Hall _]]]. rewrite Forall_forall in Hall.
    specialize (Hall (x / np.sum (amp p))).
    assert (0 <= x / np.sum (amp p)); [| lra].
    apply Hall. unfold normalized.
    exact (in_map (fun a => a / np.sum (amp p)) (amp p) x Hin). }
  now rewrite Hbatch.
Qed.

Lemma draw_negative_weight_raises_witness :
  draw (H := scripted) 1 (mkParams [-1; 3] [[0]; [0]] [[[1]]; [[1]]]) 1 None
       false O
  = Some (Raise ValueError,
          mkParams (normalized [-1; 3]) [[0]; [0]] [[[1]]; [[1]]], O).
Proof.
  apply (draw_negative_weight_raises (H := scripted) 0
           (mkParams [-1; 3] [[0]; [0]] [[[1]]; [[1]]]) 1 None false O (-1)).
  - now left.
  - cbn [amp np.sum fold_right]. replace (-1 + (3 + 0)) with 2 by lra. lra.
Defined.

(** A call of [draw] for no sample at all returns the empty batch at once,
    with or without a callback. *)
Theorem draw_size_zero `{RandomSource} (fuel : nat) (p : params)
    (sel_callback : option callback) (invert : bool) (g : rng) :
  valid_amp (amp p) ->
  (forall f, sel_callback = Some f -> f [] = []) ->
  exists g',
    draw (S fuel) p 0 sel_callback invert g
    = Some (Ok [], mkParams (normalized (amp p)) (mean p) (covar p), g').
Proof.
  intros Hvalid Hempty. cbn [draw].
  destruct (draw_batch_valid p 0 g Hvalid) as [samples [g1 Hbatch]].
  rewrite Hbatch. apply draw_batch_length in Hbatch.
  destruct samples; [| discriminate]. exists g1.
  destruct sel_callback as [f |]; [| reflexivity].
  unfold draw_select. rewrite (Hempty f eq_refl).
  now destruct invert.
Qed.

Lemma draw_size_zero_witness :
  exists g',
    draw (H := scripted) 1 (mkParams [1] [[0]] [[[1]]]) 0
         (Some (rowwise positive_first)) true O
    = Some (Ok [], mkParams (normalized [1]) [[0]] [[[1]]], g').
Proof.
  apply (draw_size_zero (H := scripted) 0 (mkParams [1] [[0]] [[[1]]])
           (Some (rowwise positive_first)) true O).
  - split; [repeat constructor; lra | simpl; lra].
  - intros f Hf. injection Hf as <-. reflexivity.
Defined.

(** Whatever [I] returns is [impute] samples, none of which passes the
    selection predicate: the imputed points all lie in the region the
    selection leaves out. *)
Theorem I_samples_fail_selection `{RandomSource} (fuel : nat) (p : params)
    (impute : nat) (pred : list R -> bool) (g : rng) (r : result mat)
    (p' : params) (g' : rng) :
  valid_amp (amp p) ->
  I fuel p impute (Some (rowwise pred)) g = Some (r, p', g') ->
  exists samples,
    r = Ok samples /\ length samples = impute /\
    Forall (fun x => pred x = false) samples.
Proof.
  intros Hvalid HI. unfold I in HI.
  destruct (draw_sound pred true fuel p impute g r p' g' Hvalid HI)
    as [samples [Hr [Hlen Hacc]]].
  exists samples. repeat split; auto.
  eapply Forall_impl; [| exact Hacc].
  intros x Hx. unfold accepted in Hx. now apply negb_true_iff in Hx.
Qed.

Lemma scripted_I_first_sample :
  I (H := scripted) 1 (mkParams [1] [[0]] [[[1]]]) 1
    (Some (rowwise positive_first)) O
  = Some (Ok [[0 + (INR 1 - 2)]], mkParams (normalized [1]) [[0]] [[[1]]], 2%nat).
Proof.
  unfold I. cbn [draw].
  rewrite (scripted_draw_batch_one (mkParams [1] [[0]] [[[1]]]) O valid_amp_one
             eq_refl).
  cbn [amp mean covar nth map].
  unfold draw_select, rowwise. cbn [map].
  rewrite positive_first_shifted. reflexivity.
Qed.

Lemma I_samples_fail_selection_witness :
  exists samples,
    Ok [[0 + (INR 1 - 2)]] = Ok samples /\ length samples = 1%nat /\
    Forall (fun x => positive_first x = false) samples.
Proof.
  apply (I_samples_fail_selection (H := scripted) 1 (mkParams [1] [[0]] [[[1]]])
           1 positive_first O (Ok [[0 + (INR 1 - 2)]])
           (mkParams (normalized [1]) [[0]] [[[1]]]) 2%nat).
  - split; [repeat constructor; lra | simpl; lra].
  - exact scripted_I_first_sample.
Defined.

(** ** initialize *)

Lemma sum_zero_terms {A : Type} (f : A -> R) (l : list A) :
  (forall x, In x l -> f x = 0) -> np.sum (map f l) = 0.
Proof.
  induction l as [|x l IH]; intros Hall; cbn [map np.sum fold_right]; [reflexivity |].
  rewrite (Hall x) by now left.
  fold (np.sum (map f l)). rewrite IH; [lra |]. intros y Hy. apply Hall. now right.
Qed.

Lemma det_scaled_identity (c : R) (n : nat) :
  forall s : nat,
    np.linalg.det_n n
      (map (fun i => map (fun j => c * (if Nat.eqb i j then 1 else 0)) (seq s n))
           (seq s n))
    = c ^ n.
Proof.
  induction n as [|n IH]; intros s; [reflexivity |].
  cbn [np.linalg.det_n]. cbn [seq map hd].
  cbn [np.sum fold_right]. fold (np.sum
    (map (fun j => (-1) ^ j
                   * nth j (c * (if Nat.eqb s s then 1 else 0)
                            :: map (fun j0 => c * (if Nat.eqb s j0 then 1 else 0))
                                 (seq (S s) n)) 0
                   * np.linalg.det_n n
                       (np.linalg.minor 0 j
                          ((c * (if Nat.eqb s s then 1 else 0)
                            :: map (fun j0 => c * (if Nat.eqb s j0 then 1 else 0))
                                 (seq (S s) n))
                           :: map (fun i =>
                                     c * (if Nat.eqb i s then 1 else 0)
                                     :: map (fun j0 =>
                                               c * (if Nat.eqb i j0 then 1 else 0))
                                          (seq (S s) n))
                                (seq (S s) n))))
         (seq 1 n))).
  rewrite sum_zero_terms.
  - cbn [nth]. unfold np.linalg.minor. cbn [np.linalg.remove_nth].
    rewrite map_map. cbn [np.linalg.remove_nth].
    rewrite (IH (S s)), Nat.eqb_refl. cbn [pow]. lra.
  - intros j Hj. apply in_seq in Hj.
    destruct j as [|j]; [lia |]. cbn [nth].
    rewrite (nth_map_in (fun j0 => c * (if Nat.eqb s j0 then 1 else 0))
               (seq (S s) n) j 0 O) by (rewrite length_seq; lia).
    rewrite seq_nth by lia.
    destruct (Nat.eqb_spec s (S s + j)) as [Heq | _]; [lia |]. lra.
Qed.

Lemma scaled_eye (c : R) (D : nat) :
  np.mscale c (np.eye D)
  = map (fun i => map (fun j => c * (if Nat.eqb i j then 1 else 0)) (seq 0 D))
        (seq 0 D).
Proof.
  unfold np.mscale, np.eye. rewrite map_map. apply map_ext. intros i.
  now rewrite map_map.
Qed.

Lemma scaled_eye_shape (c : R) (D : nat) : has_shape D D (np.mscale c (np.eye D)).
Proof.
  rewrite scaled_eye. split; [now rewrite length_map, length_seq |].
  apply Forall_map. apply Forall_forall. intros i _.
  now rewrite length_map, length_seq.
Qed.

Lemma scaled_eye_symmetric (c : R) (D : nat) : symmetric (np.mscale c (np.eye D)).
Proof.
  intros a b.
  destruct (Nat.ltb_spec a D) as [Ha | Ha]; [destruct (Nat.ltb_spec b D) as [Hb | Hb] |].
  - rewrite scaled_eye. unfold entry.
    rewrite (nth_map_seq _ D a [] Ha), (nth_map_seq _ D b [] Hb).
    rewrite (nth_map_seq (fun j => c * (if Nat.eqb a j then 1 else 0)) D b 0 Hb).
    rewrite (nth_map_seq (fun j => c * (if Nat.eqb b j then 1 else 0)) D a 0 Ha).
    now rewrite Nat.eqb_sym.
  - rewrite !(entry_outside D); auto using scaled_eye_shape.
  - rewrite !(entry_outside D); auto using scaled_eye_shape.
Qed.

Lemma scaled_eye_invertible (c : R) (D : nat) :
  c <> 0 -> exists ic, np.linalg.inv (np.mscale c (np.eye D)) = Ok ic.
Proof.
  intros Hc. unfold np.linalg.inv.
  destruct (scaled_eye_shape c D) as [Hlen Hrows].
  assert (Hsq : np.linalg.square (np.mscale c (np.eye D)) = true).
  { unfold np.linalg.square. apply forallb_forall. intros row Hin.
    rewrite Forall_forall in Hrows. rewrite (Hrows row Hin), Hlen.
    apply Nat.eqb_refl. }
  rewrite Hsq.
  assert (Hdet : np.linalg.det (np.mscale c (np.eye D)) = c ^ D).
  { unfold np.linalg.det. rewrite Hlen, scaled_eye. apply det_scaled_identity. }
  rewrite Hdet.
  destruct (Req_dec_T (c ^ D) 0) as [Hz | _]; [| eauto].
  exfalso. now apply (pow_nonzero c D Hc).
Qed.

Lemma sum_repeat (x : R) (n : nat) : np.sum (repeat x n) = INR n * x.
Proof.
  induction n as [|n IH]; [simpl; lra |].
  cbn [repeat np.sum fold_right]. fold (np.sum (repeat x n)).
  rewrite IH, S_INR. lra.
Qed.

Lemma map_constant {A B : Type} (b : B) (l : list A) :
  map (fun _ => b) l = repeat b (length l).
Proof. induction l as [|x l IH]; [reflexivity | cbn [map length repeat]; now rewrite IH]. Qed.

Lemma initialize_cases `{RandomSource} (p : params) (g : rng) :
  let K := length (amp p) in
  let D := np.shape1 (mean p) in
  match amp p with
  | [] => initialize p g = (Raise ZeroDivisionError, g)
  | _ =>
      exists p0,
        initialize p g = (Ok p0, snd (random_sample K D g)) /\
        amp p0 = repeat (1 / INR K) K /\ np.sum (amp p0) = 1 /\
        mean p0 = fst (random_sample K D g) /\
        covar p0 = repeat (np.mscale ((1 / 10) ^ 2) (np.eye D)) K /\
        Forall symmetric (covar p0)
  end.
Proof.
  intros K D. unfold initialize. fold K. fold D.
  destruct (amp p) as [|a rest] eqn:Hamp; [reflexivity |].
  assert (HK : (0 < K)%nat) by (unfold K; simpl; lia).
  destruct (Nat.eqb_spec K 0) as [Hz | _]; [lia |].
  destruct (random_sample K D g) as [mean1 g1]. eexists.
  split; [reflexivity |]. cbn [amp mean covar fst snd].
  split; [apply map_constant |].
  split.
  { rewrite map_constant, sum_repeat. fold K. field. apply not_0_INR. lia. }
  split; [reflexivity |]. split; [reflexivity |].
  apply Forall_forall. intros c Hc. apply repeat_spec in Hc. subst c.
  apply scaled_eye_symmetric.
Qed.

Lemma has_shape_shape1 (N D : nat) (data : mat) :
  has_shape N D data -> (0 < N)%nat -> np.shape1 data = D.
Proof.
  intros [Hlen Hrows] HN. unfold np.shape1.
  destruct data as [|row data]; [simpl in Hlen; lia |].
  now inversion Hrows; subst.
Qed.

(** [initialize] on arrays for no component raises [ZeroDivisionError] in
    [1./K] before it draws anything. On arrays for [K >= 1] components in
    dimension [D] it returns: every weight is [1/K] and the weights sum to 1,
    the means are the [K] by [D] uniform numbers drawn, and every covariance
    is [0.1 ** 2] times the identity, whatever the arrays held before. *)
Theorem initialize_resets `{RandomSource} (K D : nat) (p : params) (g : rng) :
  length (amp p) = K -> has_shape K D (mean p) ->
  length (covar p) = K -> Forall (has_shape D D) (covar p) ->
  match K with
  | O => initialize p g = (Raise ZeroDivisionError, g)
  | _ =>
      exists p0,
        initialize p g = (Ok p0, snd (random_sample K D g)) /\
        amp p0 = repeat (1 / INR K) K /\ np.sum (amp p0) = 1 /\
        mean p0 = fst (random_sample K D g) /\
        covar p0 = repeat (np.mscale ((1 / 10) ^ 2) (np.eye D)) K /\
        Forall symmetric (covar p0)
  end.
Proof.
  intros Ha Hm _ _. pose proof (initialize_cases p g) as Hcases.
  cbv zeta in Hcases. rewrite Ha in Hcases.
  destruct K as [|K'].
  - destruct (amp p); [exact Hcases | discriminate].
  - rewrite (has_shape_shape1 (S K') D (mean p) Hm ltac:(lia)) in Hcases.
    destruct (amp p); [discriminate | exact Hcases].
Qed.

Lemma initialize_resets_witness :
  exists p0,
    initialize (H := scripted) (mkParams [5; 7] [[0; 0]; [0; 0]]
                                  [[[3; 0]; [0; 3]]; [[3; 0]; [0; 3]]]) O
    = (Ok p0, snd (random_sample (RandomSource := scripted) 2 2 O)) /\
    amp p0 = repeat (1 / INR 2) 2 /\ np.sum (amp p0) = 1 /\
    mean p0 = fst (random_sample (RandomSource := scripted) 2 2 O) /\
    covar p0 = repeat (np.mscale ((1 / 10) ^ 2) (np.eye 2)) 2 /\
    Forall symmetric (covar p0).
Proof.
  apply (initialize_resets (H := scripted) 2 2
           (mkParams [5; 7] [[0; 0]; [0; 0]] [[[3; 0]; [0; 3]]; [[3; 0]; [0; 3]]])
           O).
  - reflexivity.
  - split; [reflexivity | repeat constructor].
  - reflexivity.
  - repeat constructor.
Defined.

(** The first [E] step after [initialize] never raises, whatever the data:
    the covariances [initialize] leaves can all be inverted. *)
Theorem E_after_initialize_returns `{RandomSource} (data : mat) (p p0 : params)
    (g g' : rng) :
  initialize p g = (Ok p0, g') ->
  exists qij,
    E data (amp p0) (mean p0) (covar p0) = Ok qij /\
    has_shape (length data) (length (amp p)) qij.
Proof.
  intros Hinit. pose proof (initialize_cases p g) as Hreset. cbv zeta in Hreset.
  destruct (amp p) as [|a rest] eqn:Hamp.
  { rewrite Hinit in Hreset. discriminate. }
  destruct Hreset as [q [Hq [Ha [_ [_ [Hc _]]]]]].
  rewrite Hinit in Hq. injection Hq as <- _.
  pose proof (E_cases data (amp p0) (mean p0) (covar p0)) as Hout.
  destruct (E data (amp p0) (mean p0) (covar p0)) as [qij | e].
  - exists qij. split; [reflexivity |]. destruct Hout as [Hshape _].
    rewrite Ha, repeat_length in Hshape. exact Hshape.
  - destruct Hout as [_ [j [Hj Hraise]]]. exfalso.
    rewrite Ha, repeat_length in Hj. rewrite Hc in Hraise.
    rewrite (nth_indep _ [] (np.mscale ((1 / 10) ^ 2) (np.eye (np.shape1 (mean p)))))
      in Hraise by (rewrite repeat_length; exact Hj).
    rewrite nth_repeat in Hraise.
    destruct (scaled_eye_invertible ((1 / 10) ^ 2) (np.shape1 (mean p)))
      as [ic Hic]; [lra | congruence].
Qed.

Lemma E_after_initialize_returns_witness :
  exists qij,
    E [[3]; [4]] [1 / INR 1] [[1 / 2]] [[[target_size ^ 2 * 1]]] = Ok qij /\
    has_shape 2 1 qij.
Proof.
  apply (E_after_initialize_returns (H := scripted) [[3]; [4]]
           (mkParams [0] [[0]] [[[0]]])
           (mkParams [1 / INR 1] [[1 / 2]] [[[target_size ^ 2 * 1]]]) O 1%nat).
  reflexivity.
Defined.

(** ** One component in one dimension *)

Lemma fold_left_seq_nth {A B : Type} (f : B -> A -> B) (d : A) (l : list A) :
  forall (pre : list A) (acc : B),
    fold_left (fun a i => f a (nth i (pre ++ l) d)) (seq (length pre) (length l)) acc
    = fold_left f l acc.
Proof.
  induction l as [|x l IH]; intros pre acc; [reflexivity |].
  cbn [length seq fold_left]. rewrite nth_middle.
  specialize (IH (pre ++ [x]) (f acc x)).
  rewrite <- app_assoc, length_app in IH. cbn [app length] in IH.
  rewrite Nat.add_1_r in IH. exact IH.
Qed.

Lemma fold_left_ext_in {A B : Type} (f g : B -> A -> B) (l : list A) :
  (forall a x, In x l -> f a x = g a x) ->
  forall acc, fold_left f l acc = fold_left g l acc.
Proof.
  induction l as [|x l IH]; intros Hext acc; [reflexivity |].
  cbn [fold_left]. rewrite (Hext acc x) by now left.
  apply IH. intros a y Hy. apply Hext. now right.
Qed.

(** With equal responsibilities [e] the scatter of lines 89 to 91 is a sum
    over the rows of the data. *)
Lemma M_scatter_rows (data : mat) (e : R) (mu : vec) (zero : mat) :
  M_scatter data (repeat e (length data)) mu (length data) zero
  = fold_left
      (fun acc row =>
         np.madd acc (np.mscale e (np.outer (np.vsub row mu) (np.vsub row mu))))
      data zero.
Proof.
  unfold M_scatter.
  rewrite <- (fold_left_seq_nth
                (fun acc row =>
                   np.madd acc
                     (np.mscale e (np.outer (np.vsub row mu) (np.vsub row mu))))
                [] data [] zero).
  cbn [app length]. apply fold_left_ext_in. intros acc i Hi. apply in_seq in Hi.
  cbv zeta.
  rewrite (nth_indep _ 0 e) by (rewrite repeat_length; lia).
  now rewrite nth_repeat.
Qed.

Lemma scatter_1d (e m : R) (data : mat) :
  Forall (fun row => length row = 1%nat) data ->
  forall z : R,
    fold_left
      (fun acc row =>
         np.madd acc (np.mscale e (np.outer (np.vsub row [m]) (np.vsub row [m]))))
      data [[z]]
    = [[z + e * np.sum (map (fun x => (x - m) * (x - m)) (np.col 0 data))]].
Proof.
  induction 1 as [|row data Hrow Hrows IH]; intros z.
  - cbn [fold_left np.col map np.sum fold_right]. repeat f_equal. lra.
  - destruct row as [|x [|y row]]; try discriminate.
    assert (Hstep :
              np.madd [[z]]
                (np.mscale e (np.outer (np.vsub [x] [m]) (np.vsub [x] [m])))
              = [[z + e * ((x - m) * (x - m))]]) by reflexivity.
    cbn [fold_left]. rewrite Hstep, IH.
    cbn [np.col map nth np.sum fold_right]. do 2 f_equal.
    unfold np.sum, np.col. ring.
Qed.

Lemma col_zeros (n : nat) : np.col 0 (repeat [0] n) = repeat 0 n.
Proof.
  unfold np.col. induction n as [|n IH]; [reflexivity |].
  cbn [repeat map nth]. now rewrite IH.
Qed.

Lemma exp_zeros (n : nat) : map exp (repeat 0 n) = repeat 1 n.
Proof.
  induction n as [|n IH]; [reflexivity |].
  cbn [repeat map]. now rewrite IH, exp_0.
Qed.

Lemma mass_zeros (n : nat) : mass 0 (repeat [0] n) = INR n.
Proof. unfold mass. rewrite col_zeros, exp_zeros, sum_repeat. lra. Qed.

Lemma sum_times_ones (v : vec) :
  np.sum (np.map2 Rmult v (repeat 1 (length v))) = np.sum v.
Proof.
  unfold np.map2. induction v as [|x v IH]; [reflexivity |].
  cbn [length repeat combine map fst snd np.sum fold_right].
  fold (np.sum (map (fun p => fst p * snd p) (combine v (repeat 1 (length v))))).
  fold (np.sum v). rewrite IH. lra.
Qed.

Lemma singleton_list {A : Type} (l : list A) (d : A) :
  length l = 1%nat -> l = [nth 0 l d].
Proof. destruct l as [|x [|y l]]; try discriminate. reflexivity. Qed.

(** [M] in one dimension on the responsibilities 0 of a single component:
    the weight is 1, the mean is the average of the data and the variance is
    the mean squared distance of the data to the mean on entry. *)
Lemma M_one_component_1d (N : nat) (data : mat) (a m c : R) :
  has_shape N 1 data -> (0 < N)%nat ->
  M data (repeat [0] N) (mkParams [a] [[m]] [[[c]]]) 0
  = Ok (mkParams [1] [[column_mean data]] [[[mean_square_about m data]]]).
Proof.
  intros [Hlen Hrows] HN.
  assert (Hq : has_shape N 1 (repeat [0] N)).
  { split; [apply repeat_length |]. apply Forall_forall. intros row Hin.
    apply repeat_spec in Hin. now subst. }
  destruct (M_spec N 1 data (repeat [0] N) (mkParams [a] [[m]] [[[c]]]) 0
              Hlen Hq HN eq_refl eq_refl eq_refl)
    as [p' [HM [La [Lm [Lc Hcomp]]]]].
  rewrite HM. f_equal.
  destruct (Hcomp O ltac:(lia)) as [Ea [Em Ec]]. cbv zeta in Em, Ec.
  cbn [amp mean covar nth np.shape1 hd length] in Ea, Em, Ec.
  destruct p' as [amp' mean' covar']. cbn [amp mean covar] in *.
  rewrite (singleton_list amp' 0 La), (singleton_list mean' [] Lm),
    (singleton_list covar' [] Lc).
  rewrite Ea, Em, Ec. clear Ea Em Ec Hcomp HM.
  rewrite mass_zeros, col_zeros, exp_zeros.
  assert (HNz : INR N <> 0) by (apply not_0_INR; lia).
  f_equal.
  - f_equal. now field.
  - f_equal. unfold M_mean_row. cbn [seq fold_left np.set_nth]. f_equal. f_equal.
    unfold column_mean. rewrite Hlen. f_equal.
    rewrite <- Hlen at 1. rewrite <- (col_length 0 data). apply sum_times_ones.
  - f_equal. unfold M_covar. cbn [Nat.eqb map]. rewrite Nat.sub_0_r.
    rewrite <- Hlen at 1 2. rewrite M_scatter_rows, (scatter_1d 1 m data Hrows).
    unfold np.mdiv. cbn [map]. unfold mean_square_about. rewrite Hlen.
    repeat f_equal. lra.
Qed.


(** One plain turn with one component in one dimension. *)
Lemma EM_step_one_component_1d `{RandomSource} (N : nat) (data : mat)
    (a m c : R) (g : rng) :
  has_shape N 1 data -> (0 < N)%nat -> c <> 0 ->
  EM_step data 0 (mkParams [a] [[m]] [[[c]]]) g
  = (Ok tt, mkParams [1] [[column_mean data]] [[[mean_square_about m data]]], g).
Proof.
  intros Hdata HN Hc. unfold EM_step. cbn [amp mean covar].
  rewrite (E_single_component data a [[m]] [[c]] _ (inv_1x1 c Hc)).
  destruct Hdata as [Hlen Hrows]. rewrite Hlen.
  now rewrite (M_one_component_1d N data a m c (conj Hlen Hrows) HN).
Qed.

Lemma sum_nonneg {A : Type} (f : A -> R) (l : list A) :
  (forall x, 0 <= f x) -> 0 <= np.sum (map f l).
Proof.
  intros Hf. induction l as [|x l IH]; cbn [map np.sum fold_right]; [lra |].
  fold (np.sum (map f l)). specialize (Hf x). lra.
Qed.

Lemma sum_pos_member {A : Type} (f : A -> R) (l : list A) (x : A) :
  (forall y, 0 <= f y) -> In x l -> 0 < f x -> 0 < np.sum (map f l).
Proof.
  intros Hf Hin Hx. induction l as [|y l IH]; [destruct Hin |].
  cbn [map np.sum fold_right]. fold (np.sum (map f l)).
  pose proof (sum_nonneg f l Hf) as Hrest. pose proof (Hf y) as Hy.
  destruct Hin as [-> | Hin]; [lra |]. specialize (IH Hin). lra.
Qed.

(** Data with two different values has a positive mean squared distance to
    any point. *)
Lemma mean_square_about_pos (m x1 x2 : R) (data : mat) :
  In [x1] data -> In [x2] data -> x1 <> x2 -> 0 < mean_square_about m data.
Proof.
  intros H1 H2 Hneq. unfold mean_square_about.
  assert (HN : (0 < length data)%nat) by (destruct data; [destruct H1 | simpl; lia]).
  apply Rdiv_lt_0_compat; [| now apply lt_0_INR].
  assert (Hsq : forall y : R, 0 <= (y - m) * (y - m))
    by (intros y; exact (Rle_0_sqr (y - m))).
  assert (Hcol : forall x, In [x] data -> In x (np.col 0 data)).
  { intros x Hx. unfold np.col.
    exact (in_map (fun row : list R => nth 0 row 0) data [x] Hx). }
  destruct (Req_dec x1 m) as [Heq | Hne].
  - apply (sum_pos_member _ _ x2 Hsq (Hcol x2 H2)).
    assert (Hd : x2 - m <> 0) by lra. exact (Rlt_0_sqr _ Hd).
  - apply (sum_pos_member _ _ x1 Hsq (Hcol x1 H1)).
    assert (Hd : x1 - m <> 0) by lra. exact (Rlt_0_sqr _ Hd).
Qed.

Section OneComponentRun.

Context `{RandomSource}.

Variables (N : nat) (data : mat).
Hypothesis data_shape : has_shape N 1 data.
Hypothesis data_rows : (0 < N)%nat.

Lemma run_EM_body_one_component_1d (fuel i : nat) (a m c : R) (g : rng) :
  c <> 0 ->
  run_EM_body fuel data 0 None (mkState i (mkParams [a] [[m]] [[[c]]]) g)
  = Some (Ok (mkState (i + 1)
                (mkParams [1] [[column_mean data]] [[[mean_square_about m data]]])
                g)).
Proof.
  intros Hc. unfold run_EM_body, EM_try. cbn [iter store source plain_step Nat.eqb orb].
  now rewrite (EM_step_one_component_1d N data a m c g data_shape data_rows Hc).
Qed.

(** From the fixed point on, the loop runs to the counter 50 and returns. *)
Lemma run_EM_loop_fixed_point (g : rng) :
  let mu := column_mean data in
  let v := mean_square_about mu data in
  v <> 0 ->
  forall (n fuel i : nat),
    (i + n = 50)%nat -> (n < fuel)%nat ->
    run_EM_loop fuel data 0 None (mkState i (mkParams [1] [[mu]] [[[v]]]) g)
    = Some (Ok (mkState 50 (mkParams [1] [[mu]] [[[v]]]) g)).
Proof.
  intros mu v Hv. induction n as [|n IH]; intros fuel i Hi Hfuel.
  - destruct fuel as [|fuel]; [lia |]. cbn [run_EM_loop iter].
    replace i with 50%nat by lia. reflexivity.
  - destruct fuel as [|fuel]; [lia |]. cbn [run_EM_loop iter].
    destruct (Nat.ltb_spec i 50) as [_ | Hge]; [| lia].
    rewrite (run_EM_body_one_component_1d (S fuel) i 1 mu v g Hv).
    fold mu. fold v. apply IH; lia.
Qed.

End OneComponentRun.

Lemma target_size_sq_nonzero : target_size ^ 2 * 1 <> 0.
Proof. unfold target_size. lra. Qed.

Lemma run_EM_one_component_1d_run `{RandomSource} (N : nat) (data : mat)
    (x1 x2 a0 m0 c0 r : R) (g : rng) (fuel : nat) :
  has_shape N 1 data -> In [x1] data -> In [x2] data -> x1 <> x2 ->
  fst (random_sample 1 1 g) = [[r]] -> (50 < fuel)%nat ->
  run_EM fuel data (mkParams [a0] [[m0]] [[[c0]]]) 0 None g
  = Some (Ok (mkState 50
                (mkParams [1] [[column_mean data]]
                          [[[mean_square_about (column_mean data) data]]])
                (snd (random_sample 1 1 g)))).
Proof.
  intros Hshape H1 H2 Hneq Hr Hfuel.
  assert (HN : (0 < N)%nat).
  { destruct Hshape as [<- _]. destruct data; [destruct H1 | simpl; lia]. }
  unfold run_EM, initialize. cbn [amp mean length Nat.eqb np.shape1 hd map repeat].
  destruct (random_sample 1 1 g) as [mean1 g1]. cbn [fst snd] in *. subst mean1.
  cbn [np.eye seq map Nat.eqb np.mscale].
  destruct fuel as [|[|fuel]]; try lia.
  cbn [run_EM_loop iter Nat.ltb Nat.leb].
  rewrite (run_EM_body_one_component_1d N data Hshape HN _ 0 _ r _ g1
             target_size_sq_nonzero).
  cbn [run_EM_loop iter Nat.add Nat.ltb Nat.leb].
  assert (Hv : forall m, mean_square_about m data <> 0).
  { intros m. pose proof (mean_square_about_pos m x1 x2 data H1 H2 Hneq). lra. }
  rewrite (run_EM_body_one_component_1d N data Hshape HN _ 1 1 _ _ g1 (Hv r)).
  cbn [Nat.add].
  apply (run_EM_loop_fixed_point N data Hshape HN g1 (Hv _) 48); lia.
Qed.

(** ** run_EM, continued *)

(** With one component and data in one dimension that holds two different
    values, [run_EM] without imputation never restarts: it runs its 50 turns
    and returns with the weight 1, the mean equal to the average of the data
    and the variance equal to the mean squared distance of the data to that
    average, whatever uniform number [initialize] drew. *)
Theorem run_EM_one_component_1d `{RandomSource} (N : nat) (data : mat)
    (x1 x2 a0 m0 c0 r : R) (g : rng) (fuel : nat) :
  has_shape N 1 data -> In [x1] data -> In [x2] data -> x1 <> x2 ->
  fst (random_sample 1 1 g) = [[r]] -> (50 < fuel)%nat ->
  run_EM fuel data (mkParams [a0] [[m0]] [[[c0]]]) 0 None g
  = Some (Ok (mkState 50
                (mkParams [1] [[column_mean data]]
                          [[[mean_square_about (column_mean data) data]]])
                (snd (random_sample 1 1 g)))).
Proof. apply run_EM_one_component_1d_run. Qed.

Lemma run_EM_one_component_1d_witness :
  run_EM (H := scripted) 51 [[0]; [2]] (mkParams [0] [[0]] [[[0]]]) 0 None O
  = Some (Ok (mkState (H := scripted) 50
                (mkParams [1] [[column_mean [[0]; [2]]]]
                   [[[mean_square_about (column_mean [[0]; [2]]) [[0]; [2]]]]])
                1%nat)).
Proof.
  apply (run_EM_one_component_1d (H := scripted) 2 [[0]; [2]] 0 2 0 0 0 (1 / 2)
           O 51).
  - split; [reflexivity | repeat constructor].
  - now left.
  - right. now left.
  - lra.
  - reflexivity.
  - lia.
Defined.

Lemma run_EM_body_counter `{RandomSource} (fuel : nat) (data : mat)
    (impute : nat) (sel_callback : option callback) (st st' : EM_state) :
  run_EM_body fuel data impute sel_callback st = Some (Ok st') ->
  iter st' = S (iter st) \/ iter st' = 1%nat.
Proof.
  unfold run_EM_body.
  destruct (EM_try fuel data impute sel_callback (iter st) (store st) (source st))
    as [[[[u | e] p] g] |]; [| | discriminate].
  - intros Heq. injection Heq as <-. left. cbn [iter]. lia.
  - destruct e; try discriminate.
    destruct (initialize p g) as [[p0 | e] g0]; [| discriminate].
    intros Heq. injection Heq as <-. now right.
Qed.

Lemma run_EM_loop_counter `{RandomSource} (data : mat) (impute : nat)
    (sel_callback : option callback) (fuel : nat) :
  forall st st',
    run_EM_loop fuel data impute sel_callback st = Some (Ok st') ->
    (iter st <= 50)%nat -> iter st' = 50%nat.
Proof.
  induction fuel as [|fuel IH]; intros st st' Hloop Hle;
    cbn [run_EM_loop] in Hloop; [discriminate |].
  destruct (Nat.ltb_spec (iter st) 50) as [Hlt | Hge].
  - destruct (run_EM_body (S fuel) data impute sel_callback st)
      as [[st1 | e] |] eqn:Hbody; try discriminate.
    apply IH in Hloop; [exact Hloop |].
    destruct (run_EM_body_counter _ _ _ _ _ _ Hbody) as [-> | ->]; lia.
  - injection Hloop as <-. lia.
Qed.

(** When [run_EM] returns, its counter is exactly 50: the loop is left
    only through its test, also after any number of restarts. *)
Theorem run_EM_returns_at_50 `{RandomSource} (fuel : nat) (data : mat)
    (p : params) (impute : nat) (sel_callback : option callback) (g : rng)
    (st : EM_state) :
  run_EM fuel data p impute sel_callback g = Some (Ok st) -> iter st = 50%nat.
Proof.
  unfold run_EM. destruct (initialize p g) as [[p0 | e] g0]; [| discriminate].
  intros Hloop. apply run_EM_loop_counter in Hloop; [exact Hloop |].
  cbn [iter]. lia.
Qed.

Lemma run_EM_returns_at_50_witness :
  iter (mkState (H := scripted) 50
          (mkParams [1] [[column_mean [[0]; [2]]]]
             [[[mean_square_about (column_mean [[0]; [2]]) [[0]; [2]]]]])
          1%nat)
  = 50%nat.
Proof.
  apply (run_EM_returns_at_50 (H := scripted) 51 [[0]; [2]]
           (mkParams [0] [[0]] [[[0]]]) 0 None O).
  apply (run_EM_one_component_1d_run (H := scripted) 2 [[0]; [2]] 0 2 0 0 0
           (1 / 2) O 51).
  - split; [reflexivity | repeat constructor].
  - now left.
  - right. now left.
  - lra.
  - reflexivity.
  - lia.
Defined.

(** The schedule of [run_EM]: without imputation every turn is a plain
    one; with [impute > 0] the turns that call [I] are those of the odd
    counters from 25 to 49, thirteen of the fifty. *)
Theorem run_EM_schedule (impute : nat) :
  (impute = O -> forall i, plain_step impute i = true) /\
  (impute <> O ->
   filter (fun i => negb (plain_step impute i)) (seq 0 50)
   = [25; 27; 29; 31; 33; 35; 37; 39; 41; 43; 45; 47; 49]%nat).
Proof.
  split.
  - intros -> i. reflexivity.
  - intros Hnz. destruct impute as [|impute]; [contradiction |]. reflexivity.
Qed.

Lemma E_singular_covariance (data : mat) (a m : R) :
  E data [a] [[m]] [[[0]]] = Raise LinAlgError.
Proof.
  unfold E. cbn [length seq E_fill]. unfold E_column. cbn [nth].
  now rewrite inv_singular_1x1.
Qed.

Lemma zeros_shape (N : nat) : has_shape N 1 (repeat [0] N).
Proof.
  split; [apply repeat_length |]. apply Forall_forall. intros row Hin.
  apply repeat_spec in Hin. now subst.
Qed.

Lemma column_mean_zeros (N : nat) : (0 < N)%nat -> column_mean (repeat [0] N) = 0.
Proof.
  intros HN. unfold column_mean. rewrite col_zeros, sum_repeat, repeat_length.
  field. apply not_0_INR. lia.
Qed.

Lemma mean_square_about_zeros (m : R) (N : nat) :
  (0 < N)%nat -> mean_square_about m (repeat [0] N) = m * m.
Proof.
  intros HN. unfold mean_square_about.
  rewrite col_zeros, map_repeat, sum_repeat, repeat_length.
  field. apply not_0_INR. lia.
Qed.

Section PointsAtZero.

Context `{RandomSource}.

Variable N : nat.
Hypothesis points : (0 < N)%nat.
Hypothesis uniform :
  forall g, exists r, fst (random_sample 1 1 g) = [[r]] /\ 0 <= r < 1.

(** What the loop keeps true on [N] data points 0 with one component: the
    counter stays below 4; at counter 2 the mean is 0, at counter 3 the
    covariance is 0. *)
Let stuck (st : EM_state) : Prop :=
  (iter st <= 3)%nat /\
  exists a m c,
    store st = mkParams [a] [[m]] [[[c]]] /\
    (iter st = 2%nat -> m = 0) /\ (iter st = 3%nat -> c = 0).

Lemma points_at_zero_turn (fuel : nat) (st : EM_state) :
  stuck st ->
  exists st',
    run_EM_body fuel (repeat [0] N) 0 None st = Some (Ok st') /\ stuck st'.
Proof.
  intros [Hle [a [m [c [Hstore [H2 H3]]]]]].
  destruct st as [i p g]. cbn [iter store] in *. subst p.
  unfold run_EM_body, EM_try. cbn [iter store source plain_step Nat.eqb orb].
  destruct (Req_dec c 0) as [-> | Hc].
  - unfold EM_step. cbn [amp mean covar]. rewrite E_singular_covariance.
    unfold initialize. cbn [amp mean length Nat.eqb np.shape1 hd map repeat].
    destruct (uniform g) as [r [Hr _]].
    destruct (random_sample 1 1 g) as [mean1 g1]. cbn [fst] in Hr. subst mean1.
    eexists. split; [reflexivity |]. split; [cbn [iter]; lia |].
    do 3 eexists. cbn [iter store]. split; [reflexivity |]. split; lia.
  - rewrite (EM_step_one_component_1d N (repeat [0] N) a m c g (zeros_shape N)
               points Hc).
    rewrite (column_mean_zeros N points), (mean_square_about_zeros m N points).
    eexists. split; [reflexivity |].
    assert (Hi : (i <= 2)%nat).
    { destruct (Nat.eq_dec i 3) as [Heq | Hneq]; [now specialize (H3 Heq) | lia]. }
    split; [cbn [iter]; lia |].
    do 3 eexists. cbn [iter store]. split; [reflexivity |]. split.
    + reflexivity.
    + intros Hthree. rewrite (H2 ltac:(lia)). ring.
Qed.

Lemma points_at_zero_loop (fuel : nat) :
  forall st, stuck st -> run_EM_loop fuel (repeat [0] N) 0 None st = None.
Proof.
  induction fuel as [|fuel IH]; intros st Hst; [reflexivity |].
  cbn [run_EM_loop].
  destruct (Nat.ltb_spec (iter st) 50) as [_ | Hge];
    [| destruct Hst as [Hle _]; lia].
  destruct (points_at_zero_turn (S fuel) st Hst) as [st' [-> Hst']].
  now apply IH.
Qed.

Lemma points_at_zero_run (fuel : nat) (a0 m0 c0 : R) (g : rng) :
  run_EM fuel (repeat [0] N) (mkParams [a0] [[m0]] [[[c0]]]) 0 None g = None.
Proof.
  unfold run_EM, initialize. cbn [amp mean length Nat.eqb np.shape1 hd map repeat].
  destruct (uniform g) as [r [Hr _]].
  destruct (random_sample 1 1 g) as [mean1 g1]. cbn [fst] in Hr. subst mean1.
  apply points_at_zero_loop. split; [cbn [iter]; lia |].
  do 3 eexists. cbn [iter store]. split; [reflexivity |]. split; lia.
Qed.

End PointsAtZero.

(** On data in one dimension whose [N >= 1] points are all 0, with one
    component, [run_EM] never returns, whatever uniform numbers
    [initialize] draws: the first [M] step after a start moves the mean to
    0, the second leaves the covariance 0, the next [E] step raises
    [LinAlgError], and the counter never passes 3. *)
Theorem run_EM_points_at_zero_never_returns `{RandomSource} (N : nat)
    (a0 m0 c0 : R) (g : rng) :
  (0 < N)%nat ->
  (forall g, exists r, fst (random_sample 1 1 g) = [[r]] /\ 0 <= r < 1) ->
  forall fuel,
    run_EM fuel (repeat [0] N) (mkParams [a0] [[m0]] [[[c0]]]) 0 None g = None.
Proof.
  intros HN Huniform fuel. now apply points_at_zero_run.
Qed.

Lemma run_EM_points_at_zero_never_returns_witness :
  run_EM (H := scripted) 1000 (repeat [0] 2) (mkParams [0] [[0]] [[[0]]]) 0
    None O
  = None.
Proof.
  apply (run_EM_points_at_zero_never_returns (H := scripted) 2 0 0 0 O).
  - lia.
  - intros g. exists (1 / 2). split; [reflexivity | lra].
Defined.

(** One plain turn with a single component, in any dimension, from a
    positive weight and a covariance that has a positive determinant and
    can be inverted: the weight becomes 1 and the mean becomes the average
    of the data, coordinate by coordinate, whatever the mean was. *)
Theorem EM_step_one_component_mean `{RandomSource} (N D : nat) (data : mat)
    (a : R) (mu : list R) (c ic : mat) (g : rng) :
  has_shape N D data -> (0 < N)%nat -> length mu = D ->
  0 < a -> 0 < np.linalg.det c -> np.linalg.inv c = Ok ic ->
  exists p',
    EM_step data 0 (mkParams [a] [mu] [c]) g = (Ok tt, p', g) /\
    amp p' = [1] /\ length (mean p') = 1%nat /\
    forall d, (d < D)%nat -> entry (mean p') 0 d = np.sum (np.col d data) / INR N.
Proof.
  intros [Hlen Hrows] HN Hmu _ _ Hinv. unfold EM_step. cbn [amp mean covar].
  rewrite (E_single_component data a [mu] c ic Hinv), Hlen.
  assert (Hq : has_shape N 1 (repeat [0] N)).
  { split; [apply repeat_length |]. apply Forall_forall. intros row Hin.
    apply repeat_spec in Hin. now subst. }
  destruct (M_spec N 1 data (repeat [0] N) (mkParams [a] [mu] [c]) 0
              Hlen Hq HN eq_refl eq_refl eq_refl)
    as [p' [HM [La [Lm [Lc Hcomp]]]]].
  rewrite HM. exists p'. split; [reflexivity |].
  destruct (Hcomp O ltac:(lia)) as [Ea [Em _]]. cbv zeta in Em.
  cbn [amp mean covar nth np.shape1 hd] in Ea, Em.
  rewrite mass_zeros in Ea, Em. rewrite col_zeros, exp_zeros in Em.
  assert (HNz : INR N <> 0) by (apply not_0_INR; lia).
  split; [| split; [exact Lm |]].
  - rewrite (singleton_list (amp p') 0 La), Ea. f_equal. now field.
  - intros d Hd. unfold entry. rewrite Em.
    rewrite M_mean_row_nth; [| unfold np.shape1; simpl; lia | lia]. f_equal.
    rewrite <- Hlen, <- (col_length d data). apply sum_times_ones.
Qed.

Lemma EM_step_one_component_mean_witness :
  exists p',
    EM_step (H := scripted) [[1; 2]; [3; 4]] 0
      (mkParams [1] [[0; 0]] [np.mscale 1 (np.eye 2)]) O
    = (Ok tt, p', O) /\
    amp p' = [1] /\ length (mean p') = 1%nat /\
    forall d, (d < 2)%nat ->
      entry (mean p') 0 d = np.sum (np.col d [[1; 2]; [3; 4]]) / INR 2.
Proof.
  destruct (scaled_eye_invertible 1 2) as [ic Hic]; [lra |].
  apply (EM_step_one_component_mean (H := scripted) 2 2 [[1; 2]; [3; 4]] 1
           [0; 0] (np.mscale 1 (np.eye 2)) ic O).
  - split; [reflexivity | repeat constructor].
  - lia.
  - reflexivity.
  - lra.
  - unfold np.linalg.det. simpl. lra.
  - exact Hic.
Defined.

(** ** The store across the turns of run_EM *)

Lemma set_nth_Forall {A : Type} (P : A -> Prop) (n : nat) (x : A) (l : list A) :
  Forall P l -> P x -> Forall P (np.set_nth n x l).
Proof.
  intros Hl Hx. revert n. induction Hl as [|y l Hy Hl IH]; intros [|n];
    cbn [np.set_nth]; auto.
Qed.

Lemma set_rows_Forall (P : list R -> Prop) (rows : mat) :
  Forall P rows ->
  forall (start : nat) (m : mat), Forall P m -> Forall P (np.set_rows start rows m).
Proof.
  induction 1 as [|r rows Hr Hrows IH]; intros start m Hm; cbn [np.set_rows];
    [exact Hm |].
  apply IH. now apply set_nth_Forall.
Qed.

Lemma boolean_index_In {A : Type} (a : list A) (mask : list bool) (x : A) :
  In x (np.boolean_index a mask) -> In x a.
Proof.
  unfold np.boolean_index. intros Hin. apply in_map_iff in Hin.
  destruct Hin as [[y b] [Hfst Hin]]. cbn [fst] in Hfst. subst y.
  apply filter_In in Hin. destruct Hin as [Hin _].
  eapply in_combine_l; eauto.
Qed.

Lemma combine_seq_nth (n : nat) (c : nat) (b : bool) :
  forall (s : nat) (mask : list bool),
    In (c, b) (combine (seq s n) mask) ->
    (s <= c)%nat /\ nth (c - s) mask false = b.
Proof.
  induction n as [|n IH]; intros s mask Hin; [destruct Hin |].
  destruct mask as [|b0 mask]; [destruct Hin |].
  cbn [seq combine] in Hin. destruct Hin as [Heq | Hin].
  - injection Heq as -> ->. split; [lia |]. now rewrite Nat.sub_diag.
  - destruct (IH (S s) mask Hin) as [Hle Hnth]. split; [lia |].
    replace (c - s)%nat with (S (c - S s)) by lia. exact Hnth.
Qed.

(** The components [draw] samples from, line 15, all occur in [ind]. *)
Lemma components_occur (ind : list nat) (c : nat) :
  In c (np.boolean_index (seq 0 (length ind))
          (map (fun n => Nat.ltb 0 n) (np.bincount ind))) ->
  In c ind.
Proof.
  unfold np.boolean_index. intros Hin. apply in_map_iff in Hin.
  destruct Hin as [[y b] [Hfst Hin]]. cbn [fst] in Hfst. subst y.
  apply filter_In in Hin. destruct Hin as [Hin Hb]. cbn [snd] in Hb. subst b.
  apply combine_seq_nth in Hin. destruct Hin as [_ Hnth].
  rewrite Nat.sub_0_r in Hnth.
  unfold np.bincount in Hnth. destruct ind as [|i ind]; [now destruct c |].
  rewrite map_map in Hnth.
  destruct (Nat.ltb_spec c (S (list_max (i :: ind)))) as [Hlt | Hge].
  - rewrite (nth_map_seq _ _ c false Hlt) in Hnth.
    apply Nat.ltb_lt in Hnth.
    apply (count_occ_In Nat.eq_dec). lia.
  - rewrite nth_overflow in Hnth by (rewrite length_map, length_seq; lia).
    discriminate.
Qed.

Section DrawShapes.

Context `{RandomSource}.

Hypothesis contract : numpy_random_contract.

Lemma draw_by_component_rows (K D : nat) (mean : mat) (covar : list mat)
    (ind : list nat) (samples : mat) (g : rng) :
  has_shape K D mean -> Forall (fun i => (i < K)%nat) ind ->
  Forall (fun row => length row = D) samples ->
  Forall (fun row => length row = D)
         (fst (fst (draw_by_component mean covar ind samples g))).
Proof.
  intros [Hmr Hmc] Hind. unfold draw_by_component.
  pose proof (components_occur ind) as Hocc. revert Hocc.
  generalize (np.boolean_index (seq 0 (length ind))
                (map (fun n => Nat.ltb 0 n) (np.bincount ind))) as components.
  intros components Hocc.
  change samples with (fst (fst (samples, O, g))) at 1.
  generalize (samples, O, g) as st. revert Hocc.
  induction components as [|c cs IH]; intros Hocc [[s counter] g0] Hs;
    cbn [fold_left]; [exact Hs |].
  destruct contract as [_ [_ Hmvn]].
  pose proof (Hmvn (nth c mean []) (nth c covar [])
                (count_occ Nat.eq_dec ind c) g0) as [_ Hbatch].
  destruct (multivariate_normal (nth c mean []) (nth c covar [])
              (count_occ Nat.eq_dec ind c) g0) as [batch g'].
  cbn [fst] in *. apply IH.
  - intros c' Hc'. apply Hocc. now right.
  - cbn [fst]. apply set_rows_Forall; [| exact Hs].
    rewrite Forall_forall in Hmc, Hind.
    assert (Hc : (c < K)%nat) by (apply Hind, Hocc; now left).
    rewrite (Hmc (nth c mean [])) in Hbatch by (apply nth_In; lia).
    exact Hbatch.
Qed.

Lemma draw_one_by_one_rows (K D : nat) (mean : mat) (covar : list mat)
    (ind : list nat) (samples : mat) (g : rng) :
  has_shape K D mean -> Forall (fun i => (i < K)%nat) ind ->
  Forall (fun row => length row = D) samples ->
  Forall (fun row => length row = D)
         (fst (fst (draw_one_by_one mean covar ind samples g))).
Proof.
  intros [Hmr Hmc] Hind. unfold draw_one_by_one.
  change samples with (fst (fst (samples, O, g))) at 1.
  generalize (samples, O, g) as st.
  induction Hind as [|i ind Hi Hind IH]; intros [[s counter] g0] Hs;
    cbn [fold_left]; [exact Hs |].
  destruct contract as [_ [_ Hmvn]].
  pose proof (Hmvn (nth i mean []) (nth i covar []) 1%nat g0) as [Hlen Hbatch].
  destruct (multivariate_normal (nth i mean []) (nth i covar []) 1 g0)
    as [batch g'].
  cbn [fst] in *. apply IH. cbn [fst]. apply set_nth_Forall; [exact Hs |].
  destruct batch as [|row batch]; [discriminate |]. cbn [hd].
  inversion Hbatch as [|? ? Hrow _]; subst.
  rewrite Forall_forall in Hmc. rewrite Hrow. apply Hmc, nth_In. lia.
Qed.

Lemma draw_batch_rows (K D : nat) (p : params) (size : nat) (g : rng)
    (samples : mat) (p1 : params) (g1 : rng) :
  has_shape K D (mean p) -> length (amp p) = K ->
  draw_batch p size g = (Ok samples, p1, g1) ->
  Forall (fun row => length row = D) samples.
Proof.
  intros Hmean Hamp. unfold draw_batch, np_random_choice. cbn [amp mean covar].
  destruct (valid_probabilities _ _) eqn:Hvalid; [| discriminate].
  apply valid_probabilities_true in Hvalid. destruct Hvalid as [HK _].
  rewrite length_map, Hamp in *.
  destruct contract as [_ [Hchoice _]].
  pose proof (Hchoice K size (map (fun a => a / np.sum (amp p)) (amp p)) g HK)
    as Hind.
  destruct (choice K size _ g) as [ind g2]. cbn [fst] in Hind.
  assert (HD : np.shape1 (mean p) = D).
  { destruct Hmean as [Hmr Hmc]. unfold np.shape1.
    destruct (mean p) as [|row rest]; [simpl in Hmr; lia |].
    inversion Hmc; subst. reflexivity. }
  rewrite HD.
  assert (Hempty : Forall (fun row : list R => length row = D) (np.empty size D)).
  { apply (empty_shape size D). }
  destruct (Nat.ltb K size).
  - pose proof (draw_by_component_rows K D (mean p) (covar p) ind
                  (np.empty size D) g2 Hmean Hind Hempty) as Hrows.
    destruct (draw_by_component _ _ ind _ g2) as [[s counter] g3].
    intros Heq. injection Heq as <- _ _. exact Hrows.
  - pose proof (draw_one_by_one_rows K D (mean p) (covar p) ind
                  (np.empty size D) g2 Hmean Hind Hempty) as Hrows.
    destruct (draw_one_by_one _ _ ind _ g2) as [[s counter] g3].
    intros Heq. injection Heq as <- _ _. exact Hrows.
Qed.

(** What [draw] returns under a callback that answers with one flag for
    each sample: [size] rows of dimension [D]. *)
Lemma draw_shape (K D : nat) (sel_callback : option callback) (invert : bool)
    (fuel : nat) :
  (forall f samples, sel_callback = Some f -> length (f samples) = length samples) ->
  forall (p : params) (size : nat) (g : rng) samples p' g',
    has_shape K D (mean p) -> length (amp p) = K ->
    draw fuel p size sel_callback invert g = Some (Ok samples, p', g') ->
    has_shape size D samples.
Proof.
  intros Hflags. induction fuel as [|fuel IH];
    intros p size g samples p' g' Hmean Hamp Hdraw; cbn [draw] in Hdraw;
    [discriminate |].
  destruct (draw_batch p size g) as [[[batch | e] p1] g1] eqn:Hbatch;
    [| discriminate].
  pose proof (draw_batch_length p size g batch p1 g1 Hbatch) as Hlen.
  pose proof (draw_batch_rows K D p size g batch p1 g1 Hmean Hamp Hbatch) as Hrows.
  pose proof (draw_batch_store p size g) as Hstore. rewrite Hbatch in Hstore.
  cbn [fst snd] in Hstore. subst p1.
  unfold draw_select in Hdraw.
  destruct sel_callback as [f |].
  - set (mask := if invert then map negb (f batch) else f batch) in *.
    assert (Hmask : length mask = length batch).
    { unfold mask. destruct invert; [rewrite length_map |]; now apply Hflags. }
    destruct (Nat.eqb_spec (np.count_true mask) size) as [Heq | Hneq].
    + injection Hdraw as <- _ _. now split.
    + destruct (draw fuel _ _ _ invert g1) as [[[r2 p2] g2] |] eqn:Hrec;
        [| discriminate].
      destruct r2 as [ssamples | e]; [| discriminate].
      injection Hdraw as <- _ _.
      apply IH in Hrec;
        [| exact Hmean | cbn [amp]; unfold normalized; now rewrite length_map].
      destruct Hrec as [Hslen Hsrows].
      pose proof (count_true_le mask) as Hle.
      split.
      * rewrite length_app, (boolean_index_length batch mask Hmask), Hslen. lia.
      * apply Forall_app. split; [| exact Hsrows].
        apply Forall_forall. intros row Hin. apply boolean_index_In in Hin.
        rewrite Forall_forall in Hrows. now apply Hrows.
  - injection Hdraw as <- _ _. now split.
Qed.

End DrawShapes.

Lemma has_shape_app (r1 r2 c : nat) (m1 m2 : mat) :
  has_shape r1 c m1 -> has_shape r2 c m2 -> has_shape (r1 + r2) c (m1 ++ m2).
Proof.
  intros [H1 Hc1] [H2 Hc2]. split.
  - rewrite length_app. lia.
  - apply Forall_app. now split.
Qed.

Section StoreInvariant.

Context `{RandomSource}.

Hypothesis contract : numpy_random_contract.

Variables (K D : nat).
Hypothesis components : (0 < K)%nat.

Lemma initialize_well_formed (p : params) (g : rng) :
  length (amp p) = K -> has_shape K D (mean p) ->
  exists p0 g0, initialize p g = (Ok p0, g0) /\ well_formed K D p0.
Proof.
  intros Hamp [Hmr Hmc]. unfold initialize. rewrite Hamp.
  destruct (Nat.eqb_spec K 0) as [Hz | _]; [lia |].
  assert (HD : np.shape1 (mean p) = D).
  { unfold np.shape1. destruct (mean p) as [|row rest]; [simpl in Hmr; lia |].
    inversion Hmc; subst. reflexivity. }
  rewrite HD. destruct contract as [Hrandom _].
  specialize (Hrandom K D g).
  destruct (random_sample K D g) as [mean1 g1]. cbn [fst] in Hrandom.
  do 2 eexists. split; [reflexivity |].
  unfold well_formed. cbn [amp mean covar].
  split; [now rewrite length_map |].
  split; [exact Hrandom |].
  split; [apply repeat_length |].
  apply Forall_forall. intros c Hc. apply repeat_spec in Hc. subst c.
  apply scaled_eye_shape.
Qed.

Lemma EM_step_well_formed (N : nat) (data : mat) (impute : nat) (p : params)
    (g : rng) :
  has_shape N D data -> (impute < N)%nat -> well_formed K D p ->
  well_formed K D (snd (fst (EM_step data impute p g))).
Proof.
  intros Hdata Himp Hwf. unfold EM_step.
  pose proof (E_cases data (amp p) (mean p) (covar p)) as HE.
  destruct (E data (amp p) (mean p) (covar p)) as [qij | e]; [| exact Hwf].
  destruct HE as [Hq _].
  destruct Hwf as [Ha [Hm [Hc Hshapes]]].
  destruct Hdata as [Hlen Hrows]. rewrite Hlen, Ha in Hq.
  destruct (M_shapes N K D data qij p impute (conj Hlen Hrows) Hq Himp Ha Hm Hc
              Hshapes) as [p' [-> Hp']].
  exact Hp'.
Qed.

Lemma EM_try_well_formed (N : nat) (fuel : nat) (data : mat) (impute : nat)
    (sel_callback : option callback) (i : nat) (p : params) (g : rng)
    (r : result unit) (p' : params) (g' : rng) :
  (forall f samples, sel_callback = Some f -> length (f samples) = length samples) ->
  has_shape N D data -> (0 < N)%nat -> well_formed K D p ->
  EM_try fuel data impute sel_callback i p g = Some (r, p', g') ->
  well_formed K D p'.
Proof.
  intros Hflags Hdata HN Hwf. unfold EM_try.
  destruct (plain_step impute i).
  - intros Heq. injection Heq as Heq.
    pose proof (EM_step_well_formed N data 0 p g Hdata HN Hwf) as Hstep.
    rewrite Heq in Hstep. exact Hstep.
  - unfold I.
    destruct (draw fuel p impute sel_callback true g) as [[[r1 p1] g1] |] eqn:Hdraw;
      [| discriminate].
    pose proof (draw_store _ _ _ _ _ _ _ _ _ Hdraw) as Hp1.
    assert (Hwf1 : well_formed K D p1).
    { subst p1. destruct Hwf as [Ha [Hm [Hc Hshapes]]].
      unfold well_formed. cbn [amp mean covar].
      split; [unfold normalized; now rewrite length_map |].
      split; [exact Hm | split; [exact Hc | exact Hshapes]]. }
    destruct r1 as [data_out | e].
    + intros Heq. injection Heq as Heq.
      destruct Hwf as [Ha [Hm _]].
      pose proof (draw_shape contract K D sel_callback true fuel Hflags p impute g
                    data_out p1 g1 Hm Ha Hdraw) as Hout.
      pose proof (EM_step_well_formed (N + impute) (data ++ data_out) impute p1 g1
                    (has_shape_app _ _ _ _ _ Hdata Hout) ltac:(lia) Hwf1) as Hstep.
      rewrite Heq in Hstep. exact Hstep.
    + intros Heq. now injection Heq as _ <- _.
Qed.

Lemma run_EM_body_well_formed (N : nat) (fuel : nat) (data : mat) (impute : nat)
    (sel_callback : option callback) (st st' : EM_state) :
  (forall f samples, sel_callback = Some f -> length (f samples) = length samples) ->
  has_shape N D data -> (0 < N)%nat -> well_formed K D (store st) ->
  run_EM_body fuel data impute sel_callback st = Some (Ok st') ->
  well_formed K D (store st').
Proof.
  intros Hflags Hdata HN Hwf. unfold run_EM_body.
  destruct (EM_try fuel data impute sel_callback (iter st) (store st) (source st))
    as [[[r p] g] |] eqn:Htry; [| discriminate].
  pose proof (EM_try_well_formed N fuel data impute sel_callback _ _ _ r p g
                Hflags Hdata HN Hwf Htry) as Hp.
  destruct r as [u | e].
  - intros Heq. now injection Heq as <-.
  - destruct e; try discriminate.
    destruct Hp as [Ha [Hm _]].
    destruct (initialize_well_formed p g Ha Hm) as [p0 [g0 [-> Hp0]]].
    intros Heq. now injection Heq as <-.
Qed.

Lemma run_EM_loop_well_formed (N : nat) (data : mat) (impute : nat)
    (sel_callback : option callback) (fuel : nat) :
  (forall f samples, sel_callback = Some f -> length (f samples) = length samples) ->
  has_shape N D data -> (0 < N)%nat ->
  forall st st',
    well_formed K D (store st) ->
    run_EM_loop fuel data impute sel_callback st = Some (Ok st') ->
    well_formed K D (store st').
Proof.
  intros Hflags Hdata HN. induction fuel as [|fuel IH]; intros st st' Hwf Hloop;
    cbn [run_EM_loop] in Hloop; [discriminate |].
  destruct (Nat.ltb (iter st) 50).
  - destruct (run_EM_body (S fuel) data impute sel_callback st)
      as [[st1 | e] |] eqn:Hbody; try discriminate.
    apply (IH st1 st'); [| exact Hloop].
    exact (run_EM_body_well_formed N (S fuel) data impute sel_callback st st1
             Hflags Hdata HN Hwf Hbody).
  - now injection Hloop as <-.
Qed.

Lemma run_EM_well_formed (N : nat) (fuel : nat) (data : mat) (p : params)
    (impute : nat) (sel_callback : option callback) (g : rng) (st : EM_state) :
  (forall f samples, sel_callback = Some f -> length (f samples) = length samples) ->
  has_shape N D data -> (0 < N)%nat ->
  length (amp p) = K -> has_shape K D (mean p) ->
  run_EM fuel data p impute sel_callback g = Some (Ok st) ->
  well_formed K D (store st).
Proof.
  intros Hflags Hdata HN Ha Hm. unfold run_EM.
  destruct (initialize_well_formed p g Ha Hm) as [p0 [g0 [-> Hp0]]].
  apply (run_EM_loop_well_formed N data impute sel_callback fuel Hflags Hdata HN).
  exact Hp0.
Qed.

End StoreInvariant.

(** Through all its turns, plain ones, turns with imputed rows and
    restarts, [run_EM] keeps the store well shaped: when it returns, there
    are [K] weights, [K] means of dimension [D] and [K] covariances of [D]
    rows and [D] columns. *)
Theorem run_EM_keeps_store_well_formed `{RandomSource} (K D N fuel : nat)
    (data : mat) (p : params) (impute : nat) (sel_callback : option callback)
    (g : rng) (st : EM_state) :
  numpy_random_contract -> (0 < K)%nat ->
  (forall f samples, sel_callback = Some f -> length (f samples) = length samples) ->
  has_shape N D data -> (0 < N)%nat ->
  length (amp p) = K -> has_shape K D (mean p) ->
  run_EM fuel data p impute sel_callback g = Some (Ok st) ->
  well_formed K D (store st).
Proof.
  intros Hcontract HK Hflags Hdata HN Ha Hm Hrun.
  exact (run_EM_well_formed Hcontract K D HK N fuel data p impute sel_callback g st
           Hflags Hdata HN Ha Hm Hrun).
Qed.

Lemma scripted_contract : numpy_random_contract (H := scripted).
Proof.
  split; [| split].
  - intros K D g. cbn [random_sample scripted fst].
    split; [apply repeat_length |].
    apply Forall_forall. intros row Hin. apply repeat_spec in Hin. subst.
    apply repeat_length.
  - intros K size p g HK. cbn [choice scripted fst].
    apply Forall_forall. intros i Hi. apply repeat_spec in Hi. lia.
  - intros mu cov s g. cbn [multivariate_normal scripted fst].
    split; [apply repeat_length |].
    apply Forall_forall. intros row Hin. apply repeat_spec in Hin. subst.
    apply length_map.
Qed.

Lemma run_EM_keeps_store_well_formed_witness :
  well_formed 1 1
    (store (mkState (H := scripted) 50
              (mkParams [1] [[column_mean [[0]; [2]]]]
                 [[[mean_square_about (column_mean [[0]; [2]]) [[0]; [2]]]]])
              1%nat)).
Proof.
  apply (run_EM_keeps_store_well_formed (H := scripted) 1 1 2 51 [[0]; [2]]
           (mkParams [0] [[0]] [[[0]]]) 0 None O).
  - exact scripted_contract.
  - lia.
  - intros f samples Hf. discriminate.
  - split; [reflexivity | repeat constructor].
  - lia.
  - reflexivity.
  - split; [reflexivity | repeat constructor].
  - apply (run_EM_one_component_1d_run (H := scripted) 2 [[0]; [2]] 0 2 0 0 0
             (1 / 2) O 51).
    + split; [reflexivity | repeat constructor].
    + now left.
    + right. now left.
    + lra.
    + reflexivity.
    + lia.
Defined.

(** ** run_test *)

Lemma well_formed_app (n K D : nat) (a b : params) :
  well_formed (n * K) D a -> well_formed K D b ->
  well_formed (S n * K) D
    (mkParams (amp a ++ amp b) (mean a ++ mean b) (covar a ++ covar b)).
Proof.
  intros [Ha [Hma [Hca Hsa]]] [Hb [Hmb [Hcb Hsb]]].
  unfold well_formed. cbn [amp mean covar].
  replace (S n * K)%nat with (n * K + K)%nat by lia.
  split; [rewrite length_app; lia |].
  split; [now apply has_shape_app |].
  split; [rewrite length_app; lia |].
  apply Forall_app; now split.
Qed.

Section RunTest.

Context `{RandomSource}.

Hypothesis contract : numpy_random_contract.

Variables (K D N : nat) (data : mat).
Hypothesis components : (0 < K)%nat.
Hypothesis data_shape : has_shape N D data.
Hypothesis data_rows : (0 < N)%nat.

(** After [n] runs the accumulated arrays hold [n * K] components. *)
Let accumulated (n : nat) (acc : option params) : Prop :=
  match acc with
  | None => n = O
  | Some a => (0 < n)%nat /\ well_formed (n * K) D a
  end.

Lemma run_test_runs_accumulate (fuel impute : nat)
    (sel_callback : option callback) :
  (forall f samples, sel_callback = Some f -> length (f samples) = length samples) ->
  forall (runs n : nat) (acc : option params) (g : rng) (res : option params),
    accumulated n acc ->
    run_test_runs fuel data K D impute sel_callback runs acc g = Some (Ok res) ->
    accumulated (n + runs) res.
Proof.
  intros Hflags. induction runs as [|runs IH]; intros n acc g res Hacc Hruns;
    cbn [run_test_runs] in Hruns.
  - injection Hruns as <-. now rewrite Nat.add_0_r.
  - destruct (run_EM fuel data _ impute sel_callback g) as [[st | e] |] eqn:Hrun;
      try discriminate.
    pose proof (run_EM_well_formed contract K D components N fuel data
                  (mkParams (repeat 0 K) (np.empty K D) (repeat (np.empty D D) K))
                  impute sel_callback g st Hflags data_shape data_rows
                  (repeat_length 0 K) (empty_shape K D) Hrun) as Hst.
    replace (n + S runs)%nat with (S n + runs)%nat by lia.
    eapply (IH (S n)); [| exact Hruns].
    destruct acc as [a |]; unfold accumulated in *.
    + destruct Hacc as [Hn Ha]. split; [lia |]. now apply well_formed_app.
    + subst n. split; [lia |]. now rewrite Nat.mul_1_l.
Qed.

End RunTest.

(** [run_test] with [R = 0] raises [AttributeError] in [amp.sum()], since no
    run has set [amp], and with [R >= 1] it does not. When it returns, it
    returns the results of its [R] runs side by side: [R * K] weights,
    [R * K] means of dimension [D] and [R * K] covariances of [D] rows and
    [D] columns. *)
Theorem run_test_outcome `{RandomSource} (K D N fuel runs : nat) (data : mat)
    (sel : option (list bool)) (sel_callback : option callback) (g : rng) :
  numpy_random_contract -> (0 < K)%nat ->
  (forall f samples, sel_callback = Some f -> length (f samples) = length samples) ->
  has_shape N D data -> (0 < N)%nat ->
  match run_test fuel data K runs sel sel_callback g with
  | Some (Returns p) =>
      (0 < runs)%nat /\
      length (amp p) = (runs * K)%nat /\
      has_shape (runs * K) D (mean p) /\
      length (covar p) = (runs * K)%nat /\ Forall (has_shape D D) (covar p)
  | Some RaisesAttributeError => runs = O
  | Some (Raises _) => (0 < runs)%nat
  | None => (0 < runs)%nat
  end.
Proof.
  intros Hcontract HK Hflags Hdata HN. unfold run_test.
  rewrite (has_shape_shape1 N D data Hdata HN).
  set (impute := match sel with
                 | None => O
                 | Some mask => np.count_true (map negb mask)
                 end).
  set (cb := match sel with None => None | Some _ => sel_callback end).
  assert (Hcb : forall f samples, cb = Some f -> length (f samples) = length samples).
  { unfold cb. destruct sel; [exact Hflags | discriminate]. }
  replace (match sel with
           | None => run_test_runs fuel data K D 0 None runs None g
           | Some mask =>
               run_test_runs fuel data K D (np.count_true (map negb mask))
                 sel_callback runs None g
           end)
    with (run_test_runs fuel data K D impute cb runs None g)
    by (unfold impute, cb; now destruct sel).
  pose proof (run_test_runs_accumulate Hcontract K D N data HK Hdata HN fuel
                impute cb Hcb runs 0 None g) as Hacc.
  destruct (run_test_runs fuel data K D impute cb runs None g) as [[res | e] |] eqn:Hruns.
  - specialize (Hacc res eq_refl eq_refl). cbn [Nat.add] in Hacc.
    destruct res as [a |]; [| exact Hacc].
    destruct Hacc as [HR [Ha [Hm [Hc Hs]]]]. cbn [amp mean covar].
    split; [exact HR |].
    split; [unfold normalized; now rewrite length_map |].
    split; [exact Hm | split; [exact Hc | exact Hs]].
  - destruct runs; [discriminate | lia].
  - destruct runs; [discriminate | lia].
Qed.

Lemma run_test_outcome_witness :
  match run_test (H := scripted) 51 [[0]; [2]] 1 3 None None O with
  | Some (Returns p) =>
      (0 < 3)%nat /\
      length (amp p) = (3 * 1)%nat /\
      has_shape (3 * 1) 1 (mean p) /\
      length (covar p) = (3 * 1)%nat /\ Forall (has_shape 1 1) (covar p)
  | Some RaisesAttributeError => 3%nat = O
  | Some (Raises _) => (0 < 3)%nat
  | None => (0 < 3)%nat
  end.
Proof.
  apply (run_test_outcome (H := scripted) 1 1 2 51 3 [[0]; [2]] None None O).
  - exact scripted_contract.
  - lia.
  - intros f samples Hf. discriminate.
  - split; [reflexivity | repeat constructor].
  - lia.
Defined.

Section RunTestOneComponent.

Context `{RandomSource}.

Hypothesis uniform_shape : forall g, exists r, fst (random_sample 1 1 g) = [[r]].

Variables (N fuel : nat) (data : mat) (x1 x2 : R).
Hypothesis data_shape : has_shape N 1 data.
Hypothesis first_value : In [x1] data.
Hypothesis second_value : In [x2] data.
Hypothesis values_differ : x1 <> x2.
Hypothesis enough_fuel : (50 < fuel)%nat.

Let mu := column_mean data.
Let v := mean_square_about mu data.
Let copies (n : nat) : params :=
  mkParams (repeat 1 n) (repeat [mu] n) (repeat [[v]] n).

Lemma run_test_one_run (g : rng) :
  run_EM fuel data (mkParams (repeat 0 1) (np.empty 1 1) (repeat (np.empty 1 1) 1))
         0 None g
  = Some (Ok (mkState 50 (copies 1) (snd (random_sample 1 1 g)))).
Proof.
  destruct (uniform_shape g) as [r Hr].
  exact (run_EM_one_component_1d_run N data x1 x2 0 0 0 r g fuel data_shape
           first_value second_value values_differ Hr enough_fuel).
Qed.

Lemma run_test_runs_copies (runs : nat) :
  forall (n : nat) (g : rng),
    run_test_runs fuel data 1 1 0 None runs (Some (copies (S n))) g
    = Some (Ok (Some (copies (S n + runs)))).
Proof.
  induction runs as [|runs IH]; intros n g; cbn [run_test_runs].
  - now rewrite Nat.add_0_r.
  - rewrite run_test_one_run. cbn [store source].
    replace (S n + S runs)%nat with (S (S n) + runs)%nat by lia.
    rewrite <- (IH (S n) (snd (random_sample 1 1 g))). f_equal. f_equal.
    unfold copies. cbn [amp mean covar].
    change [1] with (repeat 1 1). change [[mu]] with (repeat [mu] 1).
    change [[[v]]] with (repeat [[v]] 1).
    rewrite <- !repeat_app. now rewrite Nat.add_1_r.
Qed.

Lemma run_test_one_component_1d_returns (runs : nat)
    (sel_callback : option callback) (g : rng) :
  (0 < runs)%nat ->
  run_test fuel data 1 runs None sel_callback g
  = Some (Returns (mkParams (repeat (1 / INR runs) runs) (repeat [mu] runs)
                            (repeat [[v]] runs))).
Proof.
  intros Hruns. unfold run_test.
  assert (HN : (0 < N)%nat).
  { destruct data_shape as [<- _]. destruct data; [destruct first_value | simpl; lia]. }
  rewrite (has_shape_shape1 N 1 data data_shape HN).
  destruct runs as [|runs]; [lia |]. cbn [run_test_runs].
  rewrite run_test_one_run. cbn [store source].
  rewrite (run_test_runs_copies runs 0). cbn [Nat.add].
  unfold copies. cbn [amp mean covar].
  unfold normalized. rewrite sum_repeat, map_repeat.
  replace (1 / (INR (S runs) * 1)) with (1 / INR (S runs))
    by (field; apply not_0_INR; lia).
  reflexivity.
Qed.

End RunTestOneComponent.

(** [run_test] end to end, for one component on data in one dimension that
    holds two different values: every one of the [R >= 1] runs returns the
    same fit, so the result is [R] weights [1/R], [R] times the average of
    the data and [R] times its mean squared distance to that average. The
    callback is not used when no selection mask is given. *)
Theorem run_test_one_component_1d `{RandomSource} (N fuel runs : nat)
    (data : mat) (x1 x2 : R) (sel_callback : option callback) (g : rng) :
  (forall g, exists r, fst (random_sample 1 1 g) = [[r]]) ->
  has_shape N 1 data -> In [x1] data -> In [x2] data -> x1 <> x2 ->
  (50 < fuel)%nat -> (0 < runs)%nat ->
  run_test fuel data 1 runs None sel_callback g
  = Some (Returns
            (mkParams (repeat (1 / INR runs) runs)
                      (repeat [column_mean data] runs)
                      (repeat [[mean_square_about (column_mean data) data]] runs))).
Proof.
  intros Hshape Hdata H1 H2 Hneq Hfuel Hruns.
  exact (run_test_one_component_1d_returns Hshape N fuel data x1 x2 Hdata H1 H2
           Hneq Hfuel runs sel_callback g Hruns).
Qed.

Lemma run_test_one_component_1d_witness :
  run_test (H := scripted) 51 [[0]; [2]] 1 3 None (Some (rowwise positive_first)) O
  = Some (Returns
            (mkParams (repeat (1 / INR 3) 3)
                      (repeat [column_mean [[0]; [2]]] 3)
                      (repeat [[mean_square_about (column_mean [[0]; [2]])
                                                  [[0]; [2]]]] 3))).
Proof.
  apply (run_test_one_component_1d (H := scripted) 2 51 3 [[0]; [2]] 0 2).
  - intros g. exists (1 / 2). reflexivity.
  - split; [reflexivity | repeat constructor].
  - now left.
  - right. now left.
  - lra.
  - lia.
  - lia.
Defined.

(** ** draw: the shape of what is returned *)

(** Under a callback that answers with one flag for each sample, whatever
    [draw] returns is an array of [size] rows and [D] columns, [D] being the
    dimension of the means, also when the result is put together from
    several rounds of rejection. *)
Theorem draw_returns_size_by_D `{RandomSource} (K D fuel : nat) (p : params)
    (size : nat) (sel_callback : option callback) (invert : bool) (g : rng)
    (samples : mat) (p' : params) (g' : rng) :
  numpy_random_contract ->
  (forall f samples, sel_callback = Some f -> length (f samples) = length samples) ->
  has_shape K D (mean p) -> length (amp p) = K ->
  draw fuel p size sel_callback invert g = Some (Ok samples, p', g') ->
  has_shape size D samples.
Proof.
  intros Hcontract Hflags Hmean Hamp Hdraw.
  exact (draw_shape Hcontract K D sel_callback invert fuel Hflags p size g
           samples p' g' Hmean Hamp Hdraw).
Qed.

Lemma draw_returns_size_by_D_witness :
  has_shape 1 1 [[0 + (INR 1 - 2)]].
Proof.
  apply (draw_returns_size_by_D (H := scripted) 1 1 1
           (mkParams [1] [[0]] [[[1]]]) 1 (Some (rowwise positive_first)) true O
           [[0 + (INR 1 - 2)]] (mkParams (normalized [1]) [[0]] [[[1]]]) 2%nat).
  - exact scripted_contract.
  - intros f samples Hf. injection Hf as <-. unfold rowwise. apply length_map.
  - split; [reflexivity | repeat constructor].
  - reflexivity.
  - exact scripted_I_first_sample.
Defined.
